(** * Babylon RCT license server: the license lifecycle of [index.js]

    A shallow embedding of the Express handlers of [index.js]
    (validate-license, activate-license, record-usage, admin create-license
    and admin deactivate-license) over a model of the two Mongoose
    collections they use, and the properties of the license lifecycle
    proved on it.

    Conventions of the embedding.
    - A [Date] is its epoch time in milliseconds, a [Z].  Every [new Date()]
      of one request reads the arrival time [now] of that request.
    - Strings are byte strings that hold UTF-8 text.  The numbers of the
      request bodies are safe integers ([SafeInteger]: the integers a JSON
      number holds exactly), and a field of a body that is absent is [None].
    - A [Date] that a handler computes may be an Invalid Date, which is
      [None].
    - The [License] collection is a finite map indexed by its unique index
      [licenseKey]; the [Usage] collection is a list in insertion order.
      Mongoose's own bookkeeping paths ([_id], [__v], [createdAt],
      [updatedAt]) are not part of the records; the version [__v] of a
      license is read off its array of activations ([version_of]).
    - Every awaited call on a model is one indivisible step on the store and
      may throw; which calls throw is fixed by the [faults] schedule of the
      world.  A document in a handler records the changes made to it, and
      [license.save()] sends these changes, not the whole document: the
      store applies them to the document it holds at that moment, and the
      call throws when the version the changes rely on has moved.
    - [index.js] holds the server twice; the two copies of the validate,
      activate, record-usage and deactivate routes are the same;
      [create_license] is the later create-license route, which trims the
      two names, and [create_license_first] is the earlier one. *)

From Stdlib Require Import ZArith String Ascii List.
From Stdlib.Strings Require Import Byte.
From stdpp Require Import base option list strings gmap pretty.

Local Open Scope Z_scope.
Local Open Scope string_scope.

(** ** Data model: the two schemas *)

(** An element of [deviceActivations]. [deviceInfo] is an opaque object,
    kept as its JSON text. *)
Record DeviceActivation := mkDeviceActivation {
  deviceId : string;
  activationDate : Z;
  lastValidation : Z;
  deviceInfo : string
}.

Record Metadata := mkMetadata {
  planType : string;
  version : string;
  notes : string
}.

(** [licenseSchema]. *)
Record License := mkLicense {
  licenseKey : string;
  customerEmail : string;
  customerName : string;
  purchaseDate : Z;
  expiryDate : Z;
  isActive : bool;
  maxActivations : Z;
  currentActivations : Z;
  deviceActivations : list DeviceActivation;
  metadata : Metadata
}.

(** [usageSchema]. *)
Record Usage := mkUsage {
  usageLicenseKey : string;
  usageDeviceId : string;
  usageAction : string;
  usageMetadata : string;
  usageTimestamp : Z
}.

(** The fields the create-license handler hands to [License.create]; the
    remaining paths take their schema defaults. *)
Record NewLicense := mkNewLicense {
  newLicenseKey : string;
  newCustomerEmail : string;
  newCustomerName : string;
  newExpiryDate : option Z;
  newMaxActivations : Z;
  newPlanType : string;
  newNotes : string
}.

Definition set_isActive (b : bool) (l : License) : License :=
  mkLicense (licenseKey l) (customerEmail l) (customerName l) (purchaseDate l)
            (expiryDate l) b (maxActivations l) (currentActivations l)
            (deviceActivations l) (metadata l).

Definition set_deviceActivations (ds : list DeviceActivation) (l : License) : License :=
  mkLicense (licenseKey l) (customerEmail l) (customerName l) (purchaseDate l)
            (expiryDate l) (isActive l) (maxActivations l) (currentActivations l)
            ds (metadata l).

Definition set_currentActivations (n : Z) (l : License) : License :=
  mkLicense (licenseKey l) (customerEmail l) (customerName l) (purchaseDate l)
            (expiryDate l) (isActive l) (maxActivations l) n
            (deviceActivations l) (metadata l).

Definition set_lastValidation (t : Z) (a : DeviceActivation) : DeviceActivation :=
  mkDeviceActivation (deviceId a) (activationDate a) t (deviceInfo a).

(** ** The store *)

(** What a store call throws. [ValidationError] carries the message of
    each path that failed; [DuplicateKey] is the driver error whose [code]
    is 11000; [VersionError] and [DocumentNotFound] are the errors of a
    [save()] whose update matched no document. *)
Inductive Err :=
| StoreError
| ValidationError (messages : list string)
| DuplicateKey
| VersionError
| DocumentNotFound.

(** [error.code === 11000]. *)
Definition err_code_is_11000 (e : Err) : bool :=
  match e with DuplicateKey => true | _ => false end.

(** The message of Mongoose for a required path that is missing. *)
Definition required_message (path : string) : string :=
  path +:+ ": Path `" +:+ path +:+ "` is required.".

(** The double quote, as a string. *)
Definition double_quote : string := String "034"%char EmptyString.

(** The message of Mongoose for a [Date] path that was given an Invalid
    Date. *)
Definition cast_date_message (path : string) : string :=
  path +:+ ": Cast to date failed for value " +:+ double_quote +:+ "Invalid Date" +:+
  double_quote +:+ " (type Date) at path " +:+ double_quote +:+ path +:+ double_quote.

(** [error.message]. *)
Definition err_message (e : Err) : string :=
  match e with
  | StoreError => "store unavailable"
  | ValidationError messages =>
      "License validation failed: " +:+ String.concat ", " messages
  | DuplicateKey => "E11000 duplicate key error"
  | VersionError => "No matching document found"
  | DocumentNotFound => "No document found"
  end.

(** The two collections, and the schedule of the store calls to come. *)
Record World := mkWorld {
  licenses : gmap string License;
  usages : list Usage;
  faults : list bool
}.

(** The store before any license was created. *)
Definition empty_world (fs : list bool) : World := mkWorld ∅ [] fs.

(** A change that a document of the [License] model has recorded since it
    was loaded, as [save()] sends it to the store:
    [$set: { 'deviceActivations.<index>.lastValidation': t }],
    [$push: { deviceActivations: a }] and [$set: { currentActivations: n }]. *)
Inductive Change :=
| SetLastValidation (index : nat) (t : Z)
| PushActivation (a : DeviceActivation)
| SetCurrentActivations (n : Z).

(** The version [__v] of a stored license. Mongoose adds one to it in
    every [save()] that pushes to the array and in no other call of the
    routes, so that the version of a license has moved since a handler
    loaded it exactly when the array has another number of elements: the
    version is counted as that number. *)
Definition version_of (l : License) : nat := length (deviceActivations l).

(** A document in a handler: what the handler reads from it, the changes
    it has recorded, and the version it was loaded with. *)
Record Document := mkDocument {
  held : License;
  changes : list Change;
  loaded_version : nat
}.

(** The document [findOne] hands to the handler: nothing is changed yet. *)
Definition loaded (l : License) : Document := mkDocument l [] (version_of l).

(** The calls the handlers make on the two models:
    [License.findOne({ licenseKey, isActive })], [license.save()],
    [License.create(fields)],
    [License.findOneAndUpdate({ licenseKey }, { isActive }, { new: true })]
    and [Usage.create(fields)]. *)
Inductive Op : Type -> Type :=
| LicenseFindOne (key : string) (active : bool) : Op (option License)
| LicenseSave (doc : Document) : Op unit
| LicenseCreate (now : Z) (fields : NewLicense) : Op License
| LicenseFindOneAndUpdate (key : string) (active : bool) : Op (option License)
| UsageCreate (now : Z) (key device action meta : string) : Op Usage.

(** The next entry of the fault schedule: [true] makes the call throw
    [StoreError] and leaves the collections as they are. *)
Definition pop_fault (w : World) : bool * World :=
  match faults w with
  | [] => (false, w)
  | f :: fs => (f, mkWorld (licenses w) (usages w) fs)
  end.

(** The document under [key] that also carries that [licenseKey]. *)
Definition by_key (m : gmap string License) (key : string) : option License :=
  match m !! key with
  | Some l => if String.eqb (licenseKey l) key then Some l else None
  | None => None
  end.

(** The [required: true] string paths of [licenseSchema] that fail:
    Mongoose's required validator rejects the empty string. *)
Definition missing_required (f : NewLicense) : list string :=
  (if String.eqb (newLicenseKey f) "" then ["licenseKey"] else []) ++
  (if String.eqb (newCustomerEmail f) "" then ["customerEmail"] else []) ++
  (if String.eqb (newCustomerName f) "" then ["customerName"] else []).

(** The messages of the paths of [licenseSchema] that fail validation: an
    [expiryDate] that is an Invalid Date fails its cast when the document is
    built, and the required paths are checked after it. *)
Definition validation_messages (f : NewLicense) : list string :=
  (match newExpiryDate f with
   | None => [cast_date_message "expiryDate"]
   | Some _ => []
   end) ++ map required_message (missing_required f).

(** The document [License.create] inserts: the given fields and the schema
    defaults ([purchaseDate: Date.now], [isActive: true],
    [currentActivations: 0], no [deviceActivations], [version: '1.0']). A
    document is inserted only when its validation has passed, so that its
    [expiryDate] is a date. *)
Definition new_document (now : Z) (f : NewLicense) : License :=
  mkLicense (newLicenseKey f) (newCustomerEmail f) (newCustomerName f) now
            (default 0 (newExpiryDate f)) true (newMaxActivations f) 0 []
            (mkMetadata (newPlanType f) "1.0" (newNotes f)).

(** One recorded change, applied by the store to the document it holds. A
    [$set] below an index changes the element the stored array has at that
    index. *)
Definition apply_change (l : License) (c : Change) : License :=
  match c with
  | SetLastValidation index t =>
      set_deviceActivations (alter (set_lastValidation t) index (deviceActivations l)) l
  | PushActivation a => set_deviceActivations (deviceActivations l ++ [a]) l
  | SetCurrentActivations n => set_currentActivations n l
  end.

(** The update [save()] sends: all recorded changes, in one store call. *)
Definition apply_changes (cs : list Change) (l : License) : License :=
  foldl apply_change l cs.

(** Whether [save()] puts the version of its document into the filter of
    the update: it does when a change sets a path below an index of the
    array, so that the element at that index is still the one that was
    loaded. A push needs no such filter. *)
Definition checks_version (cs : list Change) : bool :=
  existsb (fun c => match c with SetLastValidation _ _ => true | _ => false end) cs.

(** The update of [save()] matches the stored document. *)
Definition save_matches (doc : Document) (stored : License) : bool :=
  negb (checks_version (changes doc)) || Nat.eqb (version_of stored) (loaded_version doc).

(** What a call does to the collections when it goes through. [findOne]
    returns the document of that key if its [isActive] is as asked; [save]
    applies the changes the handler's document has recorded to the stored
    document of that key, and throws when its update matches no document;
    [create] inserts the new document unless the unique index on
    [licenseKey] already has the key; [findOneAndUpdate] sets [isActive] and
    returns the new document; [Usage.create] appends the event with
    [timestamp: Date.now]. *)
Definition store_call {R : Type} (op : Op R) (w : World) : (Err + R) * World :=
  match op in Op R return (Err + R) * World with
  | LicenseFindOne key active =>
      (inr (match by_key (licenses w) key with
            | Some l => if Bool.eqb (isActive l) active then Some l else None
            | None => None
            end), w)
  | LicenseSave doc =>
      match licenses w !! licenseKey (held doc) with
      | Some stored =>
          if save_matches doc stored then
            (inr tt, mkWorld (<[licenseKey (held doc) := apply_changes (changes doc) stored]>
                                (licenses w))
                             (usages w) (faults w))
          else (inl VersionError, w)
      | None => (inl DocumentNotFound, w)
      end
  | LicenseCreate now f =>
      match licenses w !! newLicenseKey f with
      | Some _ => (inl DuplicateKey, w)
      | None =>
          let doc := new_document now f in
          (inr doc, mkWorld (<[licenseKey doc := doc]> (licenses w)) (usages w) (faults w))
      end
  | LicenseFindOneAndUpdate key active =>
      match by_key (licenses w) key with
      | Some l =>
          let l' := set_isActive active l in
          (inr (Some l'), mkWorld (<[key := l']> (licenses w)) (usages w) (faults w))
      | None => (inr None, w)
      end
  | UsageCreate now key device action meta =>
      let u := mkUsage key device action meta now in
      (inr u, mkWorld (licenses w) (usages w ++ [u]) (faults w))
  end.

(** Schema validation, which Mongoose runs before it sends anything to the
    store: [License.create] is rejected when a path fails. *)
Definition rejected {R : Type} (op : Op R) : option Err :=
  match op with
  | LicenseCreate _ f =>
      match validation_messages f with
      | [] => None
      | messages => Some (ValidationError messages)
      end
  | _ => None
  end.

(** One awaited call: a document that fails validation is rejected at once;
    otherwise the call throws when the schedule says so, and else it acts
    on the collections. *)
Definition exec {R : Type} (op : Op R) (w : World) : (Err + R) * World :=
  match rejected op with
  | Some e => (inl e, w)
  | None =>
      let '(f, w1) := pop_fault w in
      if f then (inl StoreError, w1) else store_call op w1
  end.

(** ** Handler bodies: programs over store calls *)

(** A body is its answer, or an awaited store call and what follows it. *)
Inductive Prog (A : Type) : Type :=
| Ret (a : A)
| Call {R : Type} (op : Op R) (k : R -> Prog A).

Arguments Ret {A} a.
Arguments Call {A R} op k.

Fixpoint bind {A B : Type} (p : Prog A) (f : A -> Prog B) : Prog B :=
  match p with
  | Ret a => f a
  | Call op k => Call op (fun r => bind (k r) f)
  end.

(** [await op]. *)
Definition await {R : Type} (op : Op R) : Prog R := Call op Ret.

#[global] Instance Prog_ret : MRet Prog := @Ret.
#[global] Instance Prog_bind : MBind Prog := fun A B f p => bind p f.

(** Running a body to its end, with no other request in between. *)
Fixpoint run {A : Type} (p : Prog A) (w : World) : (Err + A) * World :=
  match p with
  | Ret a => (inr a, w)
  | Call op k =>
      match exec op w with
      | (inl e, w') => (inl e, w')
      | (inr r, w') => run (k r) w'
      end
  end.

(** ** Responses *)

(** The JSON values of the answers; a [Date] stays its epoch time. *)
#[warnings="-register-all"] Inductive JVal :=
| JBool (b : bool)
| JNum (n : Z)
| JStr (s : string)
| JDate (ms : Z)
| JObj (fields : list (string * JVal)).

(** [res.status(code).json(payload)]; a plain [res.json] has status 200. *)
Record Response := mkResponse {
  status : Z;
  payload : list (string * JVal)
}.

(** [res.status(code).json({ ... })]. *)
Definition json (code : Z) (fields : list (string * JVal)) : Response :=
  mkResponse code fields.

(** The value of a field of an object. *)
Fixpoint field (name : string) (fields : list (string * JVal)) : option JVal :=
  match fields with
  | [] => None
  | (n, v) :: rest => if String.eqb n name then Some v else field name rest
  end.

(** The [valid] flag of a validate or activate answer. *)
Definition valid (r : Response) : bool :=
  match field "valid" (payload r) with Some (JBool b) => b | _ => false end.

(** The [message] of an answer. *)
Definition message (r : Response) : option string :=
  match field "message" (payload r) with Some (JStr s) => Some s | _ => None end.

(** A route: the [try] block and the [catch] clause around it. *)
Record Handler := mkHandler {
  try_block : Prog Response;
  catch : Err -> Response
}.

(** A request served alone: the answer of the [try] block, or of the
    [catch] clause when a store call threw. *)
Definition run_handler (h : Handler) (w : World) : Response * World :=
  match run (try_block h) w with
  | (inl e, w') => (catch h e, w')
  | (inr r, w') => (r, w')
  end.

(** ** JavaScript helpers *)

(** Truthiness of an optional string: [undefined], [null] and the empty
    string are falsy. *)
Definition truthy (x : option string) : bool :=
  match x with
  | Some s => negb (String.eqb s "")
  | None => false
  end.

(** [x || d] on an optional string. *)
Definition or_else (x : option string) (d : string) : string :=
  match x with
  | Some s => if String.eqb s "" then d else s
  | None => d
  end.

(** [Number.MAX_SAFE_INTEGER], 2^53 - 1. *)
Definition MAX_SAFE_INTEGER : Z := 9007199254740991.

(** [Number.isSafeInteger] on an integer. *)
Definition isSafeInteger (n : Z) : bool := (Z.abs n <=? MAX_SAFE_INTEGER)%Z.

(** A number of a request body: an integer that the JSON number holds
    exactly, and that [String] writes with all its digits. *)
Record SafeInteger := mkSafeInteger {
  integer : Z;
  integer_is_safe : isSafeInteger integer = true
}.

(** [parseInt(x) || d] where [x] is a safe integer or absent (the
    destructuring default is [d] as well): [parseInt] reads back the digits
    [String(x)] writes, and 0 is falsy. *)
Definition parseInt_or (x : option SafeInteger) (d : Z) : Z :=
  match x with
  | Some n => if Z.eqb (integer n) 0 then d else integer n
  | None => d
  end.

(** The white space and line terminators of [String.prototype.trim] that
    UTF-8 writes with one byte: U+0009 to U+000D and U+0020. *)
Definition is_space (c : ascii) : bool :=
  let n := nat_of_ascii c in
  ((9 <=? n)%nat && (n <=? 13)%nat) || (n =? 32)%nat.

(** With two bytes: U+00A0, the no-break space (C2 A0). *)
Definition is_space2 (c1 c2 : ascii) : bool :=
  (nat_of_ascii c1 =? 194)%nat && (nat_of_ascii c2 =? 160)%nat.

(** With three bytes: U+1680 (E1 9A 80), U+2000 to U+200A (E2 80 80 to
    E2 80 8A), U+2028 and U+2029 (E2 80 A8, E2 80 A9), U+202F (E2 80 AF),
    U+205F (E2 81 9F), U+3000 (E3 80 80) and U+FEFF (EF BB BF). *)
Definition is_space3 (c1 c2 c3 : ascii) : bool :=
  let n1 := nat_of_ascii c1 in
  let n2 := nat_of_ascii c2 in
  let n3 := nat_of_ascii c3 in
  ((n1 =? 225) && (n2 =? 154) && (n3 =? 128))%nat ||
  ((n1 =? 226) && (n2 =? 128) &&
   (((128 <=? n3) && (n3 <=? 138)) || (n3 =? 168) || (n3 =? 169) || (n3 =? 175)))%nat ||
  ((n1 =? 226) && (n2 =? 129) && (n3 =? 159))%nat ||
  ((n1 =? 227) && (n2 =? 128) && (n3 =? 128))%nat ||
  ((n1 =? 239) && (n2 =? 187) && (n3 =? 191))%nat.

(** [s] is one white space character. *)
Definition is_one_space (s : string) : bool :=
  match s with
  | String c1 EmptyString => is_space c1
  | String c1 (String c2 EmptyString) => is_space2 c1 c2
  | String c1 (String c2 (String c3 EmptyString)) => is_space3 c1 c2 c3
  | _ => false
  end.

(** [s] begins with a white space character. *)
Definition leading_space (s : string) : bool :=
  match s with
  | String c1 r1 =>
      is_space c1 ||
      match r1 with
      | String c2 r2 =>
          is_space2 c1 c2 ||
          match r2 with
          | String c3 _ => is_space3 c1 c2 c3
          | EmptyString => false
          end
      | EmptyString => false
      end
  | EmptyString => false
  end.

Fixpoint trimStart (s : string) : string :=
  match s with
  | String c1 r1 =>
      if is_space c1 then trimStart r1
      else
        match r1 with
        | String c2 r2 =>
            if is_space2 c1 c2 then trimStart r2
            else
              match r2 with
              | String c3 r3 => if is_space3 c1 c2 c3 then trimStart r3 else s
              | EmptyString => s
              end
        | EmptyString => s
        end
  | EmptyString => EmptyString
  end.

(** The end of the tail is trimmed first; the character in front of it is
    white space at the end exactly when, with what is left of the tail, it
    makes up one white space character. *)
Fixpoint trimEnd (s : string) : string :=
  match s with
  | String c rest =>
      let t := String c (trimEnd rest) in
      if is_one_space t then EmptyString else t
  | EmptyString => EmptyString
  end.

Definition trim (s : string) : string := trimEnd (trimStart s).

(** [Array.prototype.find] on [deviceActivations] with
    [activation => activation.deviceId === device_id]. *)
Definition find_activation (device_id : string) (ds : list DeviceActivation)
  : option DeviceActivation :=
  List.find (fun activation => String.eqb (deviceId activation) device_id) ds.

(** The assignment [found.lastValidation = t] on the element [find]
    returned: the array of the document holds that same object, so its
    first element with this [deviceId] changes in place. *)
Fixpoint touch_activation (device_id : string) (t : Z) (ds : list DeviceActivation)
  : list DeviceActivation :=
  match ds with
  | [] => []
  | a :: rest =>
      if String.eqb (deviceId a) device_id
      then set_lastValidation t a :: rest
      else a :: touch_activation device_id t rest
  end.

(** The index in the array of the element [find] returns. *)
Fixpoint activation_index (device_id : string) (ds : list DeviceActivation) : option nat :=
  match ds with
  | [] => None
  | a :: rest =>
      if String.eqb (deviceId a) device_id then Some O
      else S <$> activation_index device_id rest
  end.

(** [found.lastValidation = t] on a document: the element changes, and the
    document records the path below its index as modified, unless [t] is the
    time the path already holds, which modifies nothing. *)
Definition assign_lastValidation (device_id : string) (t : Z) (doc : Document) : Document :=
  match activation_index device_id (deviceActivations (held doc)),
        find_activation device_id (deviceActivations (held doc)) with
  | Some index, Some found =>
      mkDocument
        (set_deviceActivations
           (touch_activation device_id t (deviceActivations (held doc))) (held doc))
        (if Z.eqb (lastValidation found) t then changes doc
         else changes doc ++ [SetLastValidation index t])
        (loaded_version doc)
  | _, _ => doc
  end.

(** [license.deviceActivations.push(a)]. *)
Definition push_activation (a : DeviceActivation) (doc : Document) : Document :=
  mkDocument (set_deviceActivations (deviceActivations (held doc) ++ [a]) (held doc))
             (changes doc ++ [PushActivation a])
             (loaded_version doc).

(** [license.currentActivations += 1]: the new number is what the document
    records. *)
Definition increment_currentActivations (doc : Document) : Document :=
  let n := currentActivations (held doc) + 1 in
  mkDocument (set_currentActivations n (held doc))
             (changes doc ++ [SetCurrentActivations n])
             (loaded_version doc).

(** ** Key generation *)

(** One lower-case hexadecimal digit. *)
Definition hex_digit (n : N) : ascii :=
  match n with
  | 0 => "0" | 1 => "1" | 2 => "2" | 3 => "3" | 4 => "4" | 5 => "5" | 6 => "6"
  | 7 => "7" | 8 => "8" | 9 => "9" | 10 => "a" | 11 => "b" | 12 => "c"
  | 13 => "d" | 14 => "e" | _ => "f"
  end%N%char.

(** [buffer.toString('hex')]: two digits for each byte. *)
Fixpoint toString_hex (buffer : list byte) : string :=
  match buffer with
  | [] => EmptyString
  | b :: rest =>
      let n := Byte.to_N b in
      String (hex_digit (n / 16)) (String (hex_digit (n mod 16)) (toString_hex rest))
  end.

Definition upper_char (c : ascii) : ascii :=
  let n := nat_of_ascii c in
  if ((97 <=? n)%nat && (n <=? 122)%nat)%bool then ascii_of_nat (n - 32) else c.

Fixpoint toUpperCase (s : string) : string :=
  match s with
  | String c rest => String (upper_char c) (toUpperCase rest)
  | EmptyString => EmptyString
  end.

(** [crypto.randomBytes(2)] of the [i]-th turn of the loop, drawn from the
    stream [rnd] of random bytes of the request. *)
Definition randomBytes2 (rnd : nat -> byte) (i : nat) : list byte :=
  [rnd (2 * i)%nat; rnd (2 * i + 1)%nat].

(** The loop [for (let i = 0; i < 3; i++) segments.push(...)]. *)
Definition key_segments (rnd : nat -> byte) : list string :=
  map (fun i => toUpperCase (toString_hex (randomBytes2 rnd i))) (seq 0 3).

(** [Array.prototype.join]. *)
Definition join (sep : string) (parts : list string) : string :=
  String.concat sep parts.

Definition generate_key (rnd : nat -> byte) : string :=
  "BABYLON-" +:+ join "-" (key_segments rnd).

(** ** The routes *)

(** [POST /api/validate-license]. *)
Definition validate_license (now : Z) (license_key device_id : string) : Handler :=
  mkHandler
    (license ← await (LicenseFindOne license_key true);
     match license with
     | None =>
         mret (json 200 [("valid", JBool false);
                         ("message", JStr "License not found or inactive")])
     | Some license =>
         if now >? expiryDate license then
           mret (json 200 [("valid", JBool false);
                           ("message", JStr "License has expired")])
         else
           match find_activation device_id (deviceActivations license) with
           | None =>
               mret (json 200 [("valid", JBool false);
                               ("message", JStr "License not activated on this device")])
           | Some _ =>
               let license := assign_lastValidation device_id now (loaded license) in
               await (LicenseSave license);;
               mret (json 200 [("valid", JBool true);
                               ("message", JStr "License is valid");
                               ("expiry_date", JDate (expiryDate (held license)));
                               ("customer_name", JStr (customerName (held license)));
                               ("plan_type", JStr (planType (metadata (held license))))])
           end
     end)
    (fun error => json 500 [("valid", JBool false);
                            ("message", JStr "Server error during validation")]).

(** The text of the limit answer, with its plural. *)
Definition limit_message (maxA : Z) : string :=
  "License activation limit reached (" +:+ pretty maxA +:+ " device" +:+
  (if maxA >? 1 then "s" else "") +:+ "). Please contact support.".

(** [POST /api/activate-license]. *)
Definition activate_license (now : Z) (license_key device_id : string)
    (device_fingerprint : option string) : Handler :=
  mkHandler
    (license ← await (LicenseFindOne license_key true);
     match license with
     | None =>
         mret (json 200 [("valid", JBool false);
                         ("message", JStr "Invalid license key")])
     | Some license =>
         if now >? expiryDate license then
           mret (json 200 [("valid", JBool false);
                           ("message", JStr "License has expired. Please contact support.")])
         else
           match find_activation device_id (deviceActivations license) with
           | Some _ =>
               let license := assign_lastValidation device_id now (loaded license) in
               await (LicenseSave license);;
               mret (json 200 [("valid", JBool true);
                               ("message", JStr "License already activated on this device");
                               ("expiry_date", JDate (expiryDate (held license)));
                               ("customer_name", JStr (customerName (held license)))])
           | None =>
               if currentActivations license >=? maxActivations license then
                 mret (json 200 [("valid", JBool false);
                                 ("message", JStr (limit_message (maxActivations license)))])
               else
                 let license :=
                   push_activation
                     (mkDeviceActivation device_id now now (or_else device_fingerprint "{}"))
                     (loaded license) in
                 let license := increment_currentActivations license in
                 await (LicenseSave license);;
                 mret (json 200 [("valid", JBool true);
                                 ("message", JStr "License activated successfully!");
                                 ("expiry_date", JDate (expiryDate (held license)));
                                 ("customer_name", JStr (customerName (held license)));
                                 ("plan_type", JStr (planType (metadata (held license))));
                                 ("activations_used",
                                  JNum (currentActivations (held license)));
                                 ("activations_total",
                                  JNum (maxActivations (held license)))])
           end
     end)
    (fun error => json 500 [("valid", JBool false);
                            ("message", JStr "Server error during activation")]).

(** [POST /api/record-usage]. *)
Definition record_usage (now : Z) (license_key device_id action : string)
    (metadata : option string) : Handler :=
  mkHandler
    (await (UsageCreate now license_key device_id action (or_else metadata "{}"));;
     mret (json 200 [("success", JBool true)]))
    (fun error => json 200 [("success", JBool false)]).

(** The body of a create-license request; an absent field is [None]. *)
Record CreateBody := mkCreateBody {
  bodyCustomerEmail : option string;
  bodyCustomerName : option string;
  bodyPlanType : option string;
  bodyDurationMonths : option SafeInteger;
  bodyMaxActivations : option SafeInteger;
  bodyNotes : option string
}.

Section AdminRoutes.

(** [d.setMonth(d.getMonth() + n)] on the epoch time of [d]: the calendar
    arithmetic of [Date] in the server's time zone, which gives an Invalid
    Date when the result is out of the range of [Date]. *)
Variable setMonth_add : Z -> Z -> option Z.

(** [POST /api/admin/create-license], behind [authenticateAdmin]. *)
Definition create_license (now : Z) (rnd : nat -> byte) (body : CreateBody) : Handler :=
  mkHandler
    (if negb (truthy (bodyCustomerEmail body)) || negb (truthy (bodyCustomerName body)) then
       mret (json 400 [("success", JBool false);
                       ("error", JStr "Customer email and name are required")])
     else
       let key := generate_key rnd in
       let expiry := setMonth_add now (parseInt_or (bodyDurationMonths body) 12) in
       license ← await (LicenseCreate now
                    (mkNewLicense key
                       (trim (or_else (bodyCustomerEmail body) ""))
                       (trim (or_else (bodyCustomerName body) ""))
                       expiry
                       (parseInt_or (bodyMaxActivations body) 1)
                       (or_else (bodyPlanType body) "single")
                       (or_else (bodyNotes body) "")));
       mret (json 200 [("success", JBool true);
                       ("license", JObj [("licenseKey", JStr (licenseKey license));
                                         ("customerName", JStr (customerName license));
                                         ("customerEmail", JStr (customerEmail license));
                                         ("expiryDate", JDate (expiryDate license));
                                         ("maxActivations", JNum (maxActivations license));
                                         ("planType", JStr (planType (metadata license)))])]))
    (fun error =>
       if err_code_is_11000 error then
         json 400 [("success", JBool false);
                   ("error", JStr "License key already exists. Please try again.")]
       else
         json 500 [("success", JBool false);
                   ("error", JStr (err_message error))]).

End AdminRoutes.

(** [POST /api/admin/deactivate-license], behind [authenticateAdmin]. *)
Definition deactivate_license (licenseKey : string) : Handler :=
  mkHandler
    (license ← await (LicenseFindOneAndUpdate licenseKey false);
     match license with
     | None => mret (json 404 [("error", JStr "License not found")])
     | Some _ => mret (json 200 [("success", JBool true);
                                 ("message", JStr "License deactivated")])
     end)
    (fun error => json 500 [("error", JStr (err_message error))]).

(** ** The server as a transition system *)

(** The requests that reach a route that writes to the store. *)
Inductive Request :=
| ValidateLicense (license_key device_id : string)
| ActivateLicense (license_key device_id : string) (device_fingerprint : option string)
| RecordUsage (license_key device_id action : string) (metadata : option string)
| CreateLicense (rnd : nat -> byte) (body : CreateBody)
| DeactivateLicense (licenseKey : string).

Section Server.

Variable setMonth_add : Z -> Z -> option Z.

Definition route (now : Z) (req : Request) : Handler :=
  match req with
  | ValidateLicense k d => validate_license now k d
  | ActivateLicense k d fp => activate_license now k d fp
  | RecordUsage k d a m => record_usage now k d a m
  | CreateLicense rnd body => create_license setMonth_add now rnd body
  | DeactivateLicense k => deactivate_license k
  end.

(** One request served from its first store call to its answer. *)
Definition serve (now : Z) (req : Request) (w : World) : Response * World :=
  run_handler (route now req) w.

(** Requests served one after the other, each with its arrival time. *)
Fixpoint serve_all (reqs : list (Z * Request)) (w : World) : World :=
  match reqs with
  | [] => w
  | (now, req) :: rest => serve_all rest (snd (serve now req w))
  end.

End Server.

(** ** Requests in flight together *)

(** A request in flight: the rest of its [try] block, or its answer. *)
Inductive Thread :=
| Running (rest : Prog Response) (on_error : Err -> Response)
| Done (answer : Response).

(** A request enters its route. *)
Definition spawn (h : Handler) : Thread := Running (try_block h) (catch h).

(** The thread runs up to and including its next awaited store call. *)
Definition step_thread (t : Thread) (w : World) : Thread * World :=
  match t with
  | Done r => (Done r, w)
  | Running (Ret r) _ => (Done r, w)
  | Running (Call op k) on_error =>
      match exec op w with
      | (inl e, w') => (Done (on_error e), w')
      | (inr r, w') =>
          (match k r with
           | Ret a => Done a
           | p => Running p on_error
           end, w')
      end
  end.

(** The threads take turns as the schedule names them. *)
Fixpoint interleave (schedule : list nat) (ts : list Thread) (w : World)
  : list Thread * World :=
  match schedule with
  | [] => (ts, w)
  | i :: rest =>
      match ts !! i with
      | Some t =>
          let '(t', w') := step_thread t w in
          interleave rest (<[i := t']> ts) w'
      | None => interleave rest ts w
      end
  end.

(** The answer of a request that is done. *)
Definition answer_of (t : Thread) : option Response :=
  match t with Done r => Some r | Running _ _ => None end.

(** ** Vocabulary of the statements *)

(** Whether the [i]-th store call from now on throws. *)
Definition throws (i : nat) (w : World) : bool := default false (faults w !! i).

(** The world once a store call has consumed its entry of the schedule. *)
Definition advance (w : World) : World := snd (pop_fault w).

(** The device ids of the activations, in their order. *)
Definition device_ids (l : License) : list string := map deviceId (deviceActivations l).

(** The document after [lastValidation] of device [d] was set to [t]. *)
Definition touched (d : string) (t : Z) (l : License) : License :=
  set_deviceActivations (touch_activation d t (deviceActivations l)) l.

(** The document after a new activation of device [d] at time [t]. *)
Definition appended (d : string) (t : Z) (fp : option string) (l : License) : License :=
  set_currentActivations (currentActivations l + 1)
    (set_deviceActivations
       (deviceActivations l ++ [mkDeviceActivation d t t (or_else fp "{}")]) l).

(** The world in which [doc] has taken the place of the stored document
    of its key. *)
Definition saved (doc : License) (w : World) : World :=
  mkWorld (<[licenseKey doc := doc]> (licenses w)) (usages w) (faults w).

(** All the ways a request served at time [now] can change the collection. *)
Inductive Effect (now : Z) (req : Request) (m : gmap string License)
  : gmap string License -> Prop :=
| effect_none : Effect now req m m
| effect_touch (key dev : string) (l : License) :
    req = ValidateLicense key dev \/ (exists fp, req = ActivateLicense key dev fp) ->
    by_key m key = Some l -> isActive l = true ->
    is_Some (find_activation dev (deviceActivations l)) ->
    Effect now req m (<[key := touched dev now l]> m)
| effect_append (key dev : string) (fp : option string) (l : License) :
    req = ActivateLicense key dev fp ->
    by_key m key = Some l -> isActive l = true ->
    find_activation dev (deviceActivations l) = None ->
    currentActivations l < maxActivations l ->
    Effect now req m (<[key := appended dev now fp l]> m)
| effect_create (rnd : nat -> byte) (body : CreateBody) (f : NewLicense) :
    req = CreateLicense rnd body ->
    newLicenseKey f = generate_key rnd ->
    m !! newLicenseKey f = None ->
    Effect now req m (<[newLicenseKey f := new_document now f]> m)
| effect_deactivate (key : string) (l : License) :
    req = DeactivateLicense key ->
    by_key m key = Some l ->
    Effect now req m (<[key := set_isActive false l]> m).

(** The fields [create_license] hands to [License.create]. *)
Definition create_fields (setMonth_add : Z -> Z -> option Z) (now : Z) (rnd : nat -> byte)
    (body : CreateBody) : NewLicense :=
  mkNewLicense (generate_key rnd)
    (trim (or_else (bodyCustomerEmail body) ""))
    (trim (or_else (bodyCustomerName body) ""))
    (setMonth_add now (parseInt_or (bodyDurationMonths body) 12))
    (parseInt_or (bodyMaxActivations body) 1)
    (or_else (bodyPlanType body) "single")
    (or_else (bodyNotes body) "").

(** The counter records the number of activations. *)
Definition counted (l : License) : Prop :=
  currentActivations l = Z.of_nat (length (deviceActivations l)).

(** The activations fit the limit. *)
Definition within_limit (l : License) : Prop :=
  Z.of_nat (length (deviceActivations l)) <= maxActivations l.

(** What holds of every stored license: the counter is right, and the
    activations fit a limit that is not negative. *)
Definition license_ok (l : License) : Prop :=
  counted l /\ (0 <= maxActivations l -> within_limit l).

(** The answer of the capacity check. *)
Definition limit_reached (r : Response) : Prop :=
  exists maxA, r = json 200 [("valid", JBool false); ("message", JStr (limit_message maxA))].

(** A license is stored under [key] and its [isActive] is false. *)
Definition revoked (key : string) (m : gmap string License) : Prop :=
  exists l, m !! key = Some l /\ isActive l = false.

(** ** A license of one activation, used in the examples *)

Module Demo.

Definition key : string := "BABYLON-0AFF-009C-B7B7".

(** The license as [create_license] stores it: one slot, none used. *)
Definition issued : License :=
  mkLicense key "a@b.com" "A" 1000 2592001000 true 1 0 []
            (mkMetadata "single" "1.0" "").

(** The same license once device D1 holds its only slot. *)
Definition full : License :=
  mkLicense key "a@b.com" "A" 1000 2592001000 true 1 1
            [mkDeviceActivation "D1" 2000 2000 "{}"]
            (mkMetadata "single" "1.0" "").

(** The same license with two devices on its only slot, and a counter of
    one. *)
Definition overfull : License :=
  mkLicense key "a@b.com" "A" 1000 2592001000 true 1 1
            [mkDeviceActivation "D1" 2000 2000 "{}"; mkDeviceActivation "D2" 2000 2000 "{}"]
            (mkMetadata "single" "1.0" "").

(** A license of two slots, none used, and the same license with two
    devices and a counter of one. *)
Definition roomy : License :=
  mkLicense key "a@b.com" "A" 1000 2592001000 true 2 0 []
            (mkMetadata "single" "1.0" "").

Definition miscounted : License :=
  mkLicense key "a@b.com" "A" 1000 2592001000 true 2 1
            [mkDeviceActivation "D1" 2000 2000 "{}"; mkDeviceActivation "D2" 2000 2000 "{}"]
            (mkMetadata "single" "1.0" "").

(** A license of two slots, of which device D1 holds one. *)
Definition shared : License :=
  mkLicense key "a@b.com" "A" 1000 2592001000 true 2 1
            [mkDeviceActivation "D1" 2000 2000 "{}"]
            (mkMetadata "single" "1.0" "").

(** A store that holds this one license. *)
Definition world (l : License) (fs : list bool) : World :=
  mkWorld {[ key := l ]} [] fs.

(** Months of thirty days, as an instance of the calendar: a [Date] holds
    the times up to 8.64e15 milliseconds on either side of the epoch. *)
Definition setMonth_add (d n : Z) : option Z :=
  let t := d + n * 2592000000 in
  if (Z.abs t <=? 8640000000000000)%Z then Some t else None.

(** The random bytes that give [key]. *)
Definition rnd (i : nat) : byte :=
  match i with
  | 0%nat => x0a | 1%nat => xff | 2%nat => x00 | 3%nat => x9c | _ => xb7
  end.

End Demo.

(** The body that creates [Demo.issued], and requests that fill it. *)
Definition demo_body : CreateBody :=
  mkCreateBody (Some "a@b.com") (Some "A") None
               (Some (mkSafeInteger 1 eq_refl)) (Some (mkSafeInteger 1 eq_refl)) None.

Definition demo_requests : list (Z * Request) :=
  [(1000, CreateLicense Demo.rnd demo_body);
   (2000, ActivateLicense Demo.key "D1" None);
   (2500, ActivateLicense Demo.key "D2" None)].

(** A field of a create-license body is blank: it is absent, or it holds
    white space characters only, the empty string being the case of
    none. *)
Fixpoint only_space (s : string) : bool :=
  match s with
  | String c1 r1 =>
      if is_space c1 then only_space r1
      else
        match r1 with
        | String c2 r2 =>
            if is_space2 c1 c2 then only_space r2
            else
              match r2 with
              | String c3 r3 => if is_space3 c1 c2 c3 then only_space r3 else false
              | EmptyString => false
              end
        | EmptyString => false
        end
  | EmptyString => true
  end.

Definition blank (x : option string) : bool :=
  match x with
  | Some s => only_space s
  | None => true
  end.

(** An answer that refuses a create-license request for its fields: the
    400 answer of the handler's own check, or the 500 answer that carries
    the message of the [ValidationError] of [License.create]. *)
Definition validation_failure (r : Response) : Prop :=
  r = json 400 [("success", JBool false);
                ("error", JStr "Customer email and name are required")] \/
  exists messages, messages <> [] /\
    r = json 500 [("success", JBool false);
                  ("error", JStr (err_message (ValidationError messages)))].

(** A request body whose email is three spaces, and one whose name is a
    no-break space (U+00A0, the bytes C2 A0). *)
Definition blank_email_body : CreateBody :=
  mkCreateBody (Some "   ") (Some "Ada") None None None None.

Definition blank_name_body : CreateBody :=
  mkCreateBody (Some "ada@x.org") (Some (String "194"%char (String "160"%char EmptyString)))
               None None None None.

(** ** The key pattern of the specification *)

(** A character of [[0-9A-F]]. *)
Definition is_upper_hex (c : ascii) : bool :=
  let n := nat_of_ascii c in
  ((48 <=? n)%nat && (n <=? 57)%nat) || ((65 <=? n)%nat && (n <=? 70)%nat).

(** [[0-9A-F]{n}] at the head of [s]: what follows it. *)
Fixpoint hex_group (n : nat) (s : string) : option string :=
  match n with
  | O => Some s
  | S n' =>
      match s with
      | String c rest => if is_upper_hex c then hex_group n' rest else None
      | EmptyString => None
      end
  end.

(** A dash at the head of [s]: what follows it. *)
Definition dash (s : string) : option string :=
  match s with
  | String c rest => if Ascii.eqb c "-" then Some rest else None
  | EmptyString => None
  end.

(** The prefix [p] at the head of [s]: what follows it. *)
Fixpoint strip_prefix (p s : string) : option string :=
  match p with
  | EmptyString => Some s
  | String c p' =>
      match s with
      | String d s' => if Ascii.eqb c d then strip_prefix p' s' else None
      | EmptyString => None
      end
  end.

(** The pattern of the specification,
    [PREFIX-[0-9A-F]{4}-[0-9A-F]{4}-[0-9A-F]{4}], on the whole string. *)
Definition matches_key_pattern (prefix s : string) : bool :=
  let after (o : option string) (f : string -> option string) :=
    match o with Some rest => f rest | None => None end in
  let g1 := after (after (strip_prefix prefix s) dash) (hex_group 4) in
  let g2 := after (after g1 dash) (hex_group 4) in
  let g3 := after (after g2 dash) (hex_group 4) in
  match g3 with
  | Some EmptyString => true
  | _ => false
  end.

(** The group of the [i]-th turn of the loop: two random bytes in hex. *)
Definition key_group (rnd : nat -> byte) (i : nat) : string :=
  toUpperCase (toString_hex [rnd (2 * i)%nat; rnd (2 * i + 1)%nat]).

(** ** Vocabulary of the further properties *)

(** What of an activation is set once: its device, its date and the
    fingerprint stored with it. *)
Definition set_once (a : DeviceActivation) : string * Z * string :=
  (deviceId a, activationDate a, deviceInfo a).

(** License [l'] is license [l] at a later time: the fields given at
    creation are the same, the activations of [l] are the first ones of
    [l'] in the same order, and [isActive] has not turned from false to
    true. *)
Definition later_state (l l' : License) : Prop :=
  licenseKey l' = licenseKey l /\ customerEmail l' = customerEmail l /\
  customerName l' = customerName l /\ purchaseDate l' = purchaseDate l /\
  expiryDate l' = expiryDate l /\ maxActivations l' = maxActivations l /\
  metadata l' = metadata l /\
  map set_once (deviceActivations l) `prefix_of` map set_once (deviceActivations l') /\
  (isActive l' = true -> isActive l = true).

(** What create-license guarantees of a stored license. *)
Definition well_issued (key : string) (l : License) : Prop :=
  licenseKey l = key /\
  customerEmail l <> "" /\ trim (customerEmail l) = customerEmail l /\
  customerName l <> "" /\ trim (customerName l) = customerName l /\
  maxActivations l <> 0 /\
  version (metadata l) = "1.0" /\ planType (metadata l) <> "".

(** A body that asks for a negative number of activations, and the
    license create-license stores for it. *)
Definition negative_body : CreateBody :=
  mkCreateBody (Some "a@b.com") (Some "A") None None
               (Some (mkSafeInteger (-1) eq_refl)) None.

Definition negative_license : License :=
  mkLicense Demo.key "a@b.com" "A" 1000 31104001000 true (-1) 0 []
            (mkMetadata "single" "1.0" "").

(** In world [w'] the license of [key] holds activation [a] of device [dev]
    with [lastValidation] set to [now], and the activations of the other
    devices of [l] as they are in [l]. *)
Definition validation_recorded (key dev : string) (now : Z) (a : DeviceActivation)
    (l : License) (w' : World) : Prop :=
  exists l', by_key (licenses w') key = Some l' /\
    find_activation dev (deviceActivations l') = Some (set_lastValidation now a) /\
    forall d, d <> dev ->
      find_activation d (deviceActivations l') = find_activation d (deviceActivations l).

(** ** The admin middleware and the admin page *)

(** What a middleware does: it answers, or it calls [next()]. *)
Inductive Gate :=
| Next
| Answered (r : Response).

(** [s.startsWith(p)]. *)
Fixpoint startsWith (s p : string) {struct p} : bool :=
  match p with
  | EmptyString => true
  | String c p' =>
      match s with
      | String d s' => Ascii.eqb d c && startsWith s' p'
      | EmptyString => false
      end
  end.

(** [s.substring(n)]: [s] without its first [n] characters. *)
Fixpoint substring_from (n : nat) (s : string) : string :=
  match n with
  | O => s
  | S n' =>
      match s with
      | String _ s' => substring_from n' s'
      | EmptyString => EmptyString
      end
  end.

(** [authenticateAdmin] of the first copy of the server: the header has to
    be the string [`Bearer ${ADMIN_TOKEN}`]. *)
Definition authenticateAdmin_exact (ADMIN_TOKEN : string) (authHeader : option string)
  : Gate :=
  if negb (truthy authHeader) ||
     negb (String.eqb (or_else authHeader "") ("Bearer " +:+ ADMIN_TOKEN))
  then Answered (json 401 [("error", JStr "Unauthorized")])
  else Next.

(** [authenticateAdmin] of the later copy: the prefix is tested, then what
    follows its seven characters is compared with the token. *)
Definition authenticateAdmin (ADMIN_TOKEN : string) (authHeader : option string) : Gate :=
  if negb (truthy authHeader) || negb (startsWith (or_else authHeader "") "Bearer ")
  then Answered (json 401 [("error", JStr "Unauthorized - No token provided")])
  else
    let token := substring_from 7 (or_else authHeader "") in
    if negb (String.eqb token ADMIN_TOKEN)
    then Answered (json 401 [("error", JStr "Unauthorized - Invalid token")])
    else Next.

(** [app.post(path, authenticateAdmin, handler)]: the handler runs when the
    middleware calls [next()]. *)
Definition behind (g : Gate) (h : Handler) (w : World) : Response * World :=
  match g with
  | Next => run_handler h w
  | Answered r => (r, w)
  end.

(** What [createLicense()] of the admin page does with the values of the
    two inputs of its form: it shows a message, or it posts a body with an
    [Authorization] header. *)
Inductive PageAction :=
| ShowResult (message : string)
| Post (authorization : string) (body : CreateBody).

(** A character that reaches the script and the request as it is: the
    route of the page writes the token of the server between single quotes
    into the text of the script, where a quote, a backslash or a line break
    is read as part of the literal's syntax and [<] may end the script
    element; and [fetch] strips white space at the ends of a header. These
    are the visible ASCII characters other than the quote, [<] and the
    backslash. *)
Definition plain_char (c : ascii) : bool :=
  let n := nat_of_ascii c in
  ((33 <=? n) && (n <=? 126) && negb (n =? 39) && negb (n =? 60) && negb (n =? 92))%nat.

Fixpoint plain (s : string) : bool :=
  match s with
  | String c rest => plain_char c && plain rest
  | EmptyString => true
  end.

(** The constant [ADMIN_TOKEN] of the script, from
    [const ADMIN_TOKEN = '${adminToken}';]: the token of the server when
    its characters are plain. What the script reads for any other token is
    not described here. *)
Definition script_token (adminToken : string) : option string :=
  if plain adminToken then Some adminToken else None.

(** [createLicense()] of the script of the later admin page, where
    [ADMIN_TOKEN] is the constant of the script. *)
Definition page_createLicense (ADMIN_TOKEN : string) (nameInput emailInput : string)
  : PageAction :=
  let customerName := trim nameInput in
  let customerEmail := trim emailInput in
  if String.eqb customerName "" || String.eqb customerEmail "" then
    ShowResult "Please fill in all fields"
  else if String.eqb ADMIN_TOKEN "" then
    ShowResult "Admin token not configured on server"
  else
    Post ("Bearer " +:+ ADMIN_TOKEN)
         (mkCreateBody (Some customerEmail) (Some customerName) None None None None).

(** The page as the server with token [adminToken] sends it. *)
Definition admin_page (adminToken nameInput emailInput : string) : option PageAction :=
  match script_token adminToken with
  | Some ADMIN_TOKEN => Some (page_createLicense ADMIN_TOKEN nameInput emailInput)
  | None => None
  end.

(** [x = d] as a destructuring default: [d] when the field is absent. *)
Definition default_to (x : option SafeInteger) (d : Z) : Z :=
  match x with
  | Some n => integer n
  | None => d
  end.

(** [POST /api/admin/create-license] of the first copy of the server: the
    two names are stored as they were sent, [durationMonths] and
    [maxActivations] are used as numbers as they were sent, and every thrown
    error is answered with status 500. *)
Definition create_license_first (setMonth_add : Z -> Z -> option Z) (now : Z)
    (rnd : nat -> byte) (body : CreateBody) : Handler :=
  mkHandler
    (if negb (truthy (bodyCustomerEmail body)) || negb (truthy (bodyCustomerName body)) then
       mret (json 400 [("error", JStr "Customer email and name are required")])
     else
       let key := generate_key rnd in
       let expiry := setMonth_add now (default_to (bodyDurationMonths body) 12) in
       license ← await (LicenseCreate now
                    (mkNewLicense key
                       (or_else (bodyCustomerEmail body) "")
                       (or_else (bodyCustomerName body) "")
                       expiry
                       (default_to (bodyMaxActivations body) 1)
                       (or_else (bodyPlanType body) "single")
                       (or_else (bodyNotes body) "")));
       mret (json 200 [("success", JBool true);
                       ("license", JObj [("licenseKey", JStr (licenseKey license));
                                         ("customerName", JStr (customerName license));
                                         ("customerEmail", JStr (customerEmail license));
                                         ("expiryDate", JDate (expiryDate license));
                                         ("maxActivations", JNum (maxActivations license));
                                         ("planType", JStr (planType (metadata license)))])]))
    (fun error => json 500 [("success", JBool false);
                            ("error", JStr (err_message error))]).

(** The fields [create_license_first] hands to [License.create]. *)
Definition create_fields_first (setMonth_add : Z -> Z -> option Z) (now : Z) (rnd : nat -> byte)
    (body : CreateBody) : NewLicense :=
  mkNewLicense (generate_key rnd)
    (or_else (bodyCustomerEmail body) "")
    (or_else (bodyCustomerName body) "")
    (setMonth_add now (default_to (bodyDurationMonths body) 12))
    (default_to (bodyMaxActivations body) 1)
    (or_else (bodyPlanType body) "single")
    (or_else (bodyNotes body) "").

(** ** Usage statistics *)

(** A document of the [$group] stage of usage-stats, without its [_id]:
    [{ $sum: 1 }], [{ $max: '$timestamp' }], [{ $addToSet: '$deviceId' }] and
    [{ $push: { action, timestamp } }]. *)
Record UsageGroup := mkUsageGroup {
  totalActions : Z;
  lastActivity : Z;
  uniqueDevices : gset string;
  actions : list (string * Z)
}.

(** One more event in the group of its license key. The groups are kept
    in a map from [_id], the order of the documents of a [$group] stage
    being left open by the store. *)
Definition group_event (m : gmap string UsageGroup) (u : Usage) : gmap string UsageGroup :=
  <[usageLicenseKey u :=
      match m !! usageLicenseKey u with
      | None =>
          mkUsageGroup 1 (usageTimestamp u) {[usageDeviceId u]}
                       [(usageAction u, usageTimestamp u)]
      | Some g =>
          mkUsageGroup (totalActions g + 1)
                       (Z.max (lastActivity g) (usageTimestamp u))
                       ({[usageDeviceId u]} ∪ uniqueDevices g)
                       (actions g ++ [(usageAction u, usageTimestamp u)])
      end]> m.

(** The [$group] stage over the events in their stored order. *)
Definition group_usage (us : list Usage) : gmap string UsageGroup :=
  foldl group_event ∅ us.

(** The [$lookup] stage: [licenseInfo] holds the licenses whose
    [licenseKey] is the [_id] of the group. *)
Definition licenseInfo (ls : gmap string License) (key : string) : list License :=
  match by_key ls key with
  | Some l => [l]
  | None => []
  end.

(** [Usage.aggregate([...])] of usage-stats. *)
Definition aggregate_usage (w : World) : gmap string (UsageGroup * list License) :=
  map_imap (fun key g => Some (g, licenseInfo (licenses w) key)) (group_usage (usages w)).

(** The answer of usage-stats: the array of groups, or status 500 with
    [error.message]. *)
Inductive StatsAnswer :=
| StatsOk (groups : gmap string (UsageGroup * list License))
| StatsError (code : Z) (error : string).

(** [GET /api/admin/usage-stats], behind [authenticateAdmin]. *)
Definition usage_stats (w : World) : StatsAnswer * World :=
  let '(f, w1) := pop_fault w in
  if f then (StatsError 500 (err_message StoreError), w1)
  else (StatsOk (aggregate_usage w1), w1).

(** The events recorded for a license key, in their order. *)
Definition events_of (key : string) (us : list Usage) : list Usage :=
  filter (fun u => usageLicenseKey u = key) us.

(** Group [g] sums up the events [evs], of which there is at least one. *)
Definition summarises (g : UsageGroup) (evs : list Usage) : Prop :=
  evs <> [] /\
  totalActions g = Z.of_nat (length evs) /\
  actions g = map (fun u => (usageAction u, usageTimestamp u)) evs /\
  (forall d, d ∈ uniqueDevices g <-> d ∈ map usageDeviceId evs) /\
  (forall t, t ∈ map usageTimestamp evs -> t <= lastActivity g) /\
  lastActivity g ∈ map usageTimestamp evs.

(** ** Bodies that record no usage *)

(** The usage event a store call records, if it is [Usage.create]. *)
Definition op_event {R : Type} (op : Op R) : option Usage :=
  match op with
  | UsageCreate now key device action meta => Some (mkUsage key device action meta now)
  | _ => None
  end.

(** No store call of the body is [Usage.create]. *)
Inductive Silent {A : Type} : Prog A -> Prop :=
| silent_ret (a : A) : Silent (Ret a)
| silent_call {R : Type} (op : Op R) (k : R -> Prog A) :
    op_event op = None -> (forall r, Silent (k r)) -> Silent (Call op k).

(** ** Reading a license key back *)

(** The value of a digit of [[0-9A-F]]. *)
Definition hex_value (c : ascii) : option N :=
  let n := N_of_ascii c in
  if ((48 <=? n) && (n <=? 57))%N then Some (n - 48)%N
  else if ((65 <=? n) && (n <=? 70))%N then Some (n - 55)%N
  else None.

(** The byte written by two digits, and what follows them. *)
Definition hex_pair (s : string) : option (byte * string) :=
  match s with
  | String hi (String lo rest) =>
      match hex_value hi, hex_value lo with
      | Some h, Some l =>
          match Byte.of_N (16 * h + l) with
          | Some b => Some (b, rest)
          | None => None
          end
      | _, _ => None
      end
  | _ => None
  end.

(** The two bytes of a group of four digits after a dash. *)
Definition key_group_bytes (s : string) : option (list byte * string) :=
  match dash s with
  | Some r =>
      match hex_pair r with
      | Some (b0, r1) =>
          match hex_pair r1 with
          | Some (b1, r2) => Some ([b0; b1], r2)
          | None => None
          end
      | None => None
      end
  | None => None
  end.

(** The six bytes a license key was made of. *)
Definition key_bytes (key : string) : option (list byte) :=
  match strip_prefix "BABYLON" key with
  | Some r =>
      match key_group_bytes r with
      | Some (g0, r0) =>
          match key_group_bytes r0 with
          | Some (g1, r1) =>
              match key_group_bytes r1 with
              | Some (g2, EmptyString) => Some (g0 ++ g1 ++ g2)%list
              | _ => None
              end
          | None => None
          end
      | None => None
      end
  | None => None
  end.

(** ** Requests on one license *)

(** The license key a validate, activate or deactivate request names. *)
Definition request_key (req : Request) : option string :=
  match req with
  | ValidateLicense key _ => Some key
  | ActivateLicense key _ _ => Some key
  | DeactivateLicense key => Some key
  | _ => None
  end.

(** Every store call of the body concerns the license of [key]: it looks
    that key up, or saves a document that carries it. What follows a
    lookup is considered for the documents a lookup of [key] can return. *)
Inductive Local (key : string) {A : Type} : Prog A -> Prop :=
| local_ret (a : A) : Local key (Ret a)
| local_find (active : bool) (k : option License -> Prog A) :
    (forall r, (forall l, r = Some l -> licenseKey l = key) -> Local key (k r)) ->
    Local key (Call (LicenseFindOne key active) k)
| local_save (doc : Document) (k : unit -> Prog A) :
    licenseKey (held doc) = key -> (forall r, Local key (k r)) ->
    Local key (Call (LicenseSave doc) k)
| local_update (active : bool) (k : option License -> Prog A) :
    (forall r, Local key (k r)) ->
    Local key (Call (LicenseFindOneAndUpdate key active) k).

(** A request in flight whose remaining store calls concern [key] only. *)
Definition thread_local (key : string) (t : Thread) : Prop :=
  match t with
  | Done _ => True
  | Running p _ => Local key p
  end.

(** The answer and the store a request in flight ends with when it takes
    all the turns from now on. *)
Definition finish (t : Thread) (w : World) : Response * World :=
  match t with
  | Done r => (r, w)
  | Running p on_error =>
      match run p w with
      | (inl e, w') => (on_error e, w')
      | (inr r, w') => (r, w')
      end
  end.

(** * Properties *)

(** ** The fault schedule *)

Lemma pop_fault_eq (w : World) : pop_fault w = (throws 0 w, advance w).
Proof.
  unfold throws, advance, pop_fault. destruct (faults w); reflexivity.
Qed.

Lemma advance_licenses (w : World) : licenses (advance w) = licenses w.
Proof. unfold advance, pop_fault. destruct (faults w); reflexivity. Qed.

Lemma advance_usages (w : World) : usages (advance w) = usages w.
Proof. unfold advance, pop_fault. destruct (faults w); reflexivity. Qed.

Lemma throws_advance (i : nat) (w : World) : throws i (advance w) = throws (S i) w.
Proof.
  unfold throws, advance, pop_fault. destruct (faults w) as [|f fs] eqn:E; simpl.
  - rewrite E. destruct i; reflexivity.
  - reflexivity.
Qed.

Lemma exec_calm {R : Type} (op : Op R) (w : World) :
  rejected op = None -> throws 0 w = false -> exec op w = store_call op (advance w).
Proof. intros Hv H. unfold exec. rewrite Hv, pop_fault_eq, H. reflexivity. Qed.

Lemma exec_throws {R : Type} (op : Op R) (w : World) :
  rejected op = None -> throws 0 w = true -> exec op w = (inl StoreError, advance w).
Proof. intros Hv H. unfold exec. rewrite Hv, pop_fault_eq, H. reflexivity. Qed.

Lemma exec_rejected {R : Type} (op : Op R) (w : World) (e : Err) :
  rejected op = Some e -> exec op w = (inl e, w).
Proof. intros Hv. unfold exec. rewrite Hv. reflexivity. Qed.

(** ** Lists of activations *)

Lemma touch_activation_length (d : string) (t : Z) (ds : list DeviceActivation) :
  length (touch_activation d t ds) = length ds.
Proof.
  induction ds as [|a ds IH]; simpl; [reflexivity|].
  destruct (String.eqb (deviceId a) d); simpl; congruence.
Qed.

Lemma touch_activation_ids (d : string) (t : Z) (ds : list DeviceActivation) :
  map deviceId (touch_activation d t ds) = map deviceId ds.
Proof.
  induction ds as [|a ds IH]; simpl; [reflexivity|].
  destruct (String.eqb (deviceId a) d); simpl; congruence.
Qed.

Lemma find_activation_Some_iff (d : string) (ds : list DeviceActivation) :
  is_Some (find_activation d ds) <-> d ∈ map deviceId ds.
Proof.
  unfold find_activation. induction ds as [|a ds IH]; simpl.
  - split; [intros [x Hx]; discriminate | intros H; inversion H].
  - destruct (String.eqb (deviceId a) d) eqn:E.
    + apply String.eqb_eq in E. subst d. split; [intros _; left | intros _; eauto].
    + apply String.eqb_neq in E. rewrite IH. split.
      * intros H. right. exact H.
      * intros H. inversion H; subst; [congruence | assumption].
Qed.

Lemma find_activation_None_iff (d : string) (ds : list DeviceActivation) :
  find_activation d ds = None <-> d ∉ map deviceId ds.
Proof.
  rewrite <- find_activation_Some_iff. destruct (find_activation d ds); split.
  - intros H; discriminate.
  - intros H. exfalso. apply H. eauto.
  - intros _ [x Hx]. discriminate.
  - reflexivity.
Qed.

Lemma by_key_Some (m : gmap string License) (key : string) (l : License) :
  by_key m key = Some l <-> m !! key = Some l /\ licenseKey l = key.
Proof.
  unfold by_key. destruct (m !! key) as [l0|]; [|split; [discriminate | intros [H _]; discriminate]].
  destruct (String.eqb (licenseKey l0) key) eqn:E.
  - apply String.eqb_eq in E. split.
    + intros H. inversion H; subst. split; reflexivity.
    + intros [H _]. exact H.
  - apply String.eqb_neq in E. split; [discriminate|].
    intros [H1 H2]. inversion H1; subst. contradiction.
Qed.

Lemma apply_change_key (l : License) (c : Change) :
  licenseKey (apply_change l c) = licenseKey l.
Proof. destruct c; reflexivity. Qed.

Lemma apply_changes_key (cs : list Change) (l : License) :
  licenseKey (apply_changes cs l) = licenseKey l.
Proof.
  unfold apply_changes. revert l. induction cs as [|c cs IH]; intros l; simpl; [reflexivity|].
  rewrite IH. apply apply_change_key.
Qed.

Lemma touch_at_index (d : string) (t : Z) (ds : list DeviceActivation) (i : nat) :
  activation_index d ds = Some i ->
  alter (set_lastValidation t) i ds = touch_activation d t ds.
Proof.
  revert i. induction ds as [|a ds IH]; intros i; simpl; [discriminate|].
  destruct (String.eqb (deviceId a) d).
  - intros H. inversion H. reflexivity.
  - destruct (activation_index d ds) as [j|]; [|discriminate].
    intros H. inversion H. simpl. f_equal. apply IH. reflexivity.
Qed.

Lemma activation_index_found (d : string) (ds : list DeviceActivation) :
  is_Some (find_activation d ds) -> is_Some (activation_index d ds).
Proof.
  unfold find_activation. induction ds as [|a ds IH]; simpl.
  - intros [x Hx]. discriminate.
  - destruct (String.eqb (deviceId a) d); [eauto|].
    intros H. destruct (IH H) as [i ->]. simpl. eauto.
Qed.

(** The changes a handler records, applied to the document it loaded, give
    the document as the handler holds it. *)
(** Setting the time an activation already has changes nothing. *)
Lemma touch_same_time (d : string) (t : Z) (ds : list DeviceActivation)
    (a : DeviceActivation) :
  find_activation d ds = Some a -> lastValidation a = t -> touch_activation d t ds = ds.
Proof.
  unfold find_activation. induction ds as [|b ds IH]; simpl; [discriminate|].
  destruct (String.eqb (deviceId b) d).
  - intros H E. inversion H; subst b. destruct a. simpl in *. subst. reflexivity.
  - intros H E. rewrite (IH H E). reflexivity.
Qed.

Lemma set_deviceActivations_same (l : License) :
  set_deviceActivations (deviceActivations l) l = l.
Proof. destruct l. reflexivity. Qed.

Lemma assign_lastValidation_loaded (d : string) (t : Z) (l : License) :
  is_Some (find_activation d (deviceActivations l)) ->
  held (assign_lastValidation d t (loaded l)) = touched d t l /\
  apply_changes (changes (assign_lastValidation d t (loaded l))) l = touched d t l /\
  save_matches (assign_lastValidation d t (loaded l)) l = true.
Proof.
  intros H. destruct (activation_index_found d _ H) as [i Hi]. destruct H as [a Ha].
  unfold assign_lastValidation, loaded. cbn [held changes]. rewrite Hi, Ha.
  unfold save_matches. cbn [held changes loaded_version app]. rewrite Nat.eqb_refl, orb_true_r.
  split; [reflexivity|]. split; [|reflexivity].
  destruct (Z.eqb_spec (lastValidation a) t) as [E|_].
  - unfold apply_changes, touched. simpl.
    rewrite (touch_same_time d t _ a Ha E). symmetry. apply set_deviceActivations_same.
  - unfold apply_changes, touched. simpl. rewrite (touch_at_index d t _ i Hi). reflexivity.
Qed.

Lemma push_and_count_loaded (d : string) (t : Z) (fp : option string) (l : License) :
  let doc := increment_currentActivations
               (push_activation (mkDeviceActivation d t t (or_else fp "{}")) (loaded l)) in
  held doc = appended d t fp l /\ apply_changes (changes doc) l = appended d t fp l /\
  save_matches doc l = true.
Proof. repeat split; reflexivity. Qed.

(** ** What each route does, case by case *)

Lemma find_one_active (w : World) (key : string) (l : License) :
  by_key (licenses w) key = Some l -> isActive l = true -> throws 0 w = false ->
  exec (LicenseFindOne key true) w = (inr (Some l), advance w).
Proof.
  intros Hk Ha Hf. rewrite exec_calm by first [reflexivity | exact Hf]. simpl.
  rewrite advance_licenses, Hk, Ha. reflexivity.
Qed.

Lemma find_one_none (w : World) (key : string) :
  (forall l, by_key (licenses w) key = Some l -> isActive l = false) ->
  throws 0 w = false ->
  exec (LicenseFindOne key true) w = (inr None, advance w).
Proof.
  intros Hk Hf. rewrite exec_calm by first [reflexivity | exact Hf]. simpl. rewrite advance_licenses.
  destruct (by_key (licenses w) key) as [l|] eqn:E; [|reflexivity].
  rewrite (Hk l eq_refl). reflexivity.
Qed.

Lemma save_after_read (doc : Document) (l : License) (w : World) :
  by_key (licenses w) (licenseKey (held doc)) = Some l ->
  save_matches doc l = true ->
  exec (LicenseSave doc) (advance w) =
    if throws 1 w then (inl StoreError, advance (advance w))
    else (inr tt, saved (apply_changes (changes doc) l) (advance (advance w))).
Proof.
  intros Hk Hv. apply by_key_Some in Hk as [Hk Hkey].
  destruct (throws 1 w) eqn:E; rewrite <- throws_advance in E.
  - apply exec_throws; [reflexivity | exact E].
  - rewrite exec_calm by first [reflexivity | exact E]. unfold saved. simpl.
    rewrite !advance_licenses, Hk, Hv, apply_changes_key, Hkey. reflexivity.
Qed.

Ltac enter_route :=
  unfold run_handler;
  cbn -[exec touch_activation find_activation limit_message assign_lastValidation
        push_activation increment_currentActivations loaded].

Lemma activate_existing (now : Z) (key dev : string) (fp : option string)
    (w : World) (l : License) :
  by_key (licenses w) key = Some l -> isActive l = true ->
  (now >? expiryDate l) = false ->
  is_Some (find_activation dev (deviceActivations l)) ->
  throws 0 w = false ->
  run_handler (activate_license now key dev fp) w =
    if throws 1 w then
      (json 500 [("valid", JBool false); ("message", JStr "Server error during activation")],
       advance (advance w))
    else
      (json 200 [("valid", JBool true);
                 ("message", JStr "License already activated on this device");
                 ("expiry_date", JDate (expiryDate l));
                 ("customer_name", JStr (customerName l))],
       saved (touched dev now l) (advance (advance w))).
Proof.
  intros Hk Ha He Hd Hf. enter_route.
  destruct (assign_lastValidation_loaded dev now l Hd) as (Ef & Ec & Ev).
  destruct Hd as [a Hd].
  rewrite (find_one_active w key l Hk Ha Hf), He, Hd.
  cbn -[exec assign_lastValidation loaded].
  rewrite (save_after_read _ l w), Ec, Ef.
  - destruct (throws 1 w); reflexivity.
  - rewrite Ef. apply by_key_Some in Hk as Hk'. destruct Hk' as [_ Hkey].
    cbn [touched licenseKey set_deviceActivations]. rewrite Hkey. exact Hk.
  - exact Ev.
Qed.

Lemma activate_fresh (now : Z) (key dev : string) (fp : option string)
    (w : World) (l : License) :
  by_key (licenses w) key = Some l -> isActive l = true ->
  (now >? expiryDate l) = false ->
  find_activation dev (deviceActivations l) = None ->
  throws 0 w = false ->
  run_handler (activate_license now key dev fp) w =
    if currentActivations l >=? maxActivations l then
      (json 200 [("valid", JBool false);
                 ("message", JStr (limit_message (maxActivations l)))],
       advance w)
    else if throws 1 w then
      (json 500 [("valid", JBool false); ("message", JStr "Server error during activation")],
       advance (advance w))
    else
      (json 200 [("valid", JBool true);
                 ("message", JStr "License activated successfully!");
                 ("expiry_date", JDate (expiryDate l));
                 ("customer_name", JStr (customerName l));
                 ("plan_type", JStr (planType (metadata l)));
                 ("activations_used", JNum (currentActivations l + 1));
                 ("activations_total", JNum (maxActivations l))],
       saved (appended dev now fp l) (advance (advance w))).
Proof.
  intros Hk Ha He Hd Hf. enter_route.
  rewrite (find_one_active w key l Hk Ha Hf), He, Hd.
  destruct (currentActivations l >=? maxActivations l); [reflexivity|].
  destruct (push_and_count_loaded dev now fp l) as (Ef & Ec & Ev).
  cbn -[exec limit_message push_activation increment_currentActivations loaded].
  rewrite (save_after_read _ l w), Ec, Ef.
  - destruct (throws 1 w); reflexivity.
  - rewrite Ef. apply by_key_Some in Hk as Hk'. destruct Hk' as [_ Hkey].
    cbn [appended licenseKey set_deviceActivations set_currentActivations].
    rewrite Hkey. exact Hk.
  - exact Ev.
Qed.

Lemma activate_expired (now : Z) (key dev : string) (fp : option string)
    (w : World) (l : License) :
  by_key (licenses w) key = Some l -> isActive l = true ->
  (now >? expiryDate l) = true -> throws 0 w = false ->
  run_handler (activate_license now key dev fp) w =
    (json 200 [("valid", JBool false);
               ("message", JStr "License has expired. Please contact support.")],
     advance w).
Proof.
  intros Hk Ha He Hf. enter_route.
  rewrite (find_one_active w key l Hk Ha Hf), He. reflexivity.
Qed.

Lemma activate_not_found (now : Z) (key dev : string) (fp : option string) (w : World) :
  (forall l, by_key (licenses w) key = Some l -> isActive l = false) ->
  throws 0 w = false ->
  run_handler (activate_license now key dev fp) w =
    (json 200 [("valid", JBool false); ("message", JStr "Invalid license key")],
     advance w).
Proof.
  intros Hk Hf. enter_route. rewrite (find_one_none w key Hk Hf). reflexivity.
Qed.

Lemma activate_thrown (now : Z) (key dev : string) (fp : option string) (w : World) :
  throws 0 w = true ->
  run_handler (activate_license now key dev fp) w =
    (json 500 [("valid", JBool false); ("message", JStr "Server error during activation")],
     advance w).
Proof.
  intros Hf. enter_route. rewrite exec_throws by first [reflexivity | exact Hf]. reflexivity.
Qed.

Lemma validate_existing (now : Z) (key dev : string) (w : World) (l : License) :
  by_key (licenses w) key = Some l -> isActive l = true ->
  (now >? expiryDate l) = false ->
  is_Some (find_activation dev (deviceActivations l)) ->
  throws 0 w = false ->
  run_handler (validate_license now key dev) w =
    if throws 1 w then
      (json 500 [("valid", JBool false); ("message", JStr "Server error during validation")],
       advance (advance w))
    else
      (json 200 [("valid", JBool true);
                 ("message", JStr "License is valid");
                 ("expiry_date", JDate (expiryDate l));
                 ("customer_name", JStr (customerName l));
                 ("plan_type", JStr (planType (metadata l)))],
       saved (touched dev now l) (advance (advance w))).
Proof.
  intros Hk Ha He Hd Hf. enter_route.
  destruct (assign_lastValidation_loaded dev now l Hd) as (Ef & Ec & Ev).
  destruct Hd as [a Hd].
  rewrite (find_one_active w key l Hk Ha Hf), He, Hd.
  cbn -[exec assign_lastValidation loaded].
  rewrite (save_after_read _ l w), Ec, Ef.
  - destruct (throws 1 w); reflexivity.
  - rewrite Ef. apply by_key_Some in Hk as Hk'. destruct Hk' as [_ Hkey].
    cbn [touched licenseKey set_deviceActivations]. rewrite Hkey. exact Hk.
  - exact Ev.
Qed.

Lemma validate_unsaved (now : Z) (key dev : string) (w : World) (l : License) :
  by_key (licenses w) key = Some l -> isActive l = true ->
  (now >? expiryDate l) = true \/ find_activation dev (deviceActivations l) = None ->
  throws 0 w = false ->
  snd (run_handler (validate_license now key dev) w) = advance w.
Proof.
  intros Hk Ha Hc Hf. enter_route. rewrite (find_one_active w key l Hk Ha Hf).
  destruct (now >? expiryDate l) eqn:He; [reflexivity|].
  destruct Hc as [Hc|Hc]; [discriminate|]. rewrite Hc. reflexivity.
Qed.

Lemma validate_not_found (now : Z) (key dev : string) (w : World) :
  (forall l, by_key (licenses w) key = Some l -> isActive l = false) ->
  throws 0 w = false ->
  run_handler (validate_license now key dev) w =
    (json 200 [("valid", JBool false); ("message", JStr "License not found or inactive")],
     advance w).
Proof.
  intros Hk Hf. enter_route. rewrite (find_one_none w key Hk Hf). reflexivity.
Qed.

Lemma validate_thrown (now : Z) (key dev : string) (w : World) :
  throws 0 w = true ->
  run_handler (validate_license now key dev) w =
    (json 500 [("valid", JBool false); ("message", JStr "Server error during validation")],
     advance w).
Proof.
  intros Hf. enter_route. rewrite exec_throws by first [reflexivity | exact Hf]. reflexivity.
Qed.

(** ** The effect of one request on the license collection *)

Lemma not_active_not_found (m : gmap string License) (key : string) (l0 : License) :
  by_key m key = Some l0 -> isActive l0 = false ->
  forall l, by_key m key = Some l -> isActive l = false.
Proof. intros H0 Ha l H. congruence. Qed.

Lemma absent_not_found (m : gmap string License) (key : string) :
  by_key m key = None -> forall l, by_key m key = Some l -> isActive l = false.
Proof. intros H0 l H. congruence. Qed.

Lemma validate_effect (now : Z) (key dev : string) (w : World) :
  Effect now (ValidateLicense key dev) (licenses w)
         (licenses (snd (run_handler (validate_license now key dev) w))).
Proof.
  destruct (throws 0 w) eqn:Hf.
  { rewrite validate_thrown by exact Hf. simpl. rewrite advance_licenses. constructor. }
  destruct (by_key (licenses w) key) as [l|] eqn:Hk.
  2:{ rewrite validate_not_found by eauto using absent_not_found.
      simpl. rewrite advance_licenses. constructor. }
  destruct (isActive l) eqn:Ha.
  2:{ rewrite validate_not_found by eauto using not_active_not_found.
      simpl. rewrite advance_licenses. constructor. }
  destruct (now >? expiryDate l) eqn:He.
  { rewrite (validate_unsaved now key dev w l) by auto. rewrite advance_licenses. constructor. }
  destruct (find_activation dev (deviceActivations l)) as [a|] eqn:Hd.
  2:{ rewrite (validate_unsaved now key dev w l) by auto. rewrite advance_licenses. constructor. }
  rewrite (validate_existing now key dev w l) by eauto.
  destruct (throws 1 w); simpl; rewrite !advance_licenses; [constructor|].
  apply by_key_Some in Hk as Hk'. destruct Hk' as [_ ->].
  apply (effect_touch _ _ _ key dev l); eauto.
Qed.

Lemma activate_effect (now : Z) (key dev : string) (fp : option string) (w : World) :
  Effect now (ActivateLicense key dev fp) (licenses w)
         (licenses (snd (run_handler (activate_license now key dev fp) w))).
Proof.
  destruct (throws 0 w) eqn:Hf.
  { rewrite activate_thrown by exact Hf. simpl. rewrite advance_licenses. constructor. }
  destruct (by_key (licenses w) key) as [l|] eqn:Hk.
  2:{ rewrite activate_not_found by eauto using absent_not_found.
      simpl. rewrite advance_licenses. constructor. }
  destruct (isActive l) eqn:Ha.
  2:{ rewrite activate_not_found by eauto using not_active_not_found.
      simpl. rewrite advance_licenses. constructor. }
  destruct (now >? expiryDate l) eqn:He.
  { rewrite (activate_expired now key dev fp w l) by auto.
    simpl. rewrite advance_licenses. constructor. }
  apply by_key_Some in Hk as Hk'. destruct Hk' as [_ Hkey].
  destruct (find_activation dev (deviceActivations l)) as [a|] eqn:Hd.
  - rewrite (activate_existing now key dev fp w l) by eauto.
    destruct (throws 1 w); simpl; rewrite !advance_licenses; [constructor|].
    rewrite Hkey. apply (effect_touch _ _ _ key dev l); eauto.
  - rewrite (activate_fresh now key dev fp w l) by auto.
    destruct (currentActivations l >=? maxActivations l) eqn:Hc.
    { simpl. rewrite advance_licenses. constructor. }
    destruct (throws 1 w); simpl; rewrite !advance_licenses; [constructor|].
    rewrite Hkey. apply (effect_append _ _ _ key dev fp l); auto.
    rewrite Z.geb_leb in Hc. apply Z.leb_gt in Hc. exact Hc.
Qed.

Lemma create_fields_rejected (setMonth_add : Z -> Z -> option Z) (now : Z) (rnd : nat -> byte)
    (body : CreateBody) :
  rejected (LicenseCreate now (create_fields setMonth_add now rnd body)) =
    match validation_messages (create_fields setMonth_add now rnd body) with
    | [] => None
    | messages => Some (ValidationError messages)
    end.
Proof. reflexivity. Qed.

(** The create-license route, case by case. *)
Lemma create_cases (setMonth_add : Z -> Z -> option Z) (now : Z) (rnd : nat -> byte)
    (body : CreateBody) (w : World) :
  run_handler (create_license setMonth_add now rnd body) w =
    let f := create_fields setMonth_add now rnd body in
    if negb (truthy (bodyCustomerEmail body)) || negb (truthy (bodyCustomerName body)) then
      (json 400 [("success", JBool false);
                 ("error", JStr "Customer email and name are required")], w)
    else
      match validation_messages f with
      | _ :: _ =>
          (json 500 [("success", JBool false);
                     ("error", JStr (err_message (ValidationError (validation_messages f))))],
           w)
      | [] =>
          if throws 0 w then
            (json 500 [("success", JBool false);
                       ("error", JStr (err_message StoreError))], advance w)
          else
            match licenses w !! newLicenseKey f with
            | Some _ =>
                (json 400 [("success", JBool false);
                           ("error", JStr "License key already exists. Please try again.")],
                 advance w)
            | None =>
                (json 200 [("success", JBool true);
                           ("license",
                            JObj [("licenseKey", JStr (newLicenseKey f));
                                  ("customerName", JStr (newCustomerName f));
                                  ("customerEmail", JStr (newCustomerEmail f));
                                  ("expiryDate", JDate (default 0 (newExpiryDate f)));
                                  ("maxActivations", JNum (newMaxActivations f));
                                  ("planType", JStr (newPlanType f))])],
                 mkWorld (<[newLicenseKey f := new_document now f]> (licenses w))
                         (usages w) (faults (advance w)))
            end
      end.
Proof.
  cbv zeta. unfold run_handler, create_license. cbn [try_block catch].
  destruct (negb (truthy (bodyCustomerEmail body)) || negb (truthy (bodyCustomerName body))).
  { reflexivity. }
  fold (create_fields setMonth_add now rnd body).
  cbn -[create_fields exec].
  pose proof (create_fields_rejected setMonth_add now rnd body) as Hv.
  destruct (validation_messages (create_fields setMonth_add now rnd body)) as [|p ps] eqn:Hm.
  2:{ rewrite (exec_rejected _ w _ Hv). reflexivity. }
  destruct (throws 0 w) eqn:Hf.
  { rewrite (exec_throws _ w Hv Hf). reflexivity. }
  rewrite (exec_calm _ w Hv Hf). cbn -[create_fields].
  rewrite advance_licenses, advance_usages.
  destruct (licenses w !! newLicenseKey (create_fields setMonth_add now rnd body));
    reflexivity.
Qed.

Lemma create_effect (setMonth_add : Z -> Z -> option Z) (now : Z) (rnd : nat -> byte)
    (body : CreateBody) (w : World) :
  Effect now (CreateLicense rnd body) (licenses w)
         (licenses (snd (run_handler (create_license setMonth_add now rnd body) w))).
Proof.
  rewrite create_cases. cbv zeta.
  destruct (negb (truthy (bodyCustomerEmail body)) || negb (truthy (bodyCustomerName body))).
  { constructor. }
  destruct (validation_messages (create_fields setMonth_add now rnd body)).
  2:{ constructor. }
  destruct (throws 0 w).
  { simpl. rewrite advance_licenses. constructor. }
  destruct (licenses w !! newLicenseKey (create_fields setMonth_add now rnd body)) eqn:Hk.
  { simpl. rewrite advance_licenses. constructor. }
  simpl.
  apply (effect_create _ _ _ rnd body (create_fields setMonth_add now rnd body));
    [reflexivity | reflexivity | exact Hk].
Qed.

Lemma deactivate_effect (now : Z) (key : string) (w : World) :
  Effect now (DeactivateLicense key) (licenses w)
         (licenses (snd (run_handler (deactivate_license key) w))).
Proof.
  enter_route. destruct (throws 0 w) eqn:Hf.
  { rewrite exec_throws by first [reflexivity | exact Hf]. simpl. rewrite advance_licenses. constructor. }
  rewrite exec_calm by first [reflexivity | exact Hf]. simpl. rewrite advance_licenses.
  destruct (by_key (licenses w) key) as [l|] eqn:Hk; simpl; rewrite ?advance_licenses.
  - apply (effect_deactivate _ _ _ key l); auto.
  - constructor.
Qed.

Lemma record_usage_licenses (now : Z) (key dev action : string) (meta : option string)
    (w : World) :
  licenses (snd (run_handler (record_usage now key dev action meta) w)) = licenses w.
Proof.
  enter_route. destruct (throws 0 w) eqn:Hf.
  - rewrite exec_throws by first [reflexivity | exact Hf]. simpl. apply advance_licenses.
  - rewrite exec_calm by first [reflexivity | exact Hf]. simpl. apply advance_licenses.
Qed.

Lemma serve_effect (setMonth_add : Z -> Z -> option Z) (now : Z) (req : Request) (w : World) :
  Effect now req (licenses w) (licenses (snd (serve setMonth_add now req w))).
Proof.
  destruct req; unfold serve, route.
  - apply validate_effect.
  - apply activate_effect.
  - rewrite record_usage_licenses. constructor.
  - apply create_effect.
  - apply deactivate_effect.
Qed.

(** ** Invariants of the license collection *)

Lemma touched_ok (d : string) (t : Z) (l : License) :
  license_ok l -> license_ok (touched d t l).
Proof.
  unfold license_ok, counted, within_limit, touched. simpl.
  rewrite touch_activation_length. auto.
Qed.

Lemma appended_ok (d : string) (t : Z) (fp : option string) (l : License) :
  currentActivations l < maxActivations l ->
  license_ok l -> license_ok (appended d t fp l).
Proof.
  unfold license_ok, counted, within_limit, appended. simpl.
  rewrite length_app. simpl. intros Hlt [Hc Hb]. lia.
Qed.

Lemma new_document_ok (now : Z) (f : NewLicense) : license_ok (new_document now f).
Proof. unfold license_ok, counted, within_limit. simpl. lia. Qed.

Lemma deactivated_ok (l : License) : license_ok l -> license_ok (set_isActive false l).
Proof. unfold license_ok, counted, within_limit. simpl. auto. Qed.

Lemma effect_preserves_ok (now : Z) (req : Request) (m m' : gmap string License) :
  Effect now req m m' ->
  map_Forall (fun _ l => license_ok l) m -> map_Forall (fun _ l => license_ok l) m'.
Proof.
  intros He Hm. destruct He as [| key dev l _ Hk _ _ | key dev fp l _ Hk _ _ Hlt
                                | rnd body f _ _ _ | key l _ Hk ].
  - exact Hm.
  - apply by_key_Some in Hk as [Hk _].
    apply map_Forall_insert_2; [|exact Hm]. apply touched_ok. exact (Hm _ _ Hk).
  - apply by_key_Some in Hk as [Hk _].
    apply map_Forall_insert_2; [|exact Hm]. apply appended_ok; [exact Hlt|]. exact (Hm _ _ Hk).
  - apply map_Forall_insert_2; [|exact Hm]. apply new_document_ok.
  - apply by_key_Some in Hk as [Hk _].
    apply map_Forall_insert_2; [|exact Hm]. apply deactivated_ok. exact (Hm _ _ Hk).
Qed.

Lemma serve_all_ok (setMonth_add : Z -> Z -> option Z) (reqs : list (Z * Request)) (w : World) :
  map_Forall (fun _ l => license_ok l) (licenses w) ->
  map_Forall (fun _ l => license_ok l) (licenses (serve_all setMonth_add reqs w)).
Proof.
  revert w. induction reqs as [|[now req] reqs IH]; intros w Hw; simpl; [exact Hw|].
  apply IH. eapply effect_preserves_ok; [apply serve_effect | exact Hw].
Qed.

Lemma reachable_ok (setMonth_add : Z -> Z -> option Z) (reqs : list (Z * Request))
    (fs : list bool) (key : string) (l : License) :
  licenses (serve_all setMonth_add reqs (empty_world fs)) !! key = Some l -> license_ok l.
Proof.
  intros H. refine (serve_all_ok setMonth_add reqs (empty_world fs) _ key l H).
  apply map_Forall_empty.
Qed.

(** ** Activation of a device that is already bound *)

(** [new Date() > license.expiryDate] is false up to and at the expiry. *)
Lemma not_expired (now expiry : Z) : now <= expiry <-> (now >? expiry) = false.
Proof. rewrite Z.gtb_ltb. symmetry. apply Z.ltb_ge. Qed.

(** C3. Activation is idempotent per license key and device: on an active,
    unexpired license whose activations already contain the device, an
    activate call whose two store calls succeed answers 200 with
    [valid: true] and the already-activated message, and leaves the number
    of activations, their device ids, the counter [currentActivations] and
    the limit as they were; nothing is assumed about the remaining
    capacity, so this holds of a full license too. *)
Theorem activate_idempotent (now : Z) (key dev : string) (fp : option string)
    (w : World) (l : License) :
  by_key (licenses w) key = Some l ->
  isActive l = true ->
  now <= expiryDate l ->
  dev ∈ device_ids l ->
  throws 0 w = false ->
  throws 1 w = false ->
  let r := fst (run_handler (activate_license now key dev fp) w) in
  let w' := snd (run_handler (activate_license now key dev fp) w) in
  status r = 200 /\ valid r = true /\
  message r = Some "License already activated on this device" /\
  exists l', by_key (licenses w') key = Some l' /\
    length (deviceActivations l') = length (deviceActivations l) /\
    device_ids l' = device_ids l /\
    currentActivations l' = currentActivations l /\
    maxActivations l' = maxActivations l /\
    isActive l' = true /\ expiryDate l' = expiryDate l.
Proof.
  intros Hk Ha He Hd Hf0 Hf1 r w'. subst r w'.
  apply not_expired in He as Hgt.
  apply find_activation_Some_iff in Hd.
  rewrite (activate_existing now key dev fp w l Hk Ha Hgt Hd Hf0), Hf1.
  cbn [fst snd]. repeat split.
  exists (touched dev now l). apply by_key_Some in Hk as [Hk Hkey].
  simpl. rewrite Hkey, !advance_licenses.
  split; [|unfold device_ids; simpl;
           rewrite touch_activation_length, touch_activation_ids; repeat split; exact Ha].
  apply by_key_Some. rewrite lookup_insert_eq. split; [reflexivity | exact Hkey].
Qed.

Lemma activate_idempotent_witness :
  let r := fst (run_handler (activate_license 3000 Demo.key "D1" None)
                            (Demo.world Demo.full [])) in
  let w' := snd (run_handler (activate_license 3000 Demo.key "D1" None)
                             (Demo.world Demo.full [])) in
  status r = 200 /\ valid r = true /\
  message r = Some "License already activated on this device" /\
  exists l', by_key (licenses w') Demo.key = Some l' /\
    length (deviceActivations l') = length (deviceActivations Demo.full) /\
    device_ids l' = device_ids Demo.full /\
    currentActivations l' = currentActivations Demo.full /\
    maxActivations l' = maxActivations Demo.full /\
    isActive l' = true /\ expiryDate l' = expiryDate Demo.full.
Proof.
  apply (activate_idempotent 3000 Demo.key "D1" None (Demo.world Demo.full []) Demo.full).
  - reflexivity.
  - reflexivity.
  - simpl. lia.
  - unfold device_ids. simpl. left.
  - reflexivity.
  - reflexivity.
Defined.

(** ** The order of the two checks of activation *)

Lemma limit_message_head (maxA : Z) :
  exists rest, limit_message maxA = "License a" +:+ rest.
Proof. unfold limit_message. eexists. simpl. reflexivity. Qed.

Ltac not_limit H :=
  let m := fresh "m" in
  let rest := fresh "rest" in
  let E := fresh "E" in
  destruct H as [m H]; destruct (limit_message_head m) as [rest E];
  rewrite E in H; unfold json in H; simpl in H; discriminate H.

(** C4. In activate the already-activated check comes before the capacity
    check: on an active, unexpired license whose activations contain the
    device, an activate call whose store calls succeed is answered with
    [valid: true] and never with the limit answer, whatever the counter and
    the limit are; and whenever activate gives the limit answer, the license
    was found active, the device is not among its activations and the
    counter has reached the limit. *)
Theorem already_activated_before_capacity :
  (forall (now : Z) (key dev : string) (fp : option string) (w : World) (l : License),
      by_key (licenses w) key = Some l ->
      isActive l = true ->
      now <= expiryDate l ->
      dev ∈ device_ids l ->
      throws 0 w = false ->
      throws 1 w = false ->
      valid (fst (run_handler (activate_license now key dev fp) w)) = true /\
      ~ limit_reached (fst (run_handler (activate_license now key dev fp) w))) /\
  (forall (now : Z) (key dev : string) (fp : option string) (w : World),
      limit_reached (fst (run_handler (activate_license now key dev fp) w)) ->
      exists l, by_key (licenses w) key = Some l /\ isActive l = true /\
                (dev ∉ device_ids l) /\ maxActivations l <= currentActivations l).
Proof.
  split.
  - intros now key dev fp w l Hk Ha He Hd Hf0 Hf1.
    apply not_expired in He. apply find_activation_Some_iff in Hd.
    rewrite (activate_existing now key dev fp w l Hk Ha He Hd Hf0), Hf1.
    split; [reflexivity|]. intros H. not_limit H.
  - intros now key dev fp w H.
    destruct (throws 0 w) eqn:Hf.
    { rewrite activate_thrown in H by exact Hf. not_limit H. }
    destruct (by_key (licenses w) key) as [l|] eqn:Hk.
    2:{ rewrite activate_not_found in H by eauto using absent_not_found. not_limit H. }
    destruct (isActive l) eqn:Ha.
    2:{ rewrite activate_not_found in H by eauto using not_active_not_found. not_limit H. }
    destruct (now >? expiryDate l) eqn:He.
    { rewrite (activate_expired now key dev fp w l) in H by auto. not_limit H. }
    destruct (find_activation dev (deviceActivations l)) as [a|] eqn:Hd.
    { rewrite (activate_existing now key dev fp w l) in H by eauto.
      destruct (throws 1 w); not_limit H. }
    rewrite (activate_fresh now key dev fp w l) in H by auto.
    destruct (currentActivations l >=? maxActivations l) eqn:Hc.
    + exists l. repeat split; [exact Ha | | ].
      * apply find_activation_None_iff. exact Hd.
      * rewrite Z.geb_leb in Hc. apply Z.leb_le. exact Hc.
    + destruct (throws 1 w); not_limit H.
Qed.

Lemma already_activated_before_capacity_witness :
  (valid (fst (run_handler (activate_license 3000 Demo.key "D1" None)
                           (Demo.world Demo.full []))) = true /\
   ~ limit_reached (fst (run_handler (activate_license 3000 Demo.key "D1" None)
                                     (Demo.world Demo.full [])))) /\
  (exists l, by_key (licenses (Demo.world Demo.full [])) Demo.key = Some l /\
             isActive l = true /\ ("D2" ∉ device_ids l) /\
             maxActivations l <= currentActivations l).
Proof.
  split.
  - apply (proj1 already_activated_before_capacity
             3000 Demo.key "D1" None (Demo.world Demo.full []) Demo.full).
    + reflexivity.
    + reflexivity.
    + simpl. lia.
    + unfold device_ids. simpl. left.
    + reflexivity.
    + reflexivity.
  - apply (proj2 already_activated_before_capacity
             3000 Demo.key "D2" None (Demo.world Demo.full [])).
    exists 1. reflexivity.
Defined.

(** ** Validation and the save of [lastValidation] *)

(** C5, as the code has it. In validate, once the license is found active
    and unexpired and the device's activation exists, the handler awaits the
    save of the new [lastValidation]: when the save succeeds the answer is
    200 with [valid: true] and the license is stored with the new time, and
    when the save throws the [catch] clause answers 500 with [valid: false]
    and the server-error message, the stored licenses being left as they
    were. *)
Theorem validate_awaits_save (now : Z) (key dev : string) (w : World) (l : License) :
  by_key (licenses w) key = Some l ->
  isActive l = true ->
  now <= expiryDate l ->
  dev ∈ device_ids l ->
  throws 0 w = false ->
  fst (run_handler (validate_license now key dev) w) =
    (if throws 1 w then
       json 500 [("valid", JBool false);
                 ("message", JStr "Server error during validation")]
     else
       json 200 [("valid", JBool true);
                 ("message", JStr "License is valid");
                 ("expiry_date", JDate (expiryDate l));
                 ("customer_name", JStr (customerName l));
                 ("plan_type", JStr (planType (metadata l)))]) /\
  licenses (snd (run_handler (validate_license now key dev) w)) =
    (if throws 1 w then licenses w
     else <[key := touched dev now l]> (licenses w)).
Proof.
  intros Hk Ha He Hd Hf0.
  apply not_expired in He. apply find_activation_Some_iff in Hd.
  rewrite (validate_existing now key dev w l Hk Ha He Hd Hf0).
  apply by_key_Some in Hk as [_ Hkey].
  destruct (throws 1 w); simpl; rewrite !advance_licenses, ?Hkey; split; reflexivity.
Qed.

Lemma validate_awaits_save_witness :
  fst (run_handler (validate_license 3000 Demo.key "D1")
                   (Demo.world Demo.full [false; true])) =
    json 500 [("valid", JBool false);
              ("message", JStr "Server error during validation")] /\
  licenses (snd (run_handler (validate_license 3000 Demo.key "D1")
                             (Demo.world Demo.full [false; true]))) =
    licenses (Demo.world Demo.full [false; true]).
Proof.
  apply (validate_awaits_save 3000 Demo.key "D1"
           (Demo.world Demo.full [false; true]) Demo.full).
  - reflexivity.
  - reflexivity.
  - simpl. lia.
  - unfold device_ids. simpl. left.
  - reflexivity.
Defined.

(** C5, the claim as written fails: license [Demo.full] is found active and
    unexpired with device D1 bound, the save of [lastValidation] throws, and
    validate answers 500 with [valid: false]. *)
Lemma validate_save_failure_is_fatal :
  let w := Demo.world Demo.full [false; true] in
  let r := fst (run_handler (validate_license 3000 Demo.key "D1") w) in
  by_key (licenses w) Demo.key = Some Demo.full /\
  isActive Demo.full = true /\
  3000 <= expiryDate Demo.full /\
  is_Some (find_activation "D1" (deviceActivations Demo.full)) /\
  throws 0 w = false /\ throws 1 w = true /\
  valid r = false /\ status r = 500 /\
  message r = Some "Server error during validation".
Proof.
  cbv zeta. repeat split; try reflexivity.
  - simpl. lia.
  - eexists. reflexivity.
Qed.

(** ** The capacity check under concurrent activations *)

Lemma throws_saved (i : nat) (doc : License) (w : World) :
  throws i (saved doc w) = throws i w.
Proof. reflexivity. Qed.

Lemma find_activation_app_other (d d' : string) (t : Z) (info : string)
    (ds : list DeviceActivation) :
  find_activation d ds = None -> d' <> d ->
  find_activation d (ds ++ [mkDeviceActivation d' t t info]) = None.
Proof.
  intros Hd Hne. unfold find_activation in *. induction ds as [|a ds IH]; simpl in *.
  - apply String.eqb_neq in Hne. rewrite Hne. reflexivity.
  - destruct (String.eqb (deviceId a) d); [discriminate | auto].
Qed.

Ltac step_threads :=
  cbn -[exec limit_message find_activation touch_activation appended
        assign_lastValidation push_activation increment_currentActivations loaded].

(** C2, as the code has it. The capacity check and the append of activate
    are a read-check-then-write sequence of the handler: [License.findOne],
    the comparison of [currentActivations] with [maxActivations], the push
    on the handler's copy, and [license.save()].  Two activate calls for new
    devices on a license with one slot remaining do not both append when
    they run in turn, the second reading the license after the first has
    saved it: the first is answered as activated and the second gets the
    limit answer. *)
Theorem activations_in_turn (now1 now2 : Z) (key d1 d2 : string)
    (fp1 fp2 : option string) (w : World) (l : License) :
  by_key (licenses w) key = Some l ->
  isActive l = true ->
  now1 <= expiryDate l -> now2 <= expiryDate l ->
  (d1 ∉ device_ids l) -> (d2 ∉ device_ids l) -> d1 <> d2 ->
  currentActivations l + 1 = maxActivations l ->
  throws 0 w = false -> throws 1 w = false -> throws 2 w = false ->
  let result := interleave [0; 0; 1; 1]%nat
                  [spawn (activate_license now1 key d1 fp1);
                   spawn (activate_license now2 key d2 fp2)] w in
  map answer_of (fst result) =
    [Some (json 200 [("valid", JBool true);
                     ("message", JStr "License activated successfully!");
                     ("expiry_date", JDate (expiryDate l));
                     ("customer_name", JStr (customerName l));
                     ("plan_type", JStr (planType (metadata l)));
                     ("activations_used", JNum (maxActivations l));
                     ("activations_total", JNum (maxActivations l))]);
     Some (json 200 [("valid", JBool false);
                     ("message", JStr (limit_message (maxActivations l)))])] /\
  by_key (licenses (snd result)) key = Some (appended d1 now1 fp1 l).
Proof.
  intros Hk Ha He1 He2 Hd1 Hd2 Hne Hslot Hf0 Hf1 Hf2 result. subst result.
  apply not_expired in He1, He2.
  apply find_activation_None_iff in Hd1, Hd2.
  assert (Hc : (currentActivations l >=? maxActivations l) = false).
  { rewrite Z.geb_leb. apply Z.leb_gt. lia. }
  (* the first call reads and saves *)
  step_threads.
  rewrite (find_one_active w key l Hk Ha Hf0), He1, Hd1, Hc.
  step_threads.
  apply by_key_Some in Hk as Hk'. destruct Hk' as [_ Hkey].
  destruct (push_and_count_loaded d1 now1 fp1 l) as (Ef & Ec & Ev).
  rewrite (save_after_read _ l w), Hf1, Ec, Ef;
    [|rewrite Ef; cbn [appended licenseKey set_deviceActivations set_currentActivations];
      rewrite Hkey; exact Hk | exact Ev].
  step_threads.
  (* the second call reads what the first saved *)
  assert (Hk2 : by_key (licenses (saved (appended d1 now1 fp1 l) (advance (advance w)))) key
                = Some (appended d1 now1 fp1 l)).
  { apply by_key_Some. simpl. rewrite Hkey, lookup_insert_eq. auto. }
  assert (Hf2' : throws 0 (saved (appended d1 now1 fp1 l) (advance (advance w))) = false).
  { rewrite throws_saved, !throws_advance. exact Hf2. }
  rewrite (find_one_active _ key _ Hk2 Ha Hf2').
  cbn -[exec limit_message find_activation touch_activation assign_lastValidation
        push_activation increment_currentActivations loaded].
  rewrite He2, (find_activation_app_other d2 d1 now1 _ _ Hd2 Hne).
  replace (currentActivations l + 1 >=? maxActivations l) with true
    by (symmetry; rewrite Z.geb_leb; apply Z.leb_le; lia).
  step_threads.
  rewrite Hslot. split; [reflexivity|].
  rewrite advance_licenses. exact Hk2.
Qed.

Lemma activations_in_turn_witness :
  let result := interleave [0; 0; 1; 1]%nat
                  [spawn (activate_license 2000 Demo.key "D1" None);
                   spawn (activate_license 2001 Demo.key "D2" None)]
                  (Demo.world Demo.issued []) in
  map answer_of (fst result) =
    [Some (json 200 [("valid", JBool true);
                     ("message", JStr "License activated successfully!");
                     ("expiry_date", JDate (expiryDate Demo.issued));
                     ("customer_name", JStr (customerName Demo.issued));
                     ("plan_type", JStr (planType (metadata Demo.issued)));
                     ("activations_used", JNum (maxActivations Demo.issued));
                     ("activations_total", JNum (maxActivations Demo.issued))]);
     Some (json 200 [("valid", JBool false);
                     ("message", JStr (limit_message (maxActivations Demo.issued)))])] /\
  by_key (licenses (snd result)) Demo.key = Some (appended "D1" 2000 None Demo.issued).
Proof.
  apply (activations_in_turn 2000 2001 Demo.key "D1" "D2" None None
           (Demo.world Demo.issued []) Demo.issued).
  - reflexivity.
  - reflexivity.
  - simpl. lia.
  - simpl. lia.
  - unfold device_ids. simpl. apply not_elem_of_nil.
  - unfold device_ids. simpl. apply not_elem_of_nil.
  - discriminate.
  - reflexivity.
  - reflexivity.
  - reflexivity.
  - reflexivity.
Defined.

(** C2, the claim as written fails: license [Demo.issued] has one slot
    remaining; the calls for devices D1 and D2 both read it before either
    saves, both pass the capacity check, both push and save, and both are
    answered as activated with [activations_used] 1 of 1. *)
Lemma concurrent_activations_both_append :
  let w := Demo.world Demo.issued [] in
  let result := interleave [0; 1; 0; 1]%nat
                  [spawn (activate_license 2000 Demo.key "D1" None);
                   spawn (activate_license 2000 Demo.key "D2" None)] w in
  by_key (licenses w) Demo.key = Some Demo.issued /\
  maxActivations Demo.issued - currentActivations Demo.issued = 1 /\
  map answer_of (fst result) =
    [Some (json 200 [("valid", JBool true);
                     ("message", JStr "License activated successfully!");
                     ("expiry_date", JDate 2592001000);
                     ("customer_name", JStr "A");
                     ("plan_type", JStr "single");
                     ("activations_used", JNum 1);
                     ("activations_total", JNum 1)]);
     Some (json 200 [("valid", JBool true);
                     ("message", JStr "License activated successfully!");
                     ("expiry_date", JDate 2592001000);
                     ("customer_name", JStr "A");
                     ("plan_type", JStr "single");
                     ("activations_used", JNum 1);
                     ("activations_total", JNum 1)])].
Proof.
  cbv zeta. repeat split; vm_compute; reflexivity.
Qed.

(** ** How one request changes one license *)

Lemma effect_on_license (now : Z) (req : Request) (m m' : gmap string License)
    (key : string) (l l' : License) :
  Effect now req m m' -> m !! key = Some l -> m' !! key = Some l' ->
  l' = l \/
  (exists dev, l' = touched dev now l) \/
  (exists dev fp, req = ActivateLicense key dev fp /\
                  find_activation dev (deviceActivations l) = None /\
                  currentActivations l < maxActivations l /\
                  l' = appended dev now fp l) \/
  (req = DeactivateLicense key /\ l' = set_isActive false l).
Proof.
  intros He Hl Hl'.
  destruct He as [| key0 dev l0 _ Hk _ _ | key0 dev fp l0 Hreq Hk _ Hd Hlt
                  | rnd body f _ _ Hnone | key0 l0 Hreq Hk ].
  - left. congruence.
  - apply by_key_Some in Hk as [Hk _]. destruct (decide (key0 = key)) as [->|Hne].
    + rewrite lookup_insert_eq in Hl'. right; left. exists dev. congruence.
    + rewrite lookup_insert_ne in Hl' by exact Hne. left. congruence.
  - apply by_key_Some in Hk as [Hk _]. destruct (decide (key0 = key)) as [->|Hne].
    + rewrite lookup_insert_eq in Hl'. right; right; left. exists dev, fp.
      assert (l0 = l) by congruence. subst l0.
      repeat split; [exact Hreq | exact Hd | exact Hlt | congruence].
    + rewrite lookup_insert_ne in Hl' by exact Hne. left. congruence.
  - destruct (decide (newLicenseKey f = key)) as [E|Hne].
    + rewrite E in Hnone. congruence.
    + rewrite lookup_insert_ne in Hl' by exact Hne. left. congruence.
  - apply by_key_Some in Hk as [Hk _]. destruct (decide (key0 = key)) as [->|Hne].
    + rewrite lookup_insert_eq in Hl'. right; right; right.
      split; [exact Hreq | congruence].
    + rewrite lookup_insert_ne in Hl' by exact Hne. left. congruence.
Qed.

(** ** The activation limit *)

(** C1, as the code has it. Along every sequence of requests served one
    after the other from the empty store, and whatever store calls throw,
    every stored license whose [maxActivations] is not negative has at most
    [maxActivations] device activations; and one request served alone
    changes the number of activations of a license only when it is an
    activate request for that license's key and a device not yet bound,
    served while [currentActivations] is below [maxActivations], and then it
    adds exactly one. *)
Theorem activations_never_exceed_limit :
  (forall (setMonth_add : Z -> Z -> option Z) (reqs : list (Z * Request)) (fs : list bool)
          (key : string) (l : License),
      licenses (serve_all setMonth_add reqs (empty_world fs)) !! key = Some l ->
      0 <= maxActivations l ->
      Z.of_nat (length (deviceActivations l)) <= maxActivations l) /\
  (forall (setMonth_add : Z -> Z -> option Z) (now : Z) (req : Request) (w : World)
          (key : string) (l l' : License),
      licenses w !! key = Some l ->
      licenses (snd (serve setMonth_add now req w)) !! key = Some l' ->
      length (deviceActivations l') = length (deviceActivations l) \/
      (length (deviceActivations l') = S (length (deviceActivations l)) /\
       (exists dev fp, req = ActivateLicense key dev fp /\ (dev ∉ device_ids l)) /\
       currentActivations l < maxActivations l)).
Proof.
  split.
  - intros setMonth_add reqs fs key l Hl Hmax.
    destruct (reachable_ok setMonth_add reqs fs key l Hl) as [_ Hb]. exact (Hb Hmax).
  - intros setMonth_add now req w key l l' Hl Hl'.
    destruct (effect_on_license now req _ _ key l l'
                (serve_effect setMonth_add now req w) Hl Hl')
      as [-> | [[dev ->] | [(dev & fp & Hreq & Hd & Hlt & ->) | [_ ->]]]].
    + left. reflexivity.
    + left. simpl. apply touch_activation_length.
    + right. split; [|split].
      * simpl. rewrite length_app. simpl. lia.
      * exists dev, fp. split; [exact Hreq|]. apply find_activation_None_iff. exact Hd.
      * exact Hlt.
    + left. reflexivity.
Qed.

Lemma demo_requests_store :
  licenses (serve_all Demo.setMonth_add demo_requests (empty_world [])) !! Demo.key
  = Some Demo.full.
Proof. vm_compute. reflexivity. Qed.

Lemma activations_never_exceed_limit_witness :
  Z.of_nat (length (deviceActivations Demo.full)) <= maxActivations Demo.full /\
  (length (deviceActivations (appended "D1" 2000 None Demo.issued))
   = length (deviceActivations Demo.issued) \/
   (length (deviceActivations (appended "D1" 2000 None Demo.issued))
    = S (length (deviceActivations Demo.issued)) /\
    (exists dev fp, ActivateLicense Demo.key "D1" None = ActivateLicense Demo.key dev fp /\
                    (dev ∉ device_ids Demo.issued)) /\
    currentActivations Demo.issued < maxActivations Demo.issued)).
Proof.
  split.
  - apply (proj1 activations_never_exceed_limit Demo.setMonth_add demo_requests []
             Demo.key Demo.full).
    + vm_compute. reflexivity.
    + simpl. lia.
  - apply (proj2 activations_never_exceed_limit Demo.setMonth_add 2000
             (ActivateLicense Demo.key "D1" None) (Demo.world Demo.issued [])
             Demo.key Demo.issued (appended "D1" 2000 None Demo.issued)).
    + vm_compute. reflexivity.
    + vm_compute. reflexivity.
Defined.

(** C1, the claim as written fails, in two ways. License [Demo.issued] has
    a limit of one activation: the activate calls for devices D1 and D2
    both read it before either saves, both pass the capacity check, and
    each save sends the push of its own device, so that the store ends with
    two activations on a limit of one. And create-license accepts
    [maxActivations: -1]: the license it stores has no activation, which is
    more than its limit. *)
Lemma concurrent_activations_exceed_limit :
  let w := Demo.world Demo.issued [] in
  let result := interleave [0; 1; 0; 1]%nat
                  [spawn (activate_license 2000 Demo.key "D1" None);
                   spawn (activate_license 2000 Demo.key "D2" None)] w in
  (licenses w !! Demo.key = Some Demo.issued /\
   licenses (snd result) !! Demo.key = Some Demo.overfull /\
   maxActivations Demo.overfull = 1 /\
   length (deviceActivations Demo.overfull) = 2%nat /\
   ~ Z.of_nat (length (deviceActivations Demo.overfull)) <= maxActivations Demo.overfull) /\
  (licenses (serve_all Demo.setMonth_add [(1000, CreateLicense Demo.rnd negative_body)]
                       (empty_world [])) !! Demo.key = Some negative_license /\
   ~ Z.of_nat (length (deviceActivations negative_license))
     <= maxActivations negative_license).
Proof.
  cbv zeta. repeat split; try (vm_compute; reflexivity); simpl; lia.
Qed.

(** ** The counter of activations *)

(** C10, as the code has it. A created license starts with counter 0 and
    no activation; one request served alone either leaves both the counter
    [currentActivations] and the number of activations of a license as they
    were, or it is an activate request for that license that adds one to
    the counter and appends one activation; so in every store reached by
    serving requests one after the other from the empty store the counter
    of every license equals the number of its activations, and the capacity
    check on the counter decides as the same check on that number would. *)
Theorem counter_is_number_of_activations :
  (forall (now : Z) (f : NewLicense),
      currentActivations (new_document now f) = 0 /\
      deviceActivations (new_document now f) = []) /\
  (forall (setMonth_add : Z -> Z -> option Z) (now : Z) (req : Request) (w : World)
          (key : string) (l l' : License),
      licenses w !! key = Some l ->
      licenses (snd (serve setMonth_add now req w)) !! key = Some l' ->
      (currentActivations l' = currentActivations l /\
       length (deviceActivations l') = length (deviceActivations l)) \/
      (exists dev fp, req = ActivateLicense key dev fp /\
         currentActivations l' = currentActivations l + 1 /\
         deviceActivations l' =
           (deviceActivations l ++
            [mkDeviceActivation dev now now (or_else fp "{}")])%list)) /\
  (forall (setMonth_add : Z -> Z -> option Z) (reqs : list (Z * Request)) (fs : list bool)
          (key : string) (l : License),
      licenses (serve_all setMonth_add reqs (empty_world fs)) !! key = Some l ->
      currentActivations l = Z.of_nat (length (deviceActivations l)) /\
      (currentActivations l >=? maxActivations l) =
        (Z.of_nat (length (deviceActivations l)) >=? maxActivations l)).
Proof.
  split; [|split].
  - intros now f. split; reflexivity.
  - intros setMonth_add now req w key l l' Hl Hl'.
    destruct (effect_on_license now req _ _ key l l'
                (serve_effect setMonth_add now req w) Hl Hl')
      as [-> | [[dev ->] | [(dev & fp & Hreq & _ & _ & ->) | [_ ->]]]].
    + left. split; reflexivity.
    + left. split; [reflexivity|]. simpl. apply touch_activation_length.
    + right. exists dev, fp. repeat split. exact Hreq.
    + left. split; reflexivity.
  - intros setMonth_add reqs fs key l Hl.
    destruct (reachable_ok setMonth_add reqs fs key l Hl) as [Hc _].
    unfold counted in Hc. rewrite <- Hc. split; reflexivity.
Qed.

Lemma counter_is_number_of_activations_witness :
  ((currentActivations (appended "D1" 2000 None Demo.issued) = currentActivations Demo.issued /\
    length (deviceActivations (appended "D1" 2000 None Demo.issued))
    = length (deviceActivations Demo.issued)) \/
   (exists dev fp, ActivateLicense Demo.key "D1" None = ActivateLicense Demo.key dev fp /\
      currentActivations (appended "D1" 2000 None Demo.issued)
      = currentActivations Demo.issued + 1 /\
      deviceActivations (appended "D1" 2000 None Demo.issued) =
        (deviceActivations Demo.issued ++
         [mkDeviceActivation dev 2000 2000 (or_else fp "{}")])%list)) /\
  (currentActivations Demo.full = Z.of_nat (length (deviceActivations Demo.full)) /\
   (currentActivations Demo.full >=? maxActivations Demo.full) =
     (Z.of_nat (length (deviceActivations Demo.full)) >=? maxActivations Demo.full)).
Proof.
  split.
  - apply (proj1 (proj2 counter_is_number_of_activations) Demo.setMonth_add 2000
             (ActivateLicense Demo.key "D1" None) (Demo.world Demo.issued [])
             Demo.key Demo.issued (appended "D1" 2000 None Demo.issued)).
    + vm_compute. reflexivity.
    + vm_compute. reflexivity.
  - apply (proj2 (proj2 counter_is_number_of_activations) Demo.setMonth_add
             demo_requests [] Demo.key Demo.full).
    vm_compute. reflexivity.
Defined.

(** C10, the claim as written fails. License [Demo.roomy] has two slots and
    no activation: the activate calls for devices D1 and D2 both read it
    before either saves, each save sends the push of its own device and
    sets the counter to the one it computed, so that the store ends with
    two activations and a counter of one; the capacity check on the counter
    then passes where the same check on the number of activations does not,
    and a third device is activated on the license of two slots. *)
Lemma concurrent_activations_miscount :
  let w := Demo.world Demo.roomy [] in
  let result := interleave [0; 1; 0; 1]%nat
                  [spawn (activate_license 2000 Demo.key "D1" None);
                   spawn (activate_license 2000 Demo.key "D2" None)] w in
  licenses w !! Demo.key = Some Demo.roomy /\
  licenses (snd result) !! Demo.key = Some Demo.miscounted /\
  currentActivations Demo.miscounted = 1 /\
  length (deviceActivations Demo.miscounted) = 2%nat /\
  currentActivations Demo.miscounted
    <> Z.of_nat (length (deviceActivations Demo.miscounted)) /\
  (currentActivations Demo.miscounted >=? maxActivations Demo.miscounted) = false /\
  (Z.of_nat (length (deviceActivations Demo.miscounted))
     >=? maxActivations Demo.miscounted) = true /\
  valid (fst (run_handler (activate_license 3000 Demo.key "D3" None) (snd result))) = true.
Proof.
  cbv zeta. repeat split; try (vm_compute; reflexivity). simpl. lia.
Qed.

(** ** Deactivation *)

Lemma revoked_not_found (key : string) (m : gmap string License) :
  revoked key m -> forall l, by_key m key = Some l -> isActive l = false.
Proof.
  intros (l0 & H0 & Ha) l Hk. apply by_key_Some in Hk as [Hk _]. congruence.
Qed.

Lemma effect_keeps_revoked (now : Z) (req : Request) (m m' : gmap string License)
    (key : string) :
  Effect now req m m' -> revoked key m -> revoked key m'.
Proof.
  intros He (l & Hl & Ha).
  destruct He as [| key0 dev l0 _ Hk Ha0 _ | key0 dev fp l0 _ Hk Ha0 _ _
                  | rnd body f _ _ Hnone | key0 l0 _ Hk ].
  - exists l. auto.
  - apply by_key_Some in Hk as [Hk _]. destruct (decide (key0 = key)) as [->|Hne].
    + congruence.
    + exists l. rewrite lookup_insert_ne by exact Hne. auto.
  - apply by_key_Some in Hk as [Hk _]. destruct (decide (key0 = key)) as [->|Hne].
    + congruence.
    + exists l. rewrite lookup_insert_ne by exact Hne. auto.
  - destruct (decide (newLicenseKey f = key)) as [E|Hne].
    + rewrite E in Hnone. congruence.
    + exists l. rewrite lookup_insert_ne by exact Hne. auto.
  - destruct (decide (key0 = key)) as [->|Hne].
    + exists (set_isActive false l0). rewrite lookup_insert_eq. auto.
    + exists l. rewrite lookup_insert_ne by exact Hne. auto.
Qed.

Lemma serve_all_keeps_revoked (setMonth_add : Z -> Z -> option Z) (reqs : list (Z * Request))
    (w : World) (key : string) :
  revoked key (licenses w) -> revoked key (licenses (serve_all setMonth_add reqs w)).
Proof.
  revert w. induction reqs as [|[now req] reqs IH]; intros w Hw; simpl; [exact Hw|].
  apply IH. eapply effect_keeps_revoked; [apply serve_effect | exact Hw].
Qed.

Lemma deactivate_cases (key : string) (w : World) :
  run_handler (deactivate_license key) w =
    if throws 0 w then
      (json 500 [("error", JStr (err_message StoreError))], advance w)
    else
      match by_key (licenses w) key with
      | None => (json 404 [("error", JStr "License not found")], advance w)
      | Some l =>
          (json 200 [("success", JBool true); ("message", JStr "License deactivated")],
           mkWorld (<[key := set_isActive false l]> (licenses w)) (usages w)
                   (faults (advance w)))
      end.
Proof.
  enter_route. destruct (throws 0 w) eqn:Hf.
  - rewrite exec_throws by first [reflexivity | exact Hf]. reflexivity.
  - rewrite exec_calm by first [reflexivity | exact Hf]. simpl. rewrite advance_licenses, advance_usages.
    destruct (by_key (licenses w) key); reflexivity.
Qed.

(** C6. A deactivate request that succeeds (answer 200) has found the
    license of that key and stores it with [isActive] false and every other
    field as it was, leaving all other licenses and the usage events
    untouched; and from then on, whatever requests are served in between and
    whatever store calls throw, a validate or activate request for that key
    is answered with [valid: false], and, when its store call does not
    throw, with the not-found answer of its route, whatever the expiry and
    the activations of the license are. *)
Theorem deactivate_revokes (setMonth_add : Z -> Z -> option Z) (now0 : Z) (key : string)
    (w : World) :
  status (fst (serve setMonth_add now0 (DeactivateLicense key) w)) = 200 ->
  let w1 := snd (serve setMonth_add now0 (DeactivateLicense key) w) in
  (exists l l',
      licenses w !! key = Some l /\ licenses w1 !! key = Some l' /\
      isActive l' = false /\
      licenseKey l' = licenseKey l /\ customerEmail l' = customerEmail l /\
      customerName l' = customerName l /\ purchaseDate l' = purchaseDate l /\
      expiryDate l' = expiryDate l /\ maxActivations l' = maxActivations l /\
      currentActivations l' = currentActivations l /\
      deviceActivations l' = deviceActivations l /\ metadata l' = metadata l) /\
  (forall k, k <> key -> licenses w1 !! k = licenses w !! k) /\
  usages w1 = usages w /\
  forall (reqs : list (Z * Request)) (now : Z) (dev : string) (fp : option string),
    let w2 := serve_all setMonth_add reqs w1 in
    valid (fst (serve setMonth_add now (ValidateLicense key dev) w2)) = false /\
    valid (fst (serve setMonth_add now (ActivateLicense key dev fp) w2)) = false /\
    (throws 0 w2 = false ->
       fst (serve setMonth_add now (ValidateLicense key dev) w2) =
         json 200 [("valid", JBool false);
                   ("message", JStr "License not found or inactive")] /\
       fst (serve setMonth_add now (ActivateLicense key dev fp) w2) =
         json 200 [("valid", JBool false); ("message", JStr "Invalid license key")]).
Proof.
  unfold serve at 1 2. simpl route. rewrite deactivate_cases.
  destruct (throws 0 w) eqn:Hf; [simpl; discriminate|].
  destruct (by_key (licenses w) key) as [l|] eqn:Hk; [|simpl; discriminate].
  intros _. cbv zeta. cbn [fst snd licenses usages].
  apply by_key_Some in Hk as [Hk Hkey].
  split; [|split; [|split]].
  - exists l, (set_isActive false l). rewrite lookup_insert_eq. repeat split. exact Hk.
  - intros k Hne. apply lookup_insert_ne. congruence.
  - reflexivity.
  - intros reqs now dev fp.
    match goal with |- context [serve_all setMonth_add reqs ?w1] =>
      set (w2 := serve_all setMonth_add reqs w1) end.
    assert (Hrev : revoked key (licenses w2)).
    { apply serve_all_keeps_revoked. exists (set_isActive false l).
      simpl. rewrite lookup_insert_eq. auto. }
    pose proof (revoked_not_found key _ Hrev) as Hnf.
    unfold serve. simpl route.
    destruct (throws 0 w2) eqn:Hf2.
    + rewrite validate_thrown, activate_thrown by exact Hf2.
      repeat split; discriminate.
    + rewrite validate_not_found, activate_not_found by assumption.
      repeat split.
Qed.

Lemma deactivate_revokes_witness :
  let w1 := snd (serve Demo.setMonth_add 4000 (DeactivateLicense Demo.key)
                       (Demo.world Demo.full [])) in
  (exists l l',
      licenses (Demo.world Demo.full []) !! Demo.key = Some l /\
      licenses w1 !! Demo.key = Some l' /\
      isActive l' = false /\
      licenseKey l' = licenseKey l /\ customerEmail l' = customerEmail l /\
      customerName l' = customerName l /\ purchaseDate l' = purchaseDate l /\
      expiryDate l' = expiryDate l /\ maxActivations l' = maxActivations l /\
      currentActivations l' = currentActivations l /\
      deviceActivations l' = deviceActivations l /\ metadata l' = metadata l) /\
  (forall k, k <> Demo.key -> licenses w1 !! k = licenses (Demo.world Demo.full []) !! k) /\
  usages w1 = usages (Demo.world Demo.full []) /\
  forall (reqs : list (Z * Request)) (now : Z) (dev : string) (fp : option string),
    let w2 := serve_all Demo.setMonth_add reqs w1 in
    valid (fst (serve Demo.setMonth_add now (ValidateLicense Demo.key dev) w2)) = false /\
    valid (fst (serve Demo.setMonth_add now (ActivateLicense Demo.key dev fp) w2)) = false /\
    (throws 0 w2 = false ->
       fst (serve Demo.setMonth_add now (ValidateLicense Demo.key dev) w2) =
         json 200 [("valid", JBool false);
                   ("message", JStr "License not found or inactive")] /\
       fst (serve Demo.setMonth_add now (ActivateLicense Demo.key dev fp) w2) =
         json 200 [("valid", JBool false); ("message", JStr "Invalid license key")]).
Proof.
  apply (deactivate_revokes Demo.setMonth_add 4000 Demo.key (Demo.world Demo.full [])).
  vm_compute. reflexivity.
Defined.

(** ** Usage recording *)

(** C9. Record-usage never looks at the license collection: for every
    license key, device, action and metadata and every state of the store,
    when [Usage.create] succeeds the event is appended, with the request
    time, and the answer is [{success: true}]; when it throws, nothing is
    stored and the answer is [{success: false}], with status 200 like the
    other; the licenses are never touched. *)
Theorem record_usage_is_a_soft_append (now : Z) (key dev action : string)
    (meta : option string) (w : World) :
  run_handler (record_usage now key dev action meta) w =
    (if throws 0 w then
       (json 200 [("success", JBool false)],
        mkWorld (licenses w) (usages w) (faults (advance w)))
     else
       (json 200 [("success", JBool true)],
        mkWorld (licenses w)
                (usages w ++ [mkUsage key dev action (or_else meta "{}") now])
                (faults (advance w)))).
Proof.
  enter_route. destruct (throws 0 w) eqn:Hf.
  - rewrite exec_throws by first [reflexivity | exact Hf]. simpl.
    rewrite <- (advance_licenses w), <- (advance_usages w). destruct (advance w); reflexivity.
  - rewrite exec_calm by first [reflexivity | exact Hf]. simpl.
    rewrite advance_licenses, advance_usages. reflexivity.
Qed.

(** ** White space *)

Lemma trimEnd_cons (c : ascii) (rest : string) :
  trimEnd (String c rest) =
    if is_one_space (String c (trimEnd rest)) then "" else String c (trimEnd rest).
Proof. reflexivity. Qed.

Lemma trimEnd_idempotent (s : string) : trimEnd (trimEnd s) = trimEnd s.
Proof.
  induction s as [|c rest IH]; [reflexivity|].
  rewrite (trimEnd_cons c rest).
  destruct (is_one_space (String c (trimEnd rest))) eqn:E; [reflexivity|].
  rewrite (trimEnd_cons c (trimEnd rest)), IH, E. reflexivity.
Qed.

Lemma trimEnd_cases (c : ascii) (rest : string) :
  trimEnd (String c rest) = "" \/ trimEnd (String c rest) = String c (trimEnd rest).
Proof.
  rewrite trimEnd_cons. destruct (is_one_space (String c (trimEnd rest))); auto.
Qed.

(** What [trimStart] leaves does not begin with white space. *)
Lemma trimStart_head (s : string) : leading_space (trimStart s) = false.
Proof.
  assert (H : forall (n : nat) (s : string),
            (String.length s <= n)%nat -> leading_space (trimStart s) = false).
  { clear s. induction n as [|n IH]; intros [|c1 r1] Hn; simpl in Hn;
      try reflexivity; try lia.
    cbn [trimStart]. destruct (is_space c1) eqn:E1.
    { apply IH. lia. }
    destruct r1 as [|c2 r2]; [simpl; rewrite E1; reflexivity|].
    destruct (is_space2 c1 c2) eqn:E2.
    { apply IH. simpl in Hn. lia. }
    destruct r2 as [|c3 r3]; [simpl; rewrite E1, E2; reflexivity|].
    destruct (is_space3 c1 c2 c3) eqn:E3.
    { apply IH. simpl in Hn. lia. }
    simpl. rewrite E1, E2, E3. reflexivity. }
  apply (H (String.length s)). reflexivity.
Qed.

Lemma trimStart_fixed (s : string) : leading_space s = false -> trimStart s = s.
Proof.
  destruct s as [|c1 r1]; [reflexivity|]. cbn [leading_space trimStart].
  destruct (is_space c1); cbn [orb]; [discriminate|].
  destruct r1 as [|c2 r2]; [reflexivity|].
  destruct (is_space2 c1 c2); cbn [orb]; [discriminate|].
  destruct r2 as [|c3 r3]; [reflexivity|].
  destruct (is_space3 c1 c2 c3); [discriminate | reflexivity].
Qed.

(** Trimming the end does not bring white space to the front. *)
Lemma trimEnd_head (s : string) :
  leading_space s = false -> leading_space (trimEnd s) = false.
Proof.
  destruct s as [|c1 r1]; [reflexivity|].
  destruct (trimEnd_cases c1 r1) as [-> | ->]; [reflexivity|].
  cbn [leading_space]. intros H. apply orb_false_iff in H as [-> H]. cbn [orb].
  destruct r1 as [|c2 r2]; [reflexivity|].
  destruct (trimEnd_cases c2 r2) as [-> | ->]; [reflexivity|].
  apply orb_false_iff in H as [-> H]. cbn [orb].
  destruct r2 as [|c3 r3]; [reflexivity|].
  destruct (trimEnd_cases c3 r3) as [-> | ->]; [reflexivity | exact H].
Qed.

Lemma trim_idempotent (s : string) : trim (trim s) = trim s.
Proof.
  unfold trim.
  rewrite (trimStart_fixed (trimEnd (trimStart s)))
    by (apply trimEnd_head, trimStart_head).
  apply trimEnd_idempotent.
Qed.

Lemma only_space_trimStart (s : string) : only_space s = true -> trimStart s = "".
Proof.
  assert (H : forall (n : nat) (s : string),
            (String.length s <= n)%nat -> only_space s = true -> trimStart s = "").
  { clear s. induction n as [|n IH]; intros [|c1 r1] Hn; simpl in Hn;
      try reflexivity; try lia.
    cbn [only_space trimStart]. destruct (is_space c1).
    { apply IH. lia. }
    destruct r1 as [|c2 r2]; [discriminate|]. destruct (is_space2 c1 c2).
    { apply IH. simpl in Hn. lia. }
    destruct r2 as [|c3 r3]; [discriminate|]. destruct (is_space3 c1 c2 c3); [|discriminate].
    apply IH. simpl in Hn. lia. }
  apply (H (String.length s)). reflexivity.
Qed.

Lemma trimStart_empty (s : string) : trimStart s = "" -> only_space s = true.
Proof.
  assert (H : forall (n : nat) (s : string),
            (String.length s <= n)%nat -> trimStart s = "" -> only_space s = true).
  { clear s. induction n as [|n IH]; intros [|c1 r1] Hn; simpl in Hn;
      try reflexivity; try lia.
    cbn [only_space trimStart]. destruct (is_space c1).
    { apply IH. lia. }
    destruct r1 as [|c2 r2]; [discriminate|]. destruct (is_space2 c1 c2).
    { apply IH. simpl in Hn. lia. }
    destruct r2 as [|c3 r3]; [discriminate|]. destruct (is_space3 c1 c2 c3); [|discriminate].
    apply IH. simpl in Hn. lia. }
  apply (H (String.length s)). reflexivity.
Qed.

Lemma trimEnd_empty (s : string) : trimEnd s = "" -> leading_space s = false -> s = "".
Proof.
  destruct s as [|c1 r1]; [reflexivity|]. rewrite trimEnd_cons.
  destruct (is_one_space (String c1 (trimEnd r1))) eqn:E; [|discriminate].
  intros _ H. exfalso. cbn [leading_space] in H.
  apply orb_false_iff in H as [H1 H].
  destruct r1 as [|c2 r2]; [simpl in E; congruence|].
  apply orb_false_iff in H as [H2 H].
  destruct (trimEnd_cases c2 r2) as [E2 | E2]; rewrite E2 in E; [simpl in E; congruence|].
  destruct r2 as [|c3 r3]; [simpl in E; congruence|].
  destruct (trimEnd_cases c3 r3) as [E3 | E3]; rewrite E3 in E; [simpl in E; congruence|].
  cbn [is_one_space] in E. destruct (trimEnd r3); congruence.
Qed.

(** A string holds white space only exactly when it is trimmed to the empty
    string. *)
Lemma only_space_trim (s : string) : only_space s = true <-> trim s = "".
Proof.
  split.
  - intros H. unfold trim. rewrite (only_space_trimStart s H). reflexivity.
  - intros H. apply trimStart_empty. apply trimEnd_empty; [exact H | apply trimStart_head].
Qed.

(** ** License creation *)

(** The explicit check of the handler: an absent or empty field is answered
    with 400 and nothing is stored. *)
Lemma create_license_requires_fields (setMonth_add : Z -> Z -> option Z) (now : Z)
    (rnd : nat -> byte) (body : CreateBody) (w : World) :
  truthy (bodyCustomerEmail body) = false \/ truthy (bodyCustomerName body) = false ->
  run_handler (create_license setMonth_add now rnd body) w =
    (json 400 [("success", JBool false);
               ("error", JStr "Customer email and name are required")], w).
Proof.
  intros H. rewrite create_cases. cbv zeta.
  destruct H as [-> | ->]; simpl; [reflexivity|].
  rewrite orb_true_r. reflexivity.
Qed.

(** A field that passes the check of the handler and is blank is trimmed to
    the empty string. *)
Lemma blank_field_trimmed (x : option string) :
  truthy x = true -> blank x = true -> trim (or_else x "") = "".
Proof.
  destruct x as [s|]; [|discriminate]. unfold truthy, or_else, blank, trim.
  destruct (String.eqb s ""); [discriminate|]. intros _ H.
  rewrite (only_space_trimStart s H). reflexivity.
Qed.

Lemma blank_field_rejected (f : NewLicense) :
  newCustomerEmail f = "" \/ newCustomerName f = "" -> validation_messages f <> [].
Proof.
  unfold validation_messages, missing_required.
  intros [-> | ->]; destruct (newExpiryDate f), (String.eqb (newLicenseKey f) "");
    try destruct (String.eqb (newCustomerEmail f) "");
    try destruct (String.eqb (newCustomerName f) ""); discriminate.
Qed.

Lemma trim_empty : trim "" = "".
Proof. reflexivity. Qed.

Lemma create_fields_complete (setMonth_add : Z -> Z -> option Z) (now : Z) (rnd : nat -> byte)
    (body : CreateBody) (email name : string) (expiry : Z) :
  bodyCustomerEmail body = Some email -> trim email <> "" ->
  bodyCustomerName body = Some name -> trim name <> "" ->
  setMonth_add now (parseInt_or (bodyDurationMonths body) 12) = Some expiry ->
  truthy (bodyCustomerEmail body) = true /\ truthy (bodyCustomerName body) = true /\
  validation_messages (create_fields setMonth_add now rnd body) = [] /\
  newCustomerEmail (create_fields setMonth_add now rnd body) = trim email /\
  newCustomerName (create_fields setMonth_add now rnd body) = trim name.
Proof.
  intros He Hte Hn Htn Hx.
  assert (Ee : email <> "") by (intros ->; apply Hte; reflexivity).
  assert (En : name <> "") by (intros ->; apply Htn; reflexivity).
  unfold validation_messages, missing_required, create_fields.
  cbn [newLicenseKey newCustomerEmail newCustomerName newExpiryDate].
  rewrite He, Hn, Hx. unfold truthy, or_else.
  apply String.eqb_neq in Ee, En. rewrite Ee, En.
  apply String.eqb_neq in Hte, Htn. rewrite Hte, Htn.
  repeat split; reflexivity.
Qed.

(** The email of three spaces passes the check of the handler and is
    refused by the schema. *)
Lemma blank_email_is_refused (rnd : nat -> byte) (w : World) :
  run_handler (create_license Demo.setMonth_add 1000 rnd blank_email_body) w =
    (json 500 [("success", JBool false);
               ("error", JStr "License validation failed: customerEmail: Path `customerEmail` is required.")],
     w).
Proof. rewrite create_cases. reflexivity. Qed.

(** A field that is not blank passes the check of the handler and is not
    trimmed to the empty string. *)
Lemma filled_field (x : option string) :
  blank x = false -> exists s, x = Some s /\ trim s <> "".
Proof.
  destruct x as [s|]; [|discriminate]. simpl. intros H. exists s. split; [reflexivity|].
  intros E. apply only_space_trim in E. congruence.
Qed.

(** C7. Create-license validates that the customer email and the customer
    name are not blank, a blank field being one that is absent, empty or
    white space only. It refuses every body in which one of them is blank
    with an answer that reports a validation failure, and stores nothing:
    the store is left exactly as it was, whatever store calls would throw.
    When a field is absent or empty as sent the answer is the 400 answer of
    the handler's own check; when both fields pass that check, which looks
    at them before they are trimmed, the blank one is trimmed to the empty
    string and [License.create] rejects the document with a
    [ValidationError] before anything is sent to the store, which the
    [catch] clause answers with status 500 and the message of the error.
    And a body whose two names are not blank is not refused by validation,
    provided the expiry date the handler computes is a date. *)
Theorem create_license_refuses_blank_names (setMonth_add : Z -> Z -> option Z) (now : Z)
    (rnd : nat -> byte) (body : CreateBody) (w : World) :
  (blank (bodyCustomerEmail body) = true \/ blank (bodyCustomerName body) = true ->
   validation_failure (fst (run_handler (create_license setMonth_add now rnd body) w)) /\
   snd (run_handler (create_license setMonth_add now rnd body) w) = w /\
   (status (fst (run_handler (create_license setMonth_add now rnd body) w)) = 400 <->
    truthy (bodyCustomerEmail body) = false \/ truthy (bodyCustomerName body) = false)) /\
  (blank (bodyCustomerEmail body) = false -> blank (bodyCustomerName body) = false ->
   is_Some (setMonth_add now (parseInt_or (bodyDurationMonths body) 12)) ->
   ~ validation_failure (fst (run_handler (create_license setMonth_add now rnd body) w))).
Proof.
  split.
  - intros Hb. rewrite create_cases. cbv zeta.
    destruct (truthy (bodyCustomerEmail body)) eqn:Te; cbn [negb orb].
    2:{ split; [left; reflexivity|]. split; [reflexivity|]. split; auto. }
    destruct (truthy (bodyCustomerName body)) eqn:Tn; cbn [negb orb].
    2:{ split; [left; reflexivity|]. split; [reflexivity|]. split; auto. }
    assert (Hm : validation_messages (create_fields setMonth_add now rnd body) <> []).
    { apply blank_field_rejected. cbn [create_fields newCustomerEmail newCustomerName].
      destruct Hb as [Hb|Hb]; [left | right]; apply blank_field_trimmed; assumption. }
    destruct (validation_messages (create_fields setMonth_add now rnd body)) as [|m ms] eqn:E;
      [contradiction|].
    split; [|split; [reflexivity|]].
    + right. exists (m :: ms). split; [discriminate | reflexivity].
    + cbn [fst status json]. split; [discriminate | intros [H|H]; discriminate H].
  - intros He Hn [expiry Hx].
    destruct (filled_field _ He) as (email & Ee & Hte).
    destruct (filled_field _ Hn) as (name & En & Htn).
    destruct (create_fields_complete setMonth_add now rnd body email name expiry
                Ee Hte En Htn Hx) as (Te & Tn & Hm & _ & _).
    rewrite create_cases. cbv zeta. rewrite Te, Tn, Hm. cbn [negb orb].
    destruct (throws 0 w); [|destruct (licenses w !! _)]; cbn [fst];
      intros [H | (ms & _ & H)]; discriminate H.
Qed.

Lemma create_license_refuses_blank_names_witness :
  (validation_failure
     (fst (run_handler (create_license Demo.setMonth_add 1000 Demo.rnd blank_name_body)
                       (empty_world []))) /\
   snd (run_handler (create_license Demo.setMonth_add 1000 Demo.rnd blank_name_body)
                    (empty_world [])) = empty_world [] /\
   (status (fst (run_handler (create_license Demo.setMonth_add 1000 Demo.rnd blank_name_body)
                             (empty_world []))) = 400 <->
    truthy (bodyCustomerEmail blank_name_body) = false \/
    truthy (bodyCustomerName blank_name_body) = false)) /\
  ~ validation_failure
      (fst (run_handler (create_license Demo.setMonth_add 1000 Demo.rnd demo_body)
                        (empty_world []))).
Proof.
  split.
  - apply (proj1 (create_license_refuses_blank_names Demo.setMonth_add 1000 Demo.rnd
                    blank_name_body (empty_world []))).
    right. reflexivity.
  - apply (proj2 (create_license_refuses_blank_names Demo.setMonth_add 1000 Demo.rnd
                    demo_body (empty_world []))).
    + reflexivity.
    + reflexivity.
    + eexists. reflexivity.
Defined.

(** ** The format of license keys *)

Lemma hex_of_byte_upper (b : byte) :
  is_upper_hex (upper_char (hex_digit (Byte.to_N b / 16))) = true /\
  is_upper_hex (upper_char (hex_digit (Byte.to_N b mod 16))) = true.
Proof. destruct b; split; vm_compute; reflexivity. Qed.

Lemma key_group_shape (rnd : nat -> byte) (i : nat) (rest : string) :
  String.length (key_group rnd i) = 4%nat /\
  hex_group 4 (key_group rnd i +:+ rest) = Some rest.
Proof.
  split; [reflexivity|].
  unfold key_group.
  cbn -[N.div N.modulo Byte.to_N hex_digit upper_char is_upper_hex Nat.mul Nat.add].
  cbv beta iota delta [String.append].
  destruct (hex_of_byte_upper (rnd (2 * i)%nat)) as [-> ->].
  destruct (hex_of_byte_upper (rnd (2 * i + 1)%nat)) as [-> ->].
  reflexivity.
Qed.

Lemma key_group_last (rnd : nat -> byte) (i : nat) :
  hex_group 4 (key_group rnd i) = Some "".
Proof.
  unfold key_group.
  cbn -[N.div N.modulo Byte.to_N hex_digit upper_char is_upper_hex Nat.mul Nat.add].
  destruct (hex_of_byte_upper (rnd (2 * i)%nat)) as [-> ->].
  destruct (hex_of_byte_upper (rnd (2 * i + 1)%nat)) as [-> ->].
  reflexivity.
Qed.

Lemma generate_key_groups (rnd : nat -> byte) :
  generate_key rnd =
    "BABYLON-" +:+ key_group rnd 0 +:+ "-" +:+ key_group rnd 1 +:+ "-" +:+ key_group rnd 2.
Proof. reflexivity. Qed.

Lemma strip_prefix_app (p s : string) : strip_prefix p (p +:+ s) = Some s.
Proof.
  induction p as [|c p IH]; [reflexivity|].
  change (String c p +:+ s) with (String c (p +:+ s)). simpl.
  rewrite Ascii.eqb_refl. exact IH.
Qed.

Lemma dash_app (s : string) : dash ("-" +:+ s) = Some s.
Proof. reflexivity. Qed.

Lemma generate_key_matches (rnd : nat -> byte) :
  matches_key_pattern "BABYLON" (generate_key rnd) = true.
Proof.
  rewrite generate_key_groups. unfold matches_key_pattern. cbv zeta.
  change ("BABYLON-" +:+ ?x) with ("BABYLON" +:+ ("-" +:+ x)).
  rewrite strip_prefix_app, dash_app.
  rewrite (proj2 (key_group_shape rnd 0 _)), dash_app.
  rewrite (proj2 (key_group_shape rnd 1 _)), dash_app.
  rewrite key_group_last. reflexivity.
Qed.

(** C8. Every license key of create-license is ["BABYLON"], a dash, and
    three groups joined by dashes, each group being the four upper-case
    hexadecimal digits of two random bytes, so that the key matches
    [BABYLON-[0-9A-F]{4}-[0-9A-F]{4}-[0-9A-F]{4}]; and a license that a
    create-license request adds to the store is stored under such a key,
    carries it as its [licenseKey], and the answer reports it. *)
Theorem license_key_format :
  (forall (rnd : nat -> byte),
      generate_key rnd =
        "BABYLON-" +:+ key_group rnd 0 +:+ "-" +:+ key_group rnd 1 +:+ "-" +:+ key_group rnd 2 /\
      (forall i, key_group rnd i =
                   toUpperCase (toString_hex [rnd (2 * i)%nat; rnd (2 * i + 1)%nat]) /\
                 String.length (key_group rnd i) = 4%nat /\
                 hex_group 4 (key_group rnd i) = Some "") /\
      matches_key_pattern "BABYLON" (generate_key rnd) = true) /\
  (forall (setMonth_add : Z -> Z -> option Z) (now : Z) (rnd : nat -> byte) (body : CreateBody)
          (w : World) (key : string) (l : License),
      licenses w !! key = None ->
      licenses (snd (run_handler (create_license setMonth_add now rnd body) w)) !! key
        = Some l ->
      key = generate_key rnd /\ licenseKey l = generate_key rnd /\
      matches_key_pattern "BABYLON" (licenseKey l) = true /\
      status (fst (run_handler (create_license setMonth_add now rnd body) w)) = 200 /\
      exists rest,
        field "license" (payload (fst (run_handler (create_license setMonth_add now rnd body) w)))
        = Some (JObj (("licenseKey", JStr (generate_key rnd)) :: rest))).
Proof.
  split.
  - intros rnd. split; [apply generate_key_groups|]. split; [|apply generate_key_matches].
    intros i. split; [reflexivity|]. split.
    + apply (key_group_shape rnd i "").
    + apply key_group_last.
  - intros setMonth_add now rnd body w key l Hnone Hl.
    rewrite create_cases in Hl |- *. cbv zeta in Hl |- *.
    destruct (negb (truthy (bodyCustomerEmail body)) || negb (truthy (bodyCustomerName body))).
    { simpl in Hl. congruence. }
    destruct (validation_messages (create_fields setMonth_add now rnd body)).
    2:{ simpl in Hl. congruence. }
    destruct (throws 0 w).
    { simpl in Hl. rewrite advance_licenses in Hl. congruence. }
    destruct (licenses w !! newLicenseKey (create_fields setMonth_add now rnd body)).
    { simpl in Hl. rewrite advance_licenses in Hl. congruence. }
    cbn [fst snd licenses] in Hl |- *.
    destruct (decide (newLicenseKey (create_fields setMonth_add now rnd body) = key))
      as [E|Hne].
    + rewrite E, lookup_insert_eq in Hl. inversion Hl; subst l. simpl in E. subst key.
      repeat split; [apply generate_key_matches|]. eexists. reflexivity.
    + rewrite lookup_insert_ne in Hl by exact Hne. congruence.
Qed.

Lemma license_key_format_witness :
  Demo.key = generate_key Demo.rnd /\ licenseKey Demo.issued = generate_key Demo.rnd /\
  matches_key_pattern "BABYLON" (licenseKey Demo.issued) = true /\
  status (fst (run_handler (create_license Demo.setMonth_add 1000 Demo.rnd demo_body)
                           (empty_world []))) = 200 /\
  exists rest,
    field "license"
      (payload (fst (run_handler (create_license Demo.setMonth_add 1000 Demo.rnd demo_body)
                                 (empty_world []))))
    = Some (JObj (("licenseKey", JStr (generate_key Demo.rnd)) :: rest)).
Proof.
  apply (proj2 license_key_format Demo.setMonth_add 1000 Demo.rnd demo_body
           (empty_world []) Demo.key Demo.issued).
  - reflexivity.
  - vm_compute. reflexivity.
Defined.


(** * Further properties of the routes *)

(** ** Where a stored license comes from *)

Lemma effect_new_key (now : Z) (req : Request) (m m' : gmap string License)
    (key : string) (l : License) :
  Effect now req m m' -> m !! key = None -> m' !! key = Some l ->
  exists rnd body, req = CreateLicense rnd body.
Proof.
  intros He Hnone Hl.
  destruct He as [| key0 dev l0 _ Hk _ _ | key0 dev fp l0 _ Hk _ _ _
                  | rnd body f Hreq _ _ | key0 l0 _ Hk ].
  - congruence.
  - apply by_key_Some in Hk as [Hk _]. destruct (decide (key0 = key)) as [->|Hne].
    + congruence.
    + rewrite lookup_insert_ne in Hl by exact Hne. congruence.
  - apply by_key_Some in Hk as [Hk _]. destruct (decide (key0 = key)) as [->|Hne].
    + congruence.
    + rewrite lookup_insert_ne in Hl by exact Hne. congruence.
  - eauto.
  - apply by_key_Some in Hk as [Hk _]. destruct (decide (key0 = key)) as [->|Hne].
    + congruence.
    + rewrite lookup_insert_ne in Hl by exact Hne. congruence.
Qed.

Lemma validation_messages_nil (f : NewLicense) :
  validation_messages f = [] <-> is_Some (newExpiryDate f) /\ missing_required f = [].
Proof.
  unfold validation_messages. destruct (newExpiryDate f) as [e|]; simpl.
  - split.
    + intros H. split; [eauto|]. destruct (missing_required f); [reflexivity | discriminate].
    + intros [_ ->]. reflexivity.
  - split; [discriminate | intros [[e He] _]; discriminate].
Qed.

Lemma create_new_license (setMonth_add : Z -> Z -> option Z) (now : Z) (rnd : nat -> byte)
    (body : CreateBody) (w : World) (key : string) (l : License) :
  licenses w !! key = None ->
  licenses (snd (run_handler (create_license setMonth_add now rnd body) w)) !! key = Some l ->
  key = generate_key rnd /\
  l = new_document now (create_fields setMonth_add now rnd body) /\
  missing_required (create_fields setMonth_add now rnd body) = [] /\
  truthy (bodyCustomerEmail body) = true /\ truthy (bodyCustomerName body) = true.
Proof.
  intros Hnone Hl. rewrite create_cases in Hl. cbv zeta in Hl.
  destruct (truthy (bodyCustomerEmail body)) eqn:Te;
    [|simpl in Hl; congruence].
  destruct (truthy (bodyCustomerName body)) eqn:Tn;
    [|simpl in Hl; congruence].
  cbn [negb orb] in Hl.
  destruct (validation_messages (create_fields setMonth_add now rnd body)) eqn:Hm.
  2:{ simpl in Hl. congruence. }
  destruct (throws 0 w).
  { simpl in Hl. rewrite advance_licenses in Hl. congruence. }
  destruct (licenses w !! newLicenseKey (create_fields setMonth_add now rnd body)).
  { simpl in Hl. rewrite advance_licenses in Hl. congruence. }
  cbn [fst snd licenses] in Hl.
  destruct (decide (newLicenseKey (create_fields setMonth_add now rnd body) = key))
    as [E|Hne].
  - rewrite E, lookup_insert_eq in Hl. inversion Hl; subst l. simpl in E.
    apply validation_messages_nil in Hm as [_ Hm].
    repeat split; congruence.
  - rewrite lookup_insert_ne in Hl by exact Hne. congruence.
Qed.

(** A property of licenses that creation establishes and that the three
    changes of a stored license keep holds in every store reached from the
    empty one. *)
Section Reachable.

Variable P : string -> License -> Prop.

Hypothesis P_created :
  forall (setMonth_add : Z -> Z -> option Z) (now : Z) (rnd : nat -> byte) (body : CreateBody),
    missing_required (create_fields setMonth_add now rnd body) = [] ->
    P (generate_key rnd) (new_document now (create_fields setMonth_add now rnd body)).
Hypothesis P_touched : forall k d t l, P k l -> P k (touched d t l).
Hypothesis P_appended :
  forall k d t fp l,
    P k l -> find_activation d (deviceActivations l) = None ->
    currentActivations l < maxActivations l -> P k (appended d t fp l).
Hypothesis P_deactivated : forall k l, P k l -> P k (set_isActive false l).

Lemma serve_keeps (setMonth_add : Z -> Z -> option Z) (now : Z) (req : Request) (w : World) :
  map_Forall P (licenses w) ->
  map_Forall P (licenses (snd (serve setMonth_add now req w))).
Proof.
  intros Hw key l' Hl'.
  pose proof (serve_effect setMonth_add now req w) as He.
  destruct (licenses w !! key) as [l|] eqn:Hl.
  - destruct (effect_on_license now req _ _ key l l' He Hl Hl')
      as [-> | [[dev ->] | [(dev & fp & _ & Hd & Hlt & ->) | [_ ->]]]].
    + exact (Hw _ _ Hl).
    + apply P_touched. exact (Hw _ _ Hl).
    + apply P_appended; [exact (Hw _ _ Hl) | exact Hd | exact Hlt].
    + apply P_deactivated. exact (Hw _ _ Hl).
  - destruct (effect_new_key now req _ _ key l' He Hl Hl') as (rnd & body & ->).
    unfold serve, route in Hl'.
    destruct (create_new_license setMonth_add now rnd body w key l' Hl Hl')
      as (-> & -> & Hm & _ & _).
    apply P_created. exact Hm.
Qed.

Lemma serve_all_keeps (setMonth_add : Z -> Z -> option Z) (reqs : list (Z * Request)) (w : World) :
  map_Forall P (licenses w) ->
  map_Forall P (licenses (serve_all setMonth_add reqs w)).
Proof.
  revert w. induction reqs as [|[now req] reqs IH]; intros w Hw; simpl; [exact Hw|].
  apply IH. apply serve_keeps. exact Hw.
Qed.

Lemma reachable_keeps (setMonth_add : Z -> Z -> option Z) (reqs : list (Z * Request))
    (fs : list bool) (key : string) (l : License) :
  licenses (serve_all setMonth_add reqs (empty_world fs)) !! key = Some l -> P key l.
Proof.
  intros H. refine (serve_all_keeps setMonth_add reqs (empty_world fs) _ key l H).
  apply map_Forall_empty.
Qed.

End Reachable.

(** ** Invariants of the stored licenses *)

Lemma missing_required_nil (f : NewLicense) :
  missing_required f = [] ->
  newLicenseKey f <> "" /\ newCustomerEmail f <> "" /\ newCustomerName f <> "".
Proof.
  unfold missing_required.
  destruct (String.eqb_spec (newLicenseKey f) ""); [discriminate|].
  destruct (String.eqb_spec (newCustomerEmail f) ""); [discriminate|].
  destruct (String.eqb_spec (newCustomerName f) ""); [discriminate|].
  auto.
Qed.

Lemma or_else_not_empty (x : option string) (d : string) : d <> "" -> or_else x d <> "".
Proof.
  intros Hd. unfold or_else. destruct x as [s|]; [|exact Hd].
  destruct (String.eqb_spec s ""); [exact Hd | assumption].
Qed.

Lemma parseInt_or_not_zero (x : option SafeInteger) (d : Z) :
  d <> 0 -> parseInt_or x d <> 0.
Proof.
  intros Hd. unfold parseInt_or. destruct x as [n|]; [|exact Hd].
  destruct (Z.eqb_spec (integer n) 0); [exact Hd | assumption].
Qed.

(** X1. In every store reached by serving requests one after the other
    from the empty store, whatever store calls throw, no license holds two
    activations of the same device id. *)
Theorem device_ids_are_unique (setMonth_add : Z -> Z -> option Z) (reqs : list (Z * Request))
    (fs : list bool) (key : string) (l : License) :
  licenses (serve_all setMonth_add reqs (empty_world fs)) !! key = Some l ->
  NoDup (device_ids l).
Proof.
  apply (reachable_keeps (fun _ l => NoDup (device_ids l))).
  - intros. apply NoDup_nil_2.
  - intros k d t l0 H. unfold device_ids, touched. simpl.
    rewrite touch_activation_ids. exact H.
  - intros k d t fp l0 H Hd _. unfold device_ids, appended. simpl.
    rewrite map_app. simpl. apply NoDup_app. split; [exact H|]. split.
    + intros x Hx Hin. apply list_elem_of_singleton in Hin. subst x.
      apply find_activation_None_iff in Hd. contradiction.
    + apply NoDup_singleton.
  - intros k l0 H. exact H.
Qed.

Lemma device_ids_are_unique_witness : NoDup (device_ids Demo.full).
Proof.
  apply (device_ids_are_unique Demo.setMonth_add demo_requests [] Demo.key Demo.full).
  vm_compute. reflexivity.
Defined.

(** X2. Every license of a store reached from the empty store is stored
    under its own [licenseKey], has a [customerEmail] and a [customerName]
    that are not empty and carry no white space at either end, a
    [maxActivations] other than 0, the schema version 1.0 and a plan type
    that is not empty. *)
Theorem stored_licenses_are_well_issued (setMonth_add : Z -> Z -> option Z)
    (reqs : list (Z * Request)) (fs : list bool) (key : string) (l : License) :
  licenses (serve_all setMonth_add reqs (empty_world fs)) !! key = Some l ->
  well_issued key l.
Proof.
  apply (reachable_keeps well_issued).
  - intros sm now rnd body Hm. apply missing_required_nil in Hm as (_ & He & Hn).
    unfold well_issued. simpl in *. repeat split.
    + exact He.
    + apply trim_idempotent.
    + exact Hn.
    + apply trim_idempotent.
    + apply parseInt_or_not_zero. discriminate.
    + apply or_else_not_empty. discriminate.
  - intros k d t l0 H. exact H.
  - intros k d t fp l0 H _ _. exact H.
  - intros k l0 H. exact H.
Qed.

Lemma stored_licenses_are_well_issued_witness : well_issued Demo.key Demo.full.
Proof.
  apply (stored_licenses_are_well_issued Demo.setMonth_add demo_requests [] Demo.key Demo.full).
  vm_compute. reflexivity.
Defined.

(** X3. A license whose [maxActivations] is zero or negative (create-license
    accepts a negative number) never gets an activation: in every store
    reached from the empty store it has no device activation, and every
    activate request for its key is answered with [valid: false]. *)
Theorem no_activation_without_capacity (setMonth_add : Z -> Z -> option Z)
    (reqs : list (Z * Request)) (fs : list bool) (key : string) (l : License) :
  let w := serve_all setMonth_add reqs (empty_world fs) in
  licenses w !! key = Some l ->
  maxActivations l <= 0 ->
  deviceActivations l = [] /\
  forall (now : Z) (dev : string) (fp : option string),
    valid (fst (run_handler (activate_license now key dev fp) w)) = false.
Proof.
  intros w Hl Hmax.
  assert (Hinv : counted l /\
                 Z.of_nat (length (deviceActivations l)) <= Z.max 0 (maxActivations l)).
  { revert Hl. unfold w.
    apply (reachable_keeps
             (fun _ l => counted l /\
                Z.of_nat (length (deviceActivations l)) <= Z.max 0 (maxActivations l))).
    - intros. unfold counted. simpl. lia.
    - intros k d t l0 H. unfold counted, touched in *. simpl.
      rewrite touch_activation_length. exact H.
    - intros k d t fp l0 [Hc Hb] _ Hlt. unfold counted, appended in *. simpl.
      rewrite length_app. simpl. lia.
    - intros k l0 H. exact H. }
  destruct Hinv as [Hc Hb].
  assert (Hnil : deviceActivations l = []).
  { destruct (deviceActivations l); [reflexivity|]. simpl in Hb. lia. }
  split; [exact Hnil|]. intros now dev fp.
  destruct (throws 0 w) eqn:Hf.
  { rewrite activate_thrown by exact Hf. reflexivity. }
  destruct (by_key (licenses w) key) as [l0|] eqn:Hk.
  2:{ rewrite activate_not_found by eauto using absent_not_found. reflexivity. }
  assert (l0 = l) by (apply by_key_Some in Hk as [Hk _]; congruence). subst l0.
  destruct (isActive l) eqn:Ha.
  2:{ rewrite activate_not_found by eauto using not_active_not_found. reflexivity. }
  destruct (now >? expiryDate l) eqn:He.
  { rewrite (activate_expired now key dev fp w l) by auto. reflexivity. }
  rewrite (activate_fresh now key dev fp w l) by (auto; rewrite Hnil; reflexivity).
  unfold counted in Hc. rewrite Hnil in Hc. simpl in Hc.
  replace (currentActivations l >=? maxActivations l) with true; [reflexivity|].
  symmetry. rewrite Z.geb_leb. apply Z.leb_le. lia.
Qed.

Lemma no_activation_without_capacity_witness :
  deviceActivations negative_license = [] /\
  forall (now : Z) (dev : string) (fp : option string),
    valid (fst (run_handler (activate_license now Demo.key dev fp)
                  (serve_all Demo.setMonth_add
                     [(1000, CreateLicense Demo.rnd negative_body)] (empty_world []))))
    = false.
Proof.
  apply (no_activation_without_capacity Demo.setMonth_add
           [(1000, CreateLicense Demo.rnd negative_body)] [] Demo.key negative_license).
  - vm_compute. reflexivity.
  - simpl. lia.
Defined.

(** ** What no request changes *)

Lemma later_state_refl (l : License) : later_state l l.
Proof. unfold later_state. repeat split; auto. Qed.

Lemma later_state_trans (l1 l2 l3 : License) :
  later_state l1 l2 -> later_state l2 l3 -> later_state l1 l3.
Proof.
  unfold later_state.
  intros (A1 & A2 & A3 & A4 & A5 & A6 & A7 & A8 & A9)
         (B1 & B2 & B3 & B4 & B5 & B6 & B7 & B8 & B9).
  repeat split; try congruence.
  - etrans; eassumption.
  - auto.
Qed.

Lemma touch_activation_set_once (d : string) (t : Z) (ds : list DeviceActivation) :
  map set_once (touch_activation d t ds) = map set_once ds.
Proof.
  induction ds as [|a ds IH]; simpl; [reflexivity|].
  destruct (String.eqb (deviceId a) d); simpl; [reflexivity | congruence].
Qed.

Lemma serve_later_state (setMonth_add : Z -> Z -> option Z) (now : Z) (req : Request)
    (w : World) (key : string) (l : License) :
  licenses w !! key = Some l ->
  exists l', licenses (snd (serve setMonth_add now req w)) !! key = Some l' /\
             later_state l l'.
Proof.
  intros Hl. pose proof (serve_effect setMonth_add now req w) as He.
  assert (Hsome : is_Some (licenses (snd (serve setMonth_add now req w)) !! key)).
  { destruct He as [| key0 dev l0 _ _ _ _ | key0 dev fp l0 _ _ _ _ _
                    | rnd body f _ _ _ | key0 l0 _ _ ]; [eauto|..];
      match goal with |- is_Some (<[?k := _]> _ !! _) =>
        destruct (decide (k = key)) as [->|Hne];
        [rewrite lookup_insert_eq | rewrite lookup_insert_ne by exact Hne]; eauto end. }
  destruct Hsome as [l' Hl']. exists l'. split; [exact Hl'|].
  destruct (effect_on_license now req _ _ key l l' He Hl Hl')
    as [-> | [[dev ->] | [(dev & fp & _ & _ & _ & ->) | [_ ->]]]].
  - apply later_state_refl.
  - unfold later_state, touched. simpl. rewrite touch_activation_set_once.
    repeat split; auto.
  - unfold later_state, appended. simpl. rewrite map_app.
    repeat split; auto. apply prefix_app_r. reflexivity.
  - unfold later_state. simpl. repeat split; auto. discriminate.
Qed.

(** X4. No request removes a license or rewrites what was fixed at its
    creation or at an activation: along any sequence of requests a stored
    license stays stored under its key with the same [licenseKey], customer
    email and name, purchase and expiry dates, [maxActivations] and
    metadata; its activations stay the first ones of the later list, in
    order, each with its device id, activation date and device info; and an
    inactive license never becomes active again. *)
Theorem licenses_only_grow (setMonth_add : Z -> Z -> option Z) (reqs : list (Z * Request))
    (w : World) (key : string) (l : License) :
  licenses w !! key = Some l ->
  exists l', licenses (serve_all setMonth_add reqs w) !! key = Some l' /\
             later_state l l'.
Proof.
  revert w l. induction reqs as [|[now req] reqs IH]; intros w l Hl; simpl.
  - exists l. split; [exact Hl | apply later_state_refl].
  - destruct (serve_later_state setMonth_add now req w key l Hl) as (l1 & Hl1 & H1).
    destruct (IH _ _ Hl1) as (l2 & Hl2 & H2).
    exists l2. split; [exact Hl2 | exact (later_state_trans _ _ _ H1 H2)].
Qed.

Lemma licenses_only_grow_witness :
  exists l', licenses (serve_all Demo.setMonth_add
                         [(2000, ActivateLicense Demo.key "D1" None);
                          (3000, DeactivateLicense Demo.key)]
                         (Demo.world Demo.issued [])) !! Demo.key = Some l' /\
             later_state Demo.issued l'.
Proof.
  apply (licenses_only_grow Demo.setMonth_add
           [(2000, ActivateLicense Demo.key "D1" None); (3000, DeactivateLicense Demo.key)]
           (Demo.world Demo.issued []) Demo.key Demo.issued).
  vm_compute. reflexivity.
Defined.

(** ** The time of the last validation *)

Lemma find_touch_same (d : string) (t : Z) (ds : list DeviceActivation)
    (a : DeviceActivation) :
  find_activation d ds = Some a ->
  find_activation d (touch_activation d t ds) = Some (set_lastValidation t a).
Proof.
  unfold find_activation. induction ds as [|b ds IH]; simpl; [discriminate|].
  destruct (String.eqb (deviceId b) d) eqn:E; simpl.
  - rewrite E. congruence.
  - rewrite E. exact IH.
Qed.

Lemma find_touch_other (d d' : string) (t : Z) (ds : list DeviceActivation) :
  d' <> d ->
  find_activation d' (touch_activation d t ds) = find_activation d' ds.
Proof.
  intros Hne. unfold find_activation. induction ds as [|b ds IH]; simpl; [reflexivity|].
  destruct (String.eqb (deviceId b) d) eqn:E; simpl.
  - apply String.eqb_eq in E.
    destruct (String.eqb_spec (deviceId b) d'); [congruence | reflexivity].
  - destruct (String.eqb (deviceId b) d'); [reflexivity | exact IH].
Qed.

(** X5. A validate request, and an activate request of a device that is
    already bound, that succeed on an active, unexpired license store the
    request time as [lastValidation] of that device's activation, keep its
    device id, activation date and device info, and leave the activation
    of every other device as it was. *)
Theorem last_validation_is_recorded (now : Z) (key dev : string) (fp : option string)
    (w : World) (l : License) (a : DeviceActivation) :
  by_key (licenses w) key = Some l ->
  isActive l = true ->
  now <= expiryDate l ->
  find_activation dev (deviceActivations l) = Some a ->
  throws 0 w = false ->
  throws 1 w = false ->
  validation_recorded key dev now a l
    (snd (run_handler (validate_license now key dev) w)) /\
  validation_recorded key dev now a l
    (snd (run_handler (activate_license now key dev fp) w)).
Proof.
  intros Hk Ha He Hd Hf0 Hf1.
  apply not_expired in He.
  assert (Hs : is_Some (find_activation dev (deviceActivations l))) by eauto.
  rewrite (validate_existing now key dev w l Hk Ha He Hs Hf0), Hf1.
  rewrite (activate_existing now key dev fp w l Hk Ha He Hs Hf0), Hf1.
  cbn [snd]. apply by_key_Some in Hk as [Hk Hkey].
  assert (H : validation_recorded key dev now a l
                (saved (touched dev now l) (advance (advance w)))).
  { exists (touched dev now l). split; [|split].
    - apply by_key_Some. simpl. rewrite Hkey, lookup_insert_eq. auto.
    - simpl. apply find_touch_same. exact Hd.
    - intros d Hne. simpl. apply find_touch_other. exact Hne. }
  split; exact H.
Qed.

Lemma last_validation_is_recorded_witness :
  validation_recorded Demo.key "D1" 3000 (mkDeviceActivation "D1" 2000 2000 "{}") Demo.full
    (snd (run_handler (validate_license 3000 Demo.key "D1") (Demo.world Demo.full []))) /\
  validation_recorded Demo.key "D1" 3000 (mkDeviceActivation "D1" 2000 2000 "{}") Demo.full
    (snd (run_handler (activate_license 3000 Demo.key "D1" None)
                      (Demo.world Demo.full []))).
Proof.
  apply (last_validation_is_recorded 3000 Demo.key "D1" None
           (Demo.world Demo.full []) Demo.full (mkDeviceActivation "D1" 2000 2000 "{}")).
  - reflexivity.
  - reflexivity.
  - simpl. lia.
  - reflexivity.
  - reflexivity.
  - reflexivity.
Defined.

(** ** Expired licenses *)

(** X6. Once the request time is past [expiryDate], validate and activate
    both refuse an active license with their expired answers, whether or
    not the device is bound and whatever capacity is left, and neither
    writes to the store. *)
Theorem expired_license_is_refused (now : Z) (key dev : string) (fp : option string)
    (w : World) (l : License) :
  by_key (licenses w) key = Some l ->
  isActive l = true ->
  expiryDate l < now ->
  throws 0 w = false ->
  run_handler (validate_license now key dev) w =
    (json 200 [("valid", JBool false); ("message", JStr "License has expired")],
     mkWorld (licenses w) (usages w) (faults (advance w))) /\
  run_handler (activate_license now key dev fp) w =
    (json 200 [("valid", JBool false);
               ("message", JStr "License has expired. Please contact support.")],
     mkWorld (licenses w) (usages w) (faults (advance w))).
Proof.
  intros Hk Ha He Hf.
  assert (Hgt : (now >? expiryDate l) = true).
  { rewrite Z.gtb_ltb. apply Z.ltb_lt. exact He. }
  assert (Hw : advance w = mkWorld (licenses w) (usages w) (faults (advance w))).
  { rewrite <- (advance_licenses w), <- (advance_usages w). destruct (advance w); reflexivity. }
  split.
  - enter_route. rewrite (find_one_active w key l Hk Ha Hf), Hgt. simpl.
    rewrite <- Hw. reflexivity.
  - rewrite (activate_expired now key dev fp w l Hk Ha Hgt Hf), <- Hw. reflexivity.
Qed.

Lemma expired_license_is_refused_witness :
  run_handler (validate_license 2592001001 Demo.key "D1") (Demo.world Demo.full []) =
    (json 200 [("valid", JBool false); ("message", JStr "License has expired")],
     mkWorld (licenses (Demo.world Demo.full [])) (usages (Demo.world Demo.full []))
             (faults (advance (Demo.world Demo.full [])))) /\
  run_handler (activate_license 2592001001 Demo.key "D1" None) (Demo.world Demo.full []) =
    (json 200 [("valid", JBool false);
               ("message", JStr "License has expired. Please contact support.")],
     mkWorld (licenses (Demo.world Demo.full [])) (usages (Demo.world Demo.full []))
             (faults (advance (Demo.world Demo.full [])))).
Proof.
  apply (expired_license_is_refused 2592001001 Demo.key "D1" None
           (Demo.world Demo.full []) Demo.full).
  - reflexivity.
  - reflexivity.
  - simpl. lia.
  - reflexivity.
Defined.

(** ** Activation followed by validation *)

(** X7. After an activate request that was answered with [valid: true],
    whether it bound the device or found it bound, a validate request for
    the same key and device up to the expiry date, whose store calls
    succeed, is answered with [valid: true] and the expiry date, customer
    name and plan type of the license. *)
Theorem activated_device_validates (t1 t2 : Z) (key dev : string) (fp : option string)
    (w : World) (l : License) :
  by_key (licenses w) key = Some l ->
  valid (fst (run_handler (activate_license t1 key dev fp) w)) = true ->
  t2 <= expiryDate l ->
  throws 0 (snd (run_handler (activate_license t1 key dev fp) w)) = false ->
  throws 1 (snd (run_handler (activate_license t1 key dev fp) w)) = false ->
  fst (run_handler (validate_license t2 key dev)
         (snd (run_handler (activate_license t1 key dev fp) w))) =
    json 200 [("valid", JBool true);
              ("message", JStr "License is valid");
              ("expiry_date", JDate (expiryDate l));
              ("customer_name", JStr (customerName l));
              ("plan_type", JStr (planType (metadata l)))].
Proof.
  intros Hk Hv He2. apply not_expired in He2.
  apply by_key_Some in Hk as Hk'. destruct Hk' as [_ Hkey].
  assert (Hcase : exists l1,
            snd (run_handler (activate_license t1 key dev fp) w)
            = saved l1 (advance (advance w)) /\
            licenseKey l1 = key /\ isActive l1 = true /\
            expiryDate l1 = expiryDate l /\ customerName l1 = customerName l /\
            metadata l1 = metadata l /\
            is_Some (find_activation dev (deviceActivations l1))).
  { destruct (throws 0 w) eqn:Hf.
    { rewrite activate_thrown in Hv by exact Hf. discriminate Hv. }
    destruct (isActive l) eqn:Ha.
    2:{ rewrite activate_not_found in Hv by eauto using not_active_not_found.
        discriminate Hv. }
    destruct (t1 >? expiryDate l) eqn:He.
    { rewrite (activate_expired t1 key dev fp w l) in Hv by auto. discriminate Hv. }
    destruct (find_activation dev (deviceActivations l)) as [a|] eqn:Hd.
    - rewrite (activate_existing t1 key dev fp w l) in Hv |- * by eauto.
      destruct (throws 1 w); [discriminate Hv|].
      exists (touched dev t1 l). repeat split; auto.
      apply find_activation_Some_iff. simpl. rewrite touch_activation_ids.
      apply find_activation_Some_iff. eauto.
    - rewrite (activate_fresh t1 key dev fp w l) in Hv |- * by auto.
      destruct (currentActivations l >=? maxActivations l); [discriminate Hv|].
      destruct (throws 1 w); [discriminate Hv|].
      exists (appended dev t1 fp l). repeat split; auto.
      apply find_activation_Some_iff. simpl. rewrite map_app.
      apply elem_of_app. right. simpl. left. }
  destruct Hcase as (l1 & -> & Hkey1 & Ha1 & E1 & E2 & E3 & Hd1).
  intros Hf0 Hf1.
  assert (Hk1 : by_key (licenses (saved l1 (advance (advance w)))) key = Some l1).
  { apply by_key_Some. simpl. rewrite Hkey1, lookup_insert_eq. auto. }
  rewrite <- E1 in He2.
  rewrite (validate_existing t2 key dev _ l1 Hk1 Ha1 He2 Hd1 Hf0), Hf1.
  simpl. rewrite E1, E2, E3. reflexivity.
Qed.

Lemma activated_device_validates_witness :
  fst (run_handler (validate_license 3000 Demo.key "D1")
         (snd (run_handler (activate_license 2000 Demo.key "D1" None)
                           (Demo.world Demo.issued [])))) =
    json 200 [("valid", JBool true);
              ("message", JStr "License is valid");
              ("expiry_date", JDate (expiryDate Demo.issued));
              ("customer_name", JStr (customerName Demo.issued));
              ("plan_type", JStr (planType (metadata Demo.issued)))].
Proof.
  apply (activated_device_validates 2000 3000 Demo.key "D1" None
           (Demo.world Demo.issued []) Demo.issued).
  - reflexivity.
  - reflexivity.
  - simpl. lia.
  - reflexivity.
  - reflexivity.
Defined.

(** ** Creation on a key that is taken *)

(** X8. A create-license request whose fields pass validation, the two
    names holding more than white space and the expiry date the handler
    computes being a date, but whose generated key is already that of a
    stored license, is answered with status 400 and the key-exists message
    of the duplicate-key branch, and the stored licenses, the old one of
    that key among them, and the usage events stay as they are. *)
Theorem create_license_on_taken_key (setMonth_add : Z -> Z -> option Z) (now : Z)
    (rnd : nat -> byte) (body : CreateBody) (email name : string) (expiry : Z)
    (w : World) (l0 : License) :
  bodyCustomerEmail body = Some email -> trim email <> "" ->
  bodyCustomerName body = Some name -> trim name <> "" ->
  setMonth_add now (parseInt_or (bodyDurationMonths body) 12) = Some expiry ->
  licenses w !! generate_key rnd = Some l0 ->
  throws 0 w = false ->
  run_handler (create_license setMonth_add now rnd body) w =
    (json 400 [("success", JBool false);
               ("error", JStr "License key already exists. Please try again.")],
     mkWorld (licenses w) (usages w) (faults (advance w))).
Proof.
  intros He Hte Hn Htn Hx Hl0 Hf.
  destruct (create_fields_complete setMonth_add now rnd body email name expiry
              He Hte Hn Htn Hx)
    as (Te & Tn & Hm & _ & _).
  rewrite create_cases. cbv zeta. rewrite Te, Tn, Hm, Hf. cbn [negb orb].
  change (newLicenseKey (create_fields setMonth_add now rnd body)) with (generate_key rnd).
  rewrite Hl0. rewrite <- (advance_licenses w), <- (advance_usages w).
  destruct (advance w); reflexivity.
Qed.

Lemma create_license_on_taken_key_witness :
  run_handler (create_license Demo.setMonth_add 5000 Demo.rnd demo_body)
              (Demo.world Demo.full []) =
    (json 400 [("success", JBool false);
               ("error", JStr "License key already exists. Please try again.")],
     mkWorld (licenses (Demo.world Demo.full [])) (usages (Demo.world Demo.full []))
             (faults (advance (Demo.world Demo.full [])))).
Proof.
  apply (create_license_on_taken_key Demo.setMonth_add 5000 Demo.rnd demo_body
           "a@b.com" "A" 2592005000 (Demo.world Demo.full []) Demo.full).
  - reflexivity.
  - discriminate.
  - reflexivity.
  - discriminate.
  - reflexivity.
  - reflexivity.
  - reflexivity.
Defined.

(** ** Deactivation where nothing is active *)

Lemma set_isActive_same (l : License) : isActive l = false -> set_isActive false l = l.
Proof. destruct l. simpl. intros ->. reflexivity. Qed.

(** X9. A deactivate request for a key that has no active license changes
    no license and no usage event: when no license has the key the answer is
    404 'License not found', and when the license of the key is already
    inactive the answer is the same success answer as for the first
    deactivation. *)
Theorem deactivate_without_active_license (key : string) (w : World) :
  (forall l, by_key (licenses w) key = Some l -> isActive l = false) ->
  throws 0 w = false ->
  run_handler (deactivate_license key) w =
    (match by_key (licenses w) key with
     | None => json 404 [("error", JStr "License not found")]
     | Some _ => json 200 [("success", JBool true); ("message", JStr "License deactivated")]
     end,
     mkWorld (licenses w) (usages w) (faults (advance w))).
Proof.
  intros Hina Hf. rewrite deactivate_cases, Hf.
  destruct (by_key (licenses w) key) as [l|] eqn:Hk.
  - rewrite (set_isActive_same l (Hina l eq_refl)).
    apply by_key_Some in Hk as [Hk _]. rewrite (insert_id _ _ _ Hk). reflexivity.
  - rewrite <- (advance_licenses w), <- (advance_usages w).
    destruct (advance w); reflexivity.
Qed.

Lemma deactivate_without_active_license_witness :
  run_handler (deactivate_license "BABYLON-0000-0000-0000") (Demo.world Demo.full []) =
    (json 404 [("error", JStr "License not found")],
     mkWorld (licenses (Demo.world Demo.full [])) (usages (Demo.world Demo.full []))
             (faults (advance (Demo.world Demo.full [])))).
Proof.
  apply (deactivate_without_active_license "BABYLON-0000-0000-0000"
           (Demo.world Demo.full [])).
  - intros l H. vm_compute in H. discriminate H.
  - reflexivity.
Defined.

(** ** The admin middleware *)

Lemma startsWith_substring (p s t : string) :
  startsWith s p = true /\ substring_from (String.length p) s = t <-> s = p +:+ t.
Proof.
  revert s. induction p as [|c p IH]; intros s.
  - simpl. split; [intros [_ H]; exact H | intros ->; split; reflexivity].
  - destruct s as [|d s]; simpl.
    + split; [intros [H _]; discriminate | intros H; discriminate].
    + change (String c p +:+ t) with (String c (p +:+ t)). split.
      * intros [H1 H2]. apply andb_true_iff in H1 as [Hc Hp].
        apply Ascii.eqb_eq in Hc. subst d. f_equal. apply IH. auto.
      * intros H. inversion H; subst. rewrite Ascii.eqb_refl. simpl.
        apply IH. reflexivity.
Qed.

Lemma bearer_not_empty (tok : string) : String.eqb ("Bearer " +:+ tok) "" = false.
Proof. reflexivity. Qed.

Lemma admin_gate_open (ADMIN_TOKEN : string) :
  authenticateAdmin ADMIN_TOKEN (Some ("Bearer " +:+ ADMIN_TOKEN)) = Next.
Proof.
  unfold authenticateAdmin. unfold truthy, or_else.
  rewrite bearer_not_empty. cbn [negb orb].
  destruct (proj2 (startsWith_substring "Bearer " ("Bearer " +:+ ADMIN_TOKEN) ADMIN_TOKEN)
              eq_refl) as [-> Hsub].
  cbn [negb]. cbv zeta. change 7%nat with (String.length "Bearer ").
  rewrite Hsub, String.eqb_refl. reflexivity.
Qed.

(** X10. The two versions of [authenticateAdmin] let the same requests
    through: exactly those whose [Authorization] header is ["Bearer "]
    followed by the admin token. Every other request to a route behind the
    later middleware is answered with status 401 without the handler being
    run, so the store is left as it is. *)
Theorem admin_gate_opens_for_the_token_only (ADMIN_TOKEN : string)
    (authHeader : option string) :
  (authenticateAdmin_exact ADMIN_TOKEN authHeader = Next <->
     authHeader = Some ("Bearer " +:+ ADMIN_TOKEN)) /\
  (authenticateAdmin ADMIN_TOKEN authHeader = Next <->
     authHeader = Some ("Bearer " +:+ ADMIN_TOKEN)) /\
  (authHeader = Some ("Bearer " +:+ ADMIN_TOKEN) \/
   forall (h : Handler) (w : World),
     status (fst (behind (authenticateAdmin ADMIN_TOKEN authHeader) h w)) = 401 /\
     snd (behind (authenticateAdmin ADMIN_TOKEN authHeader) h w) = w).
Proof.
  assert (H1 : authenticateAdmin_exact ADMIN_TOKEN authHeader = Next <->
               authHeader = Some ("Bearer " +:+ ADMIN_TOKEN)).
  { unfold authenticateAdmin_exact. destruct authHeader as [s|]; simpl.
    - destruct (String.eqb_spec s "") as [->|Hs]; simpl.
      + split; [discriminate|]. intros H. inversion H.
      + destruct (String.eqb_spec s ("Bearer " +:+ ADMIN_TOKEN)) as [->|Hne]; simpl.
        * split; auto.
        * split; [discriminate|]. intros H. inversion H. contradiction.
    - split; discriminate. }
  assert (H2 : authenticateAdmin ADMIN_TOKEN authHeader = Next <->
               authHeader = Some ("Bearer " +:+ ADMIN_TOKEN)).
  { unfold authenticateAdmin. destruct authHeader as [s|]; [|split; discriminate].
    unfold truthy, or_else.
    destruct (String.eqb_spec s "") as [->|Hs]; cbn [negb orb].
    { split; [discriminate|]. intros H. inversion H. }
    destruct (startsWith s "Bearer ") eqn:Hp; cbn [negb orb]; cbv zeta.
    - destruct (String.eqb_spec (substring_from 7 s) ADMIN_TOKEN) as [Ht|Ht]; cbn [negb].
      + split; [intros _|auto]. f_equal.
        apply (startsWith_substring "Bearer " s ADMIN_TOKEN). auto.
      + split; [discriminate|]. intros H. inversion H as [Hs'].
        apply (startsWith_substring "Bearer " s ADMIN_TOKEN) in Hs' as [_ Hsub].
        contradiction.
    - split; [discriminate|]. intros H. inversion H as [Hs'].
      apply (startsWith_substring "Bearer " s ADMIN_TOKEN) in Hs' as [Hp' _].
      congruence. }
  split; [exact H1|]. split; [exact H2|].
  destruct (authenticateAdmin ADMIN_TOKEN authHeader) as [|r] eqn:Hg.
  - left. apply H2. reflexivity.
  - right. intros h w. simpl. split; [|reflexivity].
    unfold authenticateAdmin in Hg.
    destruct (negb (truthy authHeader) || negb (startsWith (or_else authHeader "") "Bearer ")).
    + inversion Hg. reflexivity.
    + cbv zeta in Hg.
      destruct (negb (String.eqb (substring_from 7 (or_else authHeader "")) ADMIN_TOKEN));
        inversion Hg. reflexivity.
Qed.

(** ** The admin page and the create-license route *)

(** X11. Whatever is typed into the form of the later admin page, up to
    8000 bytes for each input so that the body stays within what the JSON
    parser of the server takes, when the token of the server is made of
    plain characters the header and the body that the script of the page
    posts pass the admin middleware and the validation of the
    create-license route: where twelve months from the request time is a
    date, the route answers 500 only when the store call throws, 400 only
    when the generated key is taken, and otherwise stores and reports a
    license of one activation and twelve months for the trimmed name and
    email. *)
Theorem admin_page_posts_valid_requests (setMonth_add : Z -> Z -> option Z)
    (ADMIN_TOKEN : string) (nameInput emailInput : string) (authorization : string)
    (body : CreateBody) (now expiry : Z) (rnd : nat -> byte) (w : World) :
  Z.of_nat (String.length nameInput) <= 8000 ->
  Z.of_nat (String.length emailInput) <= 8000 ->
  admin_page ADMIN_TOKEN nameInput emailInput = Some (Post authorization body) ->
  setMonth_add now 12 = Some expiry ->
  behind (authenticateAdmin ADMIN_TOKEN (Some authorization))
         (create_license setMonth_add now rnd body) w =
    if throws 0 w then
      (json 500 [("success", JBool false); ("error", JStr (err_message StoreError))],
       advance w)
    else
      match licenses w !! generate_key rnd with
      | Some _ =>
          (json 400 [("success", JBool false);
                     ("error", JStr "License key already exists. Please try again.")],
           advance w)
      | None =>
          (json 200 [("success", JBool true);
                     ("license",
                      JObj [("licenseKey", JStr (generate_key rnd));
                            ("customerName", JStr (trim nameInput));
                            ("customerEmail", JStr (trim emailInput));
                            ("expiryDate", JDate expiry);
                            ("maxActivations", JNum 1);
                            ("planType", JStr "single")])],
           mkWorld (<[generate_key rnd :=
                        mkLicense (generate_key rnd) (trim emailInput) (trim nameInput) now
                                  expiry true 1 0 []
                                  (mkMetadata "single" "1.0" "")]> (licenses w))
                   (usages w) (faults (advance w)))
      end.
Proof.
  intros _ _.
  unfold admin_page, script_token. destruct (plain ADMIN_TOKEN); [|discriminate].
  unfold page_createLicense. cbv zeta.
  destruct (String.eqb_spec (trim nameInput) "") as [|Hn]; [discriminate|].
  destruct (String.eqb_spec (trim emailInput) "") as [|He]; [discriminate|].
  cbn [orb]. destruct (String.eqb ADMIN_TOKEN ""); [discriminate|].
  intros H Hx. inversion H; subst authorization body. clear H.
  assert (Hgate : authenticateAdmin ADMIN_TOKEN (Some ("Bearer " +:+ ADMIN_TOKEN)) = Next).
  { apply admin_gate_open. }
  rewrite Hgate. cbn [behind].
  destruct (create_fields_complete setMonth_add now rnd
              (mkCreateBody (Some (trim emailInput)) (Some (trim nameInput))
                            None None None None)
              (trim emailInput) (trim nameInput) expiry)
    as (Te & Tn & Hm & Ee & En);
    [reflexivity | rewrite trim_idempotent; exact He
    | reflexivity | rewrite trim_idempotent; exact Hn | exact Hx |].
  rewrite trim_idempotent in Ee, En.
  rewrite create_cases. cbv zeta. rewrite Te, Tn, Hm. cbn [negb orb].
  destruct (throws 0 w); [reflexivity|].
  change (newLicenseKey (create_fields setMonth_add now rnd
            (mkCreateBody (Some (trim emailInput)) (Some (trim nameInput))
                          None None None None)))
    with (generate_key rnd).
  destruct (licenses w !! generate_key rnd); [reflexivity|].
  unfold new_document. rewrite Ee, En.
  change (newExpiryDate (create_fields setMonth_add now rnd
            (mkCreateBody (Some (trim emailInput)) (Some (trim nameInput))
                          None None None None)))
    with (setMonth_add now 12).
  rewrite Hx. reflexivity.
Qed.

Lemma admin_page_posts_valid_requests_witness :
  behind (authenticateAdmin "secret" (Some "Bearer secret"))
         (create_license Demo.setMonth_add 1000 Demo.rnd
            (mkCreateBody (Some "ada@x.org") (Some "Ada") None None None None))
         (empty_world []) =
    (json 200 [("success", JBool true);
               ("license",
                JObj [("licenseKey", JStr (generate_key Demo.rnd));
                      ("customerName", JStr (trim " Ada "));
                      ("customerEmail", JStr (trim "ada@x.org "));
                      ("expiryDate", JDate 31104001000);
                      ("maxActivations", JNum 1);
                      ("planType", JStr "single")])],
     mkWorld (<[generate_key Demo.rnd :=
                  mkLicense (generate_key Demo.rnd) (trim "ada@x.org ") (trim " Ada ") 1000
                            31104001000 true 1 0 []
                            (mkMetadata "single" "1.0" "")]> (licenses (empty_world [])))
             (usages (empty_world [])) (faults (advance (empty_world [])))).
Proof.
  apply (admin_page_posts_valid_requests Demo.setMonth_add "secret" " Ada " "ada@x.org "
           "Bearer secret"
           (mkCreateBody (Some "ada@x.org") (Some "Ada") None None None None)
           1000 31104001000 Demo.rnd (empty_world [])).
  - simpl. lia.
  - simpl. lia.
  - reflexivity.
  - reflexivity.
Defined.

(** ** The two versions of the create-license route *)

Lemma create_first_cases (setMonth_add : Z -> Z -> option Z) (now : Z) (rnd : nat -> byte)
    (body : CreateBody) (w : World) :
  run_handler (create_license_first setMonth_add now rnd body) w =
    let f := create_fields_first setMonth_add now rnd body in
    if negb (truthy (bodyCustomerEmail body)) || negb (truthy (bodyCustomerName body)) then
      (json 400 [("error", JStr "Customer email and name are required")], w)
    else
      match validation_messages f with
      | _ :: _ =>
          (json 500 [("success", JBool false);
                     ("error", JStr (err_message (ValidationError (validation_messages f))))],
           w)
      | [] =>
          if throws 0 w then
            (json 500 [("success", JBool false);
                       ("error", JStr (err_message StoreError))], advance w)
          else
            match licenses w !! newLicenseKey f with
            | Some _ =>
                (json 500 [("success", JBool false);
                           ("error", JStr (err_message DuplicateKey))], advance w)
            | None =>
                (json 200 [("success", JBool true);
                           ("license",
                            JObj [("licenseKey", JStr (newLicenseKey f));
                                  ("customerName", JStr (newCustomerName f));
                                  ("customerEmail", JStr (newCustomerEmail f));
                                  ("expiryDate", JDate (default 0 (newExpiryDate f)));
                                  ("maxActivations", JNum (newMaxActivations f));
                                  ("planType", JStr (newPlanType f))])],
                 mkWorld (<[newLicenseKey f := new_document now f]> (licenses w))
                         (usages w) (faults (advance w)))
            end
      end.
Proof.
  cbv zeta. unfold run_handler, create_license_first. cbn [try_block catch].
  destruct (negb (truthy (bodyCustomerEmail body)) || negb (truthy (bodyCustomerName body))).
  { reflexivity. }
  fold (create_fields_first setMonth_add now rnd body).
  cbn -[create_fields_first exec].
  assert (Hv : rejected (LicenseCreate now (create_fields_first setMonth_add now rnd body)) =
               match validation_messages (create_fields_first setMonth_add now rnd body) with
               | [] => None
               | messages => Some (ValidationError messages)
               end) by reflexivity.
  destruct (validation_messages (create_fields_first setMonth_add now rnd body))
    as [|p ps] eqn:Hm.
  2:{ rewrite (exec_rejected _ w _ Hv). reflexivity. }
  destruct (throws 0 w) eqn:Hf.
  { rewrite (exec_throws _ w Hv Hf). reflexivity. }
  rewrite (exec_calm _ w Hv Hf). cbn -[create_fields_first].
  rewrite advance_licenses, advance_usages.
  destruct (licenses w !! newLicenseKey (create_fields_first setMonth_add now rnd body));
    reflexivity.
Qed.

Lemma or_else_trimmed (x : option string) :
  (forall s, x = Some s -> trim s = s) -> trim (or_else x "") = or_else x "".
Proof.
  intros H. destruct x as [s|]; [|reflexivity]. unfold or_else.
  destruct (String.eqb s ""); [reflexivity | apply H; reflexivity].
Qed.

Lemma parseInt_or_default (x : option SafeInteger) (d : Z) :
  (forall n, x = Some n -> integer n <> 0) -> parseInt_or x d = default_to x d.
Proof.
  intros H. destruct x as [n|]; [|reflexivity]. simpl.
  destruct (Z.eqb_spec (integer n) 0) as [E|]; [|reflexivity].
  destruct (H n eq_refl E).
Qed.

(** X12. The later create-license route does what the first one does
    whenever the body leaves it nothing to repair: for a body whose two
    names carry no white space at either end and whose [durationMonths] and
    [maxActivations], where given, are safe integers other than 0, both
    versions leave the same store, and they give the same answer except in
    two cases, a missing name (the first version's 400 answer has no
    [success] field) and a key that is taken (500 with the driver's message
    in the first version, 400 in the later one). *)
Theorem create_license_versions_agree (setMonth_add : Z -> Z -> option Z) (now : Z)
    (rnd : nat -> byte) (body : CreateBody) (w : World) :
  (forall s, bodyCustomerEmail body = Some s -> trim s = s) ->
  (forall s, bodyCustomerName body = Some s -> trim s = s) ->
  (forall n, bodyDurationMonths body = Some n -> integer n <> 0) ->
  (forall n, bodyMaxActivations body = Some n -> integer n <> 0) ->
  snd (run_handler (create_license_first setMonth_add now rnd body) w) =
  snd (run_handler (create_license setMonth_add now rnd body) w) /\
  (fst (run_handler (create_license_first setMonth_add now rnd body) w) =
   fst (run_handler (create_license setMonth_add now rnd body) w) \/
   (fst (run_handler (create_license_first setMonth_add now rnd body) w) =
      json 400 [("error", JStr "Customer email and name are required")] /\
    fst (run_handler (create_license setMonth_add now rnd body) w) =
      json 400 [("success", JBool false);
                ("error", JStr "Customer email and name are required")]) \/
   (fst (run_handler (create_license_first setMonth_add now rnd body) w) =
      json 500 [("success", JBool false); ("error", JStr (err_message DuplicateKey))] /\
    fst (run_handler (create_license setMonth_add now rnd body) w) =
      json 400 [("success", JBool false);
                ("error", JStr "License key already exists. Please try again.")])).
Proof.
  intros He Hn Hd Hm.
  assert (Hf : create_fields_first setMonth_add now rnd body
               = create_fields setMonth_add now rnd body).
  { unfold create_fields_first, create_fields.
    rewrite (or_else_trimmed _ He), (or_else_trimmed _ Hn).
    rewrite (parseInt_or_default _ 12 Hd), (parseInt_or_default _ 1 Hm). reflexivity. }
  rewrite create_first_cases, create_cases. cbv zeta. rewrite Hf.
  destruct (negb (truthy (bodyCustomerEmail body)) || negb (truthy (bodyCustomerName body))).
  { split; [reflexivity|]. right; left. split; reflexivity. }
  destruct (validation_messages (create_fields setMonth_add now rnd body)).
  2:{ split; [reflexivity|]. left. reflexivity. }
  destruct (throws 0 w).
  { split; [reflexivity|]. left. reflexivity. }
  destruct (licenses w !! newLicenseKey (create_fields setMonth_add now rnd body)).
  - split; [reflexivity|]. right; right. split; reflexivity.
  - split; [reflexivity|]. left. reflexivity.
Qed.

Lemma create_license_versions_agree_witness :
  snd (run_handler (create_license_first Demo.setMonth_add 1000 Demo.rnd demo_body)
                   (empty_world [])) =
  snd (run_handler (create_license Demo.setMonth_add 1000 Demo.rnd demo_body)
                   (empty_world [])) /\
  (fst (run_handler (create_license_first Demo.setMonth_add 1000 Demo.rnd demo_body)
                    (empty_world [])) =
   fst (run_handler (create_license Demo.setMonth_add 1000 Demo.rnd demo_body)
                    (empty_world [])) \/
   (fst (run_handler (create_license_first Demo.setMonth_add 1000 Demo.rnd demo_body)
                     (empty_world [])) =
      json 400 [("error", JStr "Customer email and name are required")] /\
    fst (run_handler (create_license Demo.setMonth_add 1000 Demo.rnd demo_body)
                     (empty_world [])) =
      json 400 [("success", JBool false);
                ("error", JStr "Customer email and name are required")]) \/
   (fst (run_handler (create_license_first Demo.setMonth_add 1000 Demo.rnd demo_body)
                     (empty_world [])) =
      json 500 [("success", JBool false); ("error", JStr (err_message DuplicateKey))] /\
    fst (run_handler (create_license Demo.setMonth_add 1000 Demo.rnd demo_body)
                     (empty_world [])) =
      json 400 [("success", JBool false);
                ("error", JStr "License key already exists. Please try again.")])).
Proof.
  apply (create_license_versions_agree Demo.setMonth_add 1000 Demo.rnd demo_body
           (empty_world [])).
  - intros s H. inversion H. reflexivity.
  - intros s H. inversion H. reflexivity.
  - intros n H. inversion H. discriminate.
  - intros n H. inversion H. discriminate.
Defined.

(** ** Usage statistics *)

Lemma summarises_first (u : Usage) :
  summarises (mkUsageGroup 1 (usageTimestamp u) {[usageDeviceId u]}
                           [(usageAction u, usageTimestamp u)]) [u].
Proof.
  unfold summarises. simpl. repeat split; try discriminate.
  - intros H. apply elem_of_singleton in H. subst. left.
  - intros H. apply list_elem_of_singleton in H. subst. apply elem_of_singleton. reflexivity.
  - intros t H. apply list_elem_of_singleton in H. subst. lia.
  - left.
Qed.

Lemma summarises_next (g : UsageGroup) (evs : list Usage) (u : Usage) :
  summarises g evs ->
  summarises (mkUsageGroup (totalActions g + 1)
                           (Z.max (lastActivity g) (usageTimestamp u))
                           ({[usageDeviceId u]} ∪ uniqueDevices g)
                           (actions g ++ [(usageAction u, usageTimestamp u)]))
             (evs ++ [u]).
Proof.
  intros (Hne & Ht & Ha & Hd & Hle & Hin). unfold summarises. simpl.
  rewrite !map_app, length_app. simpl. repeat split.
  - destruct evs; discriminate.
  - lia.
  - rewrite Ha. reflexivity.
  - intros H. apply elem_of_union in H as [H|H].
    + apply elem_of_singleton in H. subst. apply elem_of_app. right. left.
    + apply elem_of_app. left. apply Hd. exact H.
  - intros H. apply elem_of_app in H as [H|H].
    + apply elem_of_union. right. apply Hd. exact H.
    + apply list_elem_of_singleton in H. subst. apply elem_of_union. left.
      apply elem_of_singleton. reflexivity.
  - intros t H. apply elem_of_app in H as [H|H].
    + specialize (Hle t H). lia.
    + apply list_elem_of_singleton in H. subst. lia.
  - destruct (Z.max_spec (lastActivity g) (usageTimestamp u)) as [[_ ->]|[_ ->]].
    + apply elem_of_app. right. left.
    + apply elem_of_app. left. exact Hin.
Qed.

Lemma events_of_snoc (key : string) (us : list Usage) (u : Usage) :
  events_of key (us ++ [u]) =
    (events_of key us ++ if decide (usageLicenseKey u = key) then [u] else [])%list.
Proof. unfold events_of. rewrite filter_app. reflexivity. Qed.

Lemma group_usage_spec (us : list Usage) (key : string) :
  match group_usage us !! key with
  | None => events_of key us = []
  | Some g => summarises g (events_of key us)
  end.
Proof.
  unfold group_usage. induction us as [|u us IH] using rev_ind.
  - simpl. rewrite lookup_empty. reflexivity.
  - rewrite foldl_snoc, events_of_snoc. unfold group_event at 1.
    destruct (decide (usageLicenseKey u = key)) as [E|Hne].
    + rewrite E, lookup_insert_eq.
      destruct (foldl group_event ∅ us !! key) as [g|].
      * apply summarises_next. exact IH.
      * rewrite IH. apply summarises_first.
    + rewrite lookup_insert_ne by exact Hne. rewrite app_nil_r. exact IH.
Qed.

(** X13. The [$group] stage of usage-stats has a group for a license key
    exactly when an event was recorded for it, and the group sums up those
    events: [totalActions] is their number, [actions] lists their actions
    and times in the order they were recorded, [uniqueDevices] are exactly
    their device ids, and [lastActivity] is the latest of their times. *)
Theorem usage_groups_sum_up_the_events (us : list Usage) (key : string) :
  (group_usage us !! key = None <-> events_of key us = []) /\
  (forall g, group_usage us !! key = Some g -> summarises g (events_of key us)).
Proof.
  pose proof (group_usage_spec us key) as H.
  destruct (group_usage us !! key) as [g|].
  - split.
    + split; [discriminate|]. intros E. destruct H as [Hne _]. contradiction.
    + intros g' Hg. inversion Hg; subst. exact H.
  - split.
    + split; auto.
    + intros g Hg. discriminate Hg.
Qed.

Lemma usage_groups_sum_up_the_events_witness :
  summarises (mkUsageGroup 2 30 {["D1"]} [("open", 20); ("save", 30)])
    (events_of "K1" [mkUsage "K1" "D1" "open" "{}" 20; mkUsage "K2" "D9" "open" "{}" 25;
                     mkUsage "K1" "D1" "save" "{}" 30]).
Proof.
  apply (proj2 (usage_groups_sum_up_the_events
                  [mkUsage "K1" "D1" "open" "{}" 20; mkUsage "K2" "D9" "open" "{}" 25;
                   mkUsage "K1" "D1" "save" "{}" 30] "K1")).
  vm_compute. reflexivity.
Defined.

(** ** Recording and reporting usage *)

Lemma record_usage_run (now : Z) (key dev action : string) (meta : option string)
    (w : World) :
  run_handler (record_usage now key dev action meta) w =
    if throws 0 w then (json 200 [("success", JBool false)], advance w)
    else (json 200 [("success", JBool true)],
          mkWorld (licenses w)
                  (usages w ++ [mkUsage key dev action (or_else meta "{}") now])
                  (faults (advance w))).
Proof.
  enter_route. destruct (throws 0 w) eqn:Hf.
  - rewrite exec_throws by first [reflexivity | exact Hf]. reflexivity.
  - rewrite exec_calm by first [reflexivity | exact Hf]. simpl.
    rewrite advance_licenses, advance_usages. reflexivity.
Qed.

Lemma usage_stats_run (w : World) :
  usage_stats w =
    if throws 0 w then (StatsError 500 (err_message StoreError), advance w)
    else (StatsOk (aggregate_usage (advance w)), advance w).
Proof. unfold usage_stats. rewrite pop_fault_eq. reflexivity. Qed.

(** X14. An event recorded by record-usage shows in the next usage-stats,
    whether or not a license has its key: when both store calls succeed the
    report has a group for the key whose [totalActions] is one more than the
    number of events recorded for the key before, whose devices include the
    event's device and whose [lastActivity] is not before the request time;
    its [licenseInfo] holds the license of that key, and is empty when there
    is none. *)
Theorem recorded_usage_is_reported (now : Z) (key dev action : string)
    (meta : option string) (w : World) :
  throws 0 w = false ->
  throws 1 w = false ->
  exists groups g,
    fst (usage_stats (snd (run_handler (record_usage now key dev action meta) w)))
      = StatsOk groups /\
    groups !! key = Some (g, match by_key (licenses w) key with
                             | Some l => [l]
                             | None => []
                             end) /\
    totalActions g = Z.of_nat (length (events_of key (usages w))) + 1 /\
    dev ∈ uniqueDevices g /\
    now <= lastActivity g.
Proof.
  intros Hf0 Hf1. rewrite record_usage_run, Hf0. cbn [snd].
  set (u := mkUsage key dev action (or_else meta "{}") now).
  set (w1 := mkWorld (licenses w) (usages w ++ [u]) (faults (advance w))).
  assert (Hf : throws 0 w1 = false).
  { change (throws 0 w1) with (throws 0 (advance w)). rewrite throws_advance. exact Hf1. }
  rewrite usage_stats_run, Hf. cbn [fst].
  pose proof (group_usage_spec (usages w ++ [u]) key) as Hspec.
  rewrite events_of_snoc in Hspec. cbn [usageLicenseKey u] in Hspec.
  rewrite decide_True in Hspec by reflexivity.
  destruct (group_usage (usages w ++ [u]) !! key) as [g|] eqn:Hg.
  2:{ destruct (events_of key (usages w)); discriminate Hspec. }
  destruct Hspec as (_ & Ht & _ & Hd & Hle & _).
  exists (aggregate_usage (advance w1)), g. split; [reflexivity|]. split; [|split; [|split]].
  - unfold aggregate_usage. rewrite map_lookup_imap, advance_usages, advance_licenses.
    cbn [usages licenses w1]. rewrite Hg. reflexivity.
  - rewrite Ht, length_app. simpl. lia.
  - apply Hd. rewrite map_app. apply elem_of_app. right. left.
  - apply Hle. rewrite map_app. apply elem_of_app. right. left.
Qed.

Lemma recorded_usage_is_reported_witness :
  exists groups g,
    fst (usage_stats (snd (run_handler (record_usage 7000 "NO-SUCH-KEY" "D1" "open" None)
                                       (Demo.world Demo.full []))))
      = StatsOk groups /\
    groups !! "NO-SUCH-KEY"
      = Some (g, match by_key (licenses (Demo.world Demo.full [])) "NO-SUCH-KEY" with
                 | Some l => [l]
                 | None => []
                 end) /\
    totalActions g
      = Z.of_nat (length (events_of "NO-SUCH-KEY" (usages (Demo.world Demo.full [])))) + 1 /\
    "D1" ∈ uniqueDevices g /\
    7000 <= lastActivity g.
Proof.
  apply (recorded_usage_is_reported 7000 "NO-SUCH-KEY" "D1" "open" None
           (Demo.world Demo.full [])).
  - reflexivity.
  - reflexivity.
Defined.

(** ** The usage collection *)

Lemma exec_silent {R : Type} (op : Op R) (w : World) :
  op_event op = None -> usages (snd (exec op w)) = usages w.
Proof.
  intros Hop. unfold exec. destruct (rejected op); [reflexivity|].
  rewrite pop_fault_eq. destruct (throws 0 w); [apply advance_usages|].
  destruct op; simpl in *; try discriminate Hop.
  - apply advance_usages.
  - destruct (licenses (advance w) !! licenseKey (held doc)) as [stored|];
      [destruct (save_matches doc stored)|]; apply advance_usages.
  - destruct (licenses (advance w) !! newLicenseKey fields); apply advance_usages.
  - destruct (by_key (licenses (advance w)) key); apply advance_usages.
Qed.

Lemma run_silent {A : Type} (p : Prog A) (w : World) :
  Silent p -> usages (snd (run p w)) = usages w.
Proof.
  intros Hp. revert w. induction Hp as [a | R op k Hop Hk IH]; intros w; [reflexivity|].
  simpl. pose proof (exec_silent op w Hop) as He.
  destruct (exec op w) as [[e|r] w']; simpl in *; [exact He|].
  rewrite IH. exact He.
Qed.

Lemma handler_silent (h : Handler) (w : World) :
  Silent (try_block h) -> usages (snd (run_handler h w)) = usages w.
Proof.
  intros Hp. unfold run_handler. pose proof (run_silent (try_block h) w Hp) as H.
  destruct (run (try_block h) w) as [[e|r] w']; exact H.
Qed.

Ltac silent :=
  repeat first
    [ apply silent_ret
    | apply silent_call; [reflexivity | intros ?]
    | match goal with
      | |- Silent (match ?x with _ => _ end) => destruct x
      | |- Silent (if ?b then _ else _) => destruct b
      end ].

Lemma validate_silent (now : Z) (key dev : string) :
  Silent (try_block (validate_license now key dev)).
Proof. cbn -[find_activation touch_activation]. silent. Qed.

Lemma activate_silent (now : Z) (key dev : string) (fp : option string) :
  Silent (try_block (activate_license now key dev fp)).
Proof. cbn -[find_activation touch_activation limit_message]. silent. Qed.

Lemma create_silent (setMonth_add : Z -> Z -> option Z) (now : Z) (rnd : nat -> byte)
    (body : CreateBody) :
  Silent (try_block (create_license setMonth_add now rnd body)).
Proof.
  cbn -[generate_key trim]. silent.
Qed.

Lemma deactivate_silent (key : string) : Silent (try_block (deactivate_license key)).
Proof. cbn. silent. Qed.

(** X15. The usage collection only grows, and only record-usage adds to
    it: one request leaves the recorded events as they are, unless it is a
    record-usage request, which appends at most the one event of its body
    with the request time; so along any sequence of requests the events
    recorded before stay the first ones, in order. *)
Theorem usage_events_only_grow :
  (forall (setMonth_add : Z -> Z -> option Z) (now : Z) (req : Request) (w : World),
      usages (snd (serve setMonth_add now req w)) = usages w \/
      exists key dev action meta,
        req = RecordUsage key dev action meta /\
        usages (snd (serve setMonth_add now req w)) =
          (usages w ++ [mkUsage key dev action (or_else meta "{}") now])%list) /\
  (forall (setMonth_add : Z -> Z -> option Z) (reqs : list (Z * Request)) (w : World),
      usages w `prefix_of` usages (serve_all setMonth_add reqs w)).
Proof.
  assert (Hstep : forall setMonth_add now req w,
            usages (snd (serve setMonth_add now req w)) = usages w \/
            exists key dev action meta,
              req = RecordUsage key dev action meta /\
              usages (snd (serve setMonth_add now req w)) =
                (usages w ++ [mkUsage key dev action (or_else meta "{}") now])%list).
  { intros setMonth_add now req w. destruct req; unfold serve, route.
    - left. apply handler_silent, validate_silent.
    - left. apply handler_silent, activate_silent.
    - rewrite record_usage_run. destruct (throws 0 w).
      + left. apply advance_usages.
      + right. eauto 10.
    - left. apply handler_silent, create_silent.
    - left. apply handler_silent, deactivate_silent. }
  split; [exact Hstep|].
  intros setMonth_add reqs. induction reqs as [|[now req] reqs IH]; intros w; simpl.
  - reflexivity.
  - etrans; [|apply IH].
    destruct (Hstep setMonth_add now req w) as [-> | (k & d & a & m & _ & ->)].
    + reflexivity.
    + apply prefix_app_r. reflexivity.
Qed.

(** ** Keys and the random bytes they are made of *)

Lemma hex_pair_of_byte (b : byte) (rest : string) :
  hex_pair (String (upper_char (hex_digit (Byte.to_N b / 16)))
              (String (upper_char (hex_digit (Byte.to_N b mod 16))) rest))
  = Some (b, rest).
Proof. destruct b; reflexivity. Qed.

Lemma key_group_bytes_of_group (rnd : nat -> byte) (i : nat) (rest : string) :
  key_group_bytes ("-" +:+ key_group rnd i +:+ rest)
  = Some ([rnd (2 * i)%nat; rnd (2 * i + 1)%nat], rest).
Proof.
  unfold key_group_bytes. rewrite dash_app. unfold key_group.
  cbn -[N.div N.modulo Byte.to_N hex_digit upper_char hex_pair Nat.mul Nat.add].
  cbv beta iota delta [String.append].
  rewrite !hex_pair_of_byte. reflexivity.
Qed.

Lemma append_empty (s : string) : s +:+ "" = s.
Proof.
  induction s as [|c s IH]; [reflexivity|].
  change (String c s +:+ "") with (String c (s +:+ "")). rewrite IH. reflexivity.
Qed.

Lemma key_bytes_of_key (rnd : nat -> byte) :
  key_bytes (generate_key rnd) = Some [rnd 0; rnd 1; rnd 2; rnd 3; rnd 4; rnd 5]%nat.
Proof.
  rewrite generate_key_groups. unfold key_bytes.
  change ("BABYLON-" +:+ ?x) with ("BABYLON" +:+ ("-" +:+ x)).
  rewrite strip_prefix_app.
  rewrite (key_group_bytes_of_group rnd 0).
  rewrite (key_group_bytes_of_group rnd 1).
  rewrite <- (append_empty (key_group rnd 2)) at 1.
  rewrite (key_group_bytes_of_group rnd 2 ""). reflexivity.
Qed.

(** X16. A license key spells out the six random bytes it was generated
    from: two streams of random bytes give the same key exactly when their
    first six bytes are the same, and every key has 22 characters. *)
Theorem key_determines_its_random_bytes (rnd rnd' : nat -> byte) :
  (generate_key rnd = generate_key rnd' <->
     forall i, (i < 6)%nat -> rnd i = rnd' i) /\
  String.length (generate_key rnd) = 22%nat.
Proof.
  split; [|reflexivity]. split.
  - intros E. pose proof (key_bytes_of_key rnd) as H.
    rewrite E, key_bytes_of_key in H. inversion H as [[H0 H1 H2 H3 H4 H5]].
    intros i Hi.
    destruct i as [|[|[|[|[|[|i]]]]]]; try congruence. lia.
  - intros H. rewrite !generate_key_groups. unfold key_group. simpl Nat.mul. simpl Nat.add.
    rewrite (H 0%nat), (H 1%nat), (H 2%nat), (H 3%nat), (H 4%nat), (H 5%nat) by lia.
    reflexivity.
Qed.

(** ** What a [valid: true] answer stands for *)

(** X17. Validate answers [valid: true] only for a device that is bound to
    an active license of that key at a time up to its expiry date, and only
    when the save of the validation time went through. *)
Theorem validate_is_sound (now : Z) (key dev : string) (w : World) :
  valid (fst (run_handler (validate_license now key dev) w)) = true ->
  exists l, by_key (licenses w) key = Some l /\ isActive l = true /\
            now <= expiryDate l /\ dev ∈ device_ids l /\
            throws 0 w = false /\ throws 1 w = false /\
            by_key (licenses (snd (run_handler (validate_license now key dev) w))) key
            = Some (touched dev now l).
Proof.
  intros Hv.
  destruct (throws 0 w) eqn:Hf.
  { rewrite validate_thrown in Hv by exact Hf. discriminate Hv. }
  destruct (by_key (licenses w) key) as [l|] eqn:Hk.
  2:{ rewrite validate_not_found in Hv by eauto using absent_not_found. discriminate Hv. }
  destruct (isActive l) eqn:Ha.
  2:{ rewrite validate_not_found in Hv by eauto using not_active_not_found.
      discriminate Hv. }
  destruct (now >? expiryDate l) eqn:He.
  { exfalso. revert Hv. enter_route.
    rewrite (find_one_active w key l Hk Ha Hf), He. discriminate. }
  destruct (find_activation dev (deviceActivations l)) as [a|] eqn:Hd.
  2:{ exfalso. revert Hv. enter_route.
      rewrite (find_one_active w key l Hk Ha Hf), He, Hd. discriminate. }
  rewrite (validate_existing now key dev w l) in Hv |- * by eauto.
  destruct (throws 1 w); [discriminate Hv|].
  exists l. apply by_key_Some in Hk as Hk'. destruct Hk' as [_ Hkey].
  repeat split; auto.
  - apply not_expired. exact He.
  - apply find_activation_Some_iff. eauto.
  - apply by_key_Some. simpl. rewrite Hkey, lookup_insert_eq. auto.
Qed.

Lemma validate_is_sound_witness :
  exists l, by_key (licenses (Demo.world Demo.full [])) Demo.key = Some l /\
            isActive l = true /\ 3000 <= expiryDate l /\ ("D1" ∈ device_ids l) /\
            throws 0 (Demo.world Demo.full []) = false /\
            throws 1 (Demo.world Demo.full []) = false /\
            by_key (licenses (snd (run_handler (validate_license 3000 Demo.key "D1")
                                               (Demo.world Demo.full [])))) Demo.key
            = Some (touched "D1" 3000 l).
Proof.
  apply (validate_is_sound 3000 Demo.key "D1" (Demo.world Demo.full [])).
  reflexivity.
Defined.

(** X18. Activate answers [valid: true] only for an active license of that
    key at a time up to its expiry date, and then the device is bound in the
    stored license: either it was bound before and the counter and the
    activations keep their number, or the counter was below
    [maxActivations] and the device was appended as the last activation,
    with the request time as its activation date, the counter growing by
    one. *)
Theorem activate_is_sound (now : Z) (key dev : string) (fp : option string) (w : World) :
  valid (fst (run_handler (activate_license now key dev fp) w)) = true ->
  exists l l',
    by_key (licenses w) key = Some l /\ isActive l = true /\ now <= expiryDate l /\
    by_key (licenses (snd (run_handler (activate_license now key dev fp) w))) key
      = Some l' /\
    (dev ∈ device_ids l') /\
    ((dev ∈ device_ids l) /\ l' = touched dev now l \/
     (dev ∉ device_ids l) /\ currentActivations l < maxActivations l /\
     deviceActivations l' =
       (deviceActivations l ++ [mkDeviceActivation dev now now (or_else fp "{}")])%list /\
     currentActivations l' = currentActivations l + 1).
Proof.
  intros Hv.
  destruct (throws 0 w) eqn:Hf.
  { rewrite activate_thrown in Hv by exact Hf. discriminate Hv. }
  destruct (by_key (licenses w) key) as [l|] eqn:Hk.
  2:{ rewrite activate_not_found in Hv by eauto using absent_not_found. discriminate Hv. }
  destruct (isActive l) eqn:Ha.
  2:{ rewrite activate_not_found in Hv by eauto using not_active_not_found.
      discriminate Hv. }
  destruct (now >? expiryDate l) eqn:He.
  { rewrite (activate_expired now key dev fp w l) in Hv by auto. discriminate Hv. }
  apply by_key_Some in Hk as Hk'. destruct Hk' as [_ Hkey].
  destruct (find_activation dev (deviceActivations l)) as [a|] eqn:Hd.
  - rewrite (activate_existing now key dev fp w l) in Hv |- * by eauto.
    destruct (throws 1 w); [discriminate Hv|].
    assert (Hin : dev ∈ device_ids l) by (apply find_activation_Some_iff; eauto).
    exists l, (touched dev now l). repeat split; auto.
    + apply not_expired. exact He.
    + apply by_key_Some. simpl. rewrite Hkey, lookup_insert_eq. auto.
    + unfold device_ids. simpl. rewrite touch_activation_ids. exact Hin.
  - rewrite (activate_fresh now key dev fp w l) in Hv |- * by auto.
    destruct (currentActivations l >=? maxActivations l) eqn:Hc; [discriminate Hv|].
    destruct (throws 1 w); [discriminate Hv|].
    exists l, (appended dev now fp l). repeat split; auto.
    + apply not_expired. exact He.
    + apply by_key_Some. simpl. rewrite Hkey, lookup_insert_eq. auto.
    + unfold device_ids. simpl. rewrite map_app. apply elem_of_app. right. left.
    + right. repeat split.
      * apply find_activation_None_iff. exact Hd.
      * rewrite Z.geb_leb in Hc. apply Z.leb_gt in Hc. exact Hc.
Qed.

Lemma activate_is_sound_witness :
  exists l l',
    by_key (licenses (Demo.world Demo.issued [])) Demo.key = Some l /\
    isActive l = true /\ 2000 <= expiryDate l /\
    by_key (licenses (snd (run_handler (activate_license 2000 Demo.key "D1" None)
                                       (Demo.world Demo.issued [])))) Demo.key
      = Some l' /\
    ("D1" ∈ device_ids l') /\
    (("D1" ∈ device_ids l) /\ l' = touched "D1" 2000 l \/
     ("D1" ∉ device_ids l) /\ currentActivations l < maxActivations l /\
     deviceActivations l' =
       (deviceActivations l ++ [mkDeviceActivation "D1" 2000 2000 (or_else None "{}")])%list /\
     currentActivations l' = currentActivations l + 1).
Proof.
  apply (activate_is_sound 2000 Demo.key "D1" None (Demo.world Demo.issued [])).
  reflexivity.
Defined.

(** ** Requests on different licenses *)

Lemma exec_quiet {R : Type} (op : Op R) (w : World) :
  rejected op = None -> faults w = [] -> exec op w = store_call op w.
Proof.
  intros Hv Hf. unfold exec, pop_fault. rewrite Hv, Hf. reflexivity.
Qed.

Lemma finish_step (t : Thread) (w : World) :
  finish (fst (step_thread t w)) (snd (step_thread t w)) = finish t w.
Proof.
  destruct t as [p c | r]; [|reflexivity].
  destruct p as [a | R op k]; [reflexivity|].
  simpl. destruct (exec op w) as [[e|r] w']; [reflexivity|].
  simpl. destruct (k r); reflexivity.
Qed.

Lemma finish_spawn (h : Handler) (w : World) : finish (spawn h) w = run_handler h w.
Proof. reflexivity. Qed.

Lemma by_key_agree (m1 m2 : gmap string License) (key : string) :
  m1 !! key = m2 !! key -> by_key m1 key = by_key m2 key.
Proof. intros H. unfold by_key. rewrite H. reflexivity. Qed.

Lemma thread_local_next (key : string) (p : Prog Response) (c : Err -> Response) :
  Local key p ->
  thread_local key match p with
                   | Ret a => Done a
                   | Call op k => Running (Call op k) c
                   end.
Proof. intros H. destruct H; simpl; try exact I; constructor; assumption. Qed.

(** A turn of a request on the license of [key] leaves the other licenses,
    the usage events and an empty fault schedule as they are. *)
Lemma thread_frame (key : string) (t : Thread) (w : World) :
  thread_local key t -> faults w = [] ->
  faults (snd (step_thread t w)) = [] /\
  (forall k, k <> key -> licenses (snd (step_thread t w)) !! k = licenses w !! k) /\
  thread_local key (fst (step_thread t w)).
Proof.
  intros HL Hf. destruct t as [p c | r]; [|simpl; auto].
  simpl in HL. destruct HL as [a | active k Hk | doc k Hdoc Hk | active k Hk].
  - simpl. auto.
  - simpl. rewrite exec_quiet by (reflexivity || exact Hf). simpl.
    repeat split; auto. apply thread_local_next. apply Hk.
    intros l Hl. destruct (by_key (licenses w) key) as [l0|] eqn:E; [|discriminate].
    apply by_key_Some in E as [_ E].
    destruct (Bool.eqb (isActive l0) active); congruence.
  - simpl. rewrite exec_quiet by (reflexivity || exact Hf). simpl.
    rewrite Hdoc. destruct (licenses w !! key) as [stored|]; simpl; [|auto].
    destruct (save_matches doc stored); simpl; [|auto].
    repeat split; auto.
    + intros k0 Hne. apply lookup_insert_ne. congruence.
    + apply thread_local_next. apply Hk.
  - simpl. rewrite exec_quiet by (reflexivity || exact Hf). simpl.
    destruct (by_key (licenses w) key) as [l0|]; simpl.
    + repeat split; auto.
      * intros k0 Hne. apply lookup_insert_ne. congruence.
      * apply thread_local_next. apply Hk.
    + repeat split; auto. apply thread_local_next. apply Hk.
Qed.

(** A turn of a request on the license of [key] depends on that license
    only. *)
Lemma thread_agree (key : string) (t : Thread) (w1 w2 : World) :
  thread_local key t -> faults w1 = [] -> faults w2 = [] ->
  licenses w1 !! key = licenses w2 !! key ->
  fst (step_thread t w1) = fst (step_thread t w2) /\
  licenses (snd (step_thread t w1)) !! key = licenses (snd (step_thread t w2)) !! key.
Proof.
  intros HL Hf1 Hf2 Hk. destruct t as [p c | r]; [|simpl; auto].
  simpl in HL. destruct HL as [a | active k _ | doc k Hdoc _ | active k _].
  - simpl. auto.
  - simpl. rewrite !exec_quiet by (reflexivity || assumption). simpl.
    rewrite (by_key_agree _ _ key Hk). auto.
  - simpl. rewrite !exec_quiet by (reflexivity || assumption). simpl.
    rewrite Hdoc, Hk. destruct (licenses w2 !! key) as [stored|] eqn:E; simpl.
    + destruct (save_matches doc stored); simpl.
      * rewrite !lookup_insert_eq. auto.
      * rewrite Hk, E. auto.
    + rewrite Hk, E. auto.
  - simpl. rewrite !exec_quiet by (reflexivity || assumption). simpl.
    rewrite (by_key_agree _ _ key Hk).
    destruct (by_key (licenses w2) key); simpl; [|auto].
    rewrite !lookup_insert_eq. auto.
Qed.

Lemma interleave_local (k0 k1 : string) (sched : list nat) :
  k0 <> k1 ->
  forall (t0 t1 : Thread) (w w0 w1 : World),
    thread_local k0 t0 -> thread_local k1 t1 ->
    faults w = [] -> faults w0 = [] -> faults w1 = [] ->
    licenses w !! k0 = licenses w0 !! k0 ->
    licenses w !! k1 = licenses w1 !! k1 ->
    exists t0' t1' w0' w1',
      fst (interleave sched [t0; t1] w) = [t0'; t1'] /\
      finish t0' w0' = finish t0 w0 /\ finish t1' w1' = finish t1 w1 /\
      licenses (snd (interleave sched [t0; t1] w)) !! k0 = licenses w0' !! k0 /\
      licenses (snd (interleave sched [t0; t1] w)) !! k1 = licenses w1' !! k1.
Proof.
  intros Hne. induction sched as [|i sched IH]; intros t0 t1 w w0 w1 L0 L1 Hf Hf0 Hf1 E0 E1.
  - exists t0, t1, w0, w1. simpl. auto.
  - destruct i as [|[|i]].
    + simpl. destruct (step_thread t0 w) as [t0n wn] eqn:Hs.
      destruct (thread_frame k0 t0 w L0 Hf) as (Fa & Fb & Fc).
      destruct (thread_frame k0 t0 w0 L0 Hf0) as (Ga & _ & _).
      destruct (thread_agree k0 t0 w w0 L0 Hf Hf0 E0) as [At Ak].
      rewrite Hs in Fa, Fb, Fc, At, Ak. simpl in Fa, Fb, Fc, At, Ak.
      destruct (IH t0n t1 wn (snd (step_thread t0 w0)) w1) as (a & b & x & y & H1 & H2 & H3 & H4 & H5);
        auto.
      { rewrite Fb by auto. exact E1. }
      exists a, b, x, y. repeat split; auto.
      rewrite H2, At. apply finish_step.
    + simpl. destruct (step_thread t1 w) as [t1n wn] eqn:Hs.
      destruct (thread_frame k1 t1 w L1 Hf) as (Fa & Fb & Fc).
      destruct (thread_frame k1 t1 w1 L1 Hf1) as (Ga & _ & _).
      destruct (thread_agree k1 t1 w w1 L1 Hf Hf1 E1) as [At Ak].
      rewrite Hs in Fa, Fb, Fc, At, Ak. simpl in Fa, Fb, Fc, At, Ak.
      destruct (IH t0 t1n wn w0 (snd (step_thread t1 w1))) as (a & b & x & y & H1 & H2 & H3 & H4 & H5);
        auto.
      { rewrite Fb by auto. exact E0. }
      exists a, b, x, y. repeat split; auto.
      rewrite H3, At. apply finish_step.
    + simpl. apply IH; auto.
Qed.

Lemma route_local (setMonth_add : Z -> Z -> option Z) (now : Z) (req : Request) (key : string) :
  request_key req = Some key -> Local key (try_block (route setMonth_add now req)).
Proof.
  intros Hreq. destruct req as [k d | k d fp | | | k]; try discriminate Hreq;
    inversion Hreq; subst k.
  - cbn -[find_activation touch_activation assign_lastValidation loaded].
    apply local_find. intros [l|] Hl; [|constructor].
    destruct (now >? expiryDate l); [constructor|].
    destruct (find_activation d (deviceActivations l)) eqn:Hd; [|constructor].
    apply local_save; [|intros; constructor].
    rewrite (proj1 (assign_lastValidation_loaded d now l (mk_is_Some _ _ Hd))).
    simpl. auto.
  - cbn -[find_activation touch_activation limit_message assign_lastValidation loaded].
    apply local_find. intros [l|] Hl; [|constructor].
    destruct (now >? expiryDate l); [constructor|].
    destruct (find_activation d (deviceActivations l)) eqn:Hd.
    + apply local_save; [|intros; constructor].
      rewrite (proj1 (assign_lastValidation_loaded d now l (mk_is_Some _ _ Hd))).
      simpl. auto.
    + destruct (currentActivations l >=? maxActivations l); [constructor|].
      apply local_save; [simpl; auto | intros; constructor].
  - cbn. apply local_update. intros [l|]; constructor.
Qed.

(** X19. Requests on different licenses do not disturb each other: when a
    validate, activate or deactivate request runs together with another one
    for a different license key, in any order of their store calls and with
    no store call throwing, each request that has finished got the answer
    it gets when served alone, and left the license of its key as it does
    when served alone. *)
Theorem requests_on_different_licenses_are_independent (setMonth_add : Z -> Z -> option Z)
    (now0 now1 : Z) (req0 req1 : Request) (k0 k1 : string) (w : World)
    (sched : list nat) :
  request_key req0 = Some k0 ->
  request_key req1 = Some k1 ->
  k0 <> k1 ->
  faults w = [] ->
  let result := interleave sched [spawn (route setMonth_add now0 req0);
                                  spawn (route setMonth_add now1 req1)] w in
  (forall r, fst result !! 0%nat = Some (Done r) ->
     r = fst (serve setMonth_add now0 req0 w) /\
     licenses (snd result) !! k0 = licenses (snd (serve setMonth_add now0 req0 w)) !! k0) /\
  (forall r, fst result !! 1%nat = Some (Done r) ->
     r = fst (serve setMonth_add now1 req1 w) /\
     licenses (snd result) !! k1 = licenses (snd (serve setMonth_add now1 req1 w)) !! k1).
Proof.
  intros Hr0 Hr1 Hne Hf result.
  destruct (interleave_local k0 k1 sched Hne
              (spawn (route setMonth_add now0 req0)) (spawn (route setMonth_add now1 req1))
              w w w)
    as (t0 & t1 & w0 & w1 & Hts & F0 & F1 & E0 & E1); auto.
  { apply route_local. exact Hr0. }
  { apply route_local. exact Hr1. }
  fold result in Hts, E0, E1. rewrite Hts. rewrite finish_spawn in F0, F1.
  unfold serve. split; intros r Hr; simpl in Hr; inversion Hr; subst.
  - simpl in F0. rewrite <- F0. simpl. auto.
  - simpl in F1. rewrite <- F1. simpl. auto.
Qed.

Lemma requests_on_different_licenses_are_independent_witness :
  let result := interleave [0; 1; 0; 1]%nat
                  [spawn (route Demo.setMonth_add 2000
                            (ActivateLicense Demo.key "D1" None));
                   spawn (route Demo.setMonth_add 2001
                            (ValidateLicense "BABYLON-0000-0000-0000" "D9"))]
                  (Demo.world Demo.issued []) in
  (forall r, fst result !! 0%nat = Some (Done r) ->
     r = fst (serve Demo.setMonth_add 2000 (ActivateLicense Demo.key "D1" None)
                    (Demo.world Demo.issued [])) /\
     licenses (snd result) !! Demo.key =
       licenses (snd (serve Demo.setMonth_add 2000 (ActivateLicense Demo.key "D1" None)
                            (Demo.world Demo.issued []))) !! Demo.key) /\
  (forall r, fst result !! 1%nat = Some (Done r) ->
     r = fst (serve Demo.setMonth_add 2001 (ValidateLicense "BABYLON-0000-0000-0000" "D9")
                    (Demo.world Demo.issued [])) /\
     licenses (snd result) !! "BABYLON-0000-0000-0000" =
       licenses (snd (serve Demo.setMonth_add 2001
                            (ValidateLicense "BABYLON-0000-0000-0000" "D9")
                            (Demo.world Demo.issued []))) !! "BABYLON-0000-0000-0000").
Proof.
  apply (requests_on_different_licenses_are_independent Demo.setMonth_add 2000 2001
           (ActivateLicense Demo.key "D1" None)
           (ValidateLicense "BABYLON-0000-0000-0000" "D9")
           Demo.key "BABYLON-0000-0000-0000" (Demo.world Demo.issued []) [0; 1; 0; 1]%nat).
  - reflexivity.
  - reflexivity.
  - discriminate.
  - reflexivity.
Defined.

(** ** The order of two saves on one license *)

Lemma find_quiet (w : World) (key : string) (l : License) :
  faults w = [] -> by_key (licenses w) key = Some l -> isActive l = true ->
  exec (LicenseFindOne key true) w = (inr (Some l), w).
Proof.
  intros Hf Hk Ha. rewrite exec_quiet by (reflexivity || exact Hf). simpl.
  rewrite Hk, Ha. reflexivity.
Qed.

Lemma save_quiet (doc : Document) (stored : License) (w : World) :
  faults w = [] -> licenses w !! licenseKey (held doc) = Some stored ->
  exec (LicenseSave doc) w =
    if save_matches doc stored then
      (inr tt, mkWorld (<[licenseKey (held doc) := apply_changes (changes doc) stored]>
                          (licenses w)) (usages w) (faults w))
    else (inl VersionError, w).
Proof.
  intros Hf Hk. rewrite exec_quiet by (reflexivity || exact Hf). simpl. rewrite Hk.
  reflexivity.
Qed.

Lemma version_moved (d : string) (t : Z) (fp : option string) (l : License) :
  Nat.eqb (version_of (appended d t fp l)) (version_of l) = false.
Proof.
  unfold version_of, appended. simpl. rewrite length_app. simpl.
  apply Nat.eqb_neq. lia.
Qed.

Lemma touch_checks_version (d : string) (t : Z) (l stored : License)
    (a : DeviceActivation) :
  find_activation d (deviceActivations l) = Some a -> lastValidation a <> t ->
  save_matches (assign_lastValidation d t (loaded l)) stored =
    Nat.eqb (version_of stored) (version_of l).
Proof.
  intros Ha Hne. destruct (activation_index_found d _ (mk_is_Some _ _ Ha)) as [i Hi].
  unfold assign_lastValidation, loaded, save_matches. cbn [held changes]. rewrite Hi, Ha.
  apply Z.eqb_neq in Hne. rewrite Hne. reflexivity.
Qed.

Lemma push_matches (d : string) (t : Z) (fp : option string) (l stored : License) :
  let doc := increment_currentActivations
               (push_activation (mkDeviceActivation d t t (or_else fp "{}")) (loaded l)) in
  save_matches doc stored = true.
Proof. reflexivity. Qed.

(** X20. Two requests in flight on one license, no store call throwing: a
    validate request that brings a new validation time to a bound device,
    and an activate request of a new device, both reading the license
    before either saves. [save()] sends the changes of each, and the save
    of the validation time, which sets a path below an index of the array,
    holds only while the version of the license has not moved. So when the
    activate request saves first, its push moves the version, the save of
    validate throws and validate is answered 500 with the server-error
    message, the license being stored as the activate request left it; and
    when validate saves first both requests succeed and the stored license
    has both the new validation time and the new activation. *)
Theorem the_later_save_decides (now1 now2 : Z) (key dev d2 : string) (fp : option string)
    (w : World) (l : License) (a : DeviceActivation) :
  by_key (licenses w) key = Some l ->
  isActive l = true ->
  now1 <= expiryDate l -> now2 <= expiryDate l ->
  find_activation dev (deviceActivations l) = Some a -> lastValidation a <> now1 ->
  (d2 ∉ device_ids l) ->
  currentActivations l < maxActivations l ->
  faults w = [] ->
  let threads := [spawn (validate_license now1 key dev);
                  spawn (activate_license now2 key d2 fp)] in
  let activated :=
    json 200 [("valid", JBool true);
              ("message", JStr "License activated successfully!");
              ("expiry_date", JDate (expiryDate l));
              ("customer_name", JStr (customerName l));
              ("plan_type", JStr (planType (metadata l)));
              ("activations_used", JNum (currentActivations l + 1));
              ("activations_total", JNum (maxActivations l))] in
  (map answer_of (fst (interleave [0; 1; 1; 0]%nat threads w)) =
     [Some (json 500 [("valid", JBool false);
                      ("message", JStr "Server error during validation")]);
      Some activated] /\
   by_key (licenses (snd (interleave [0; 1; 1; 0]%nat threads w))) key =
     Some (appended d2 now2 fp l)) /\
  (map answer_of (fst (interleave [0; 1; 0; 1]%nat threads w)) =
     [Some (json 200 [("valid", JBool true);
                      ("message", JStr "License is valid");
                      ("expiry_date", JDate (expiryDate l));
                      ("customer_name", JStr (customerName l));
                      ("plan_type", JStr (planType (metadata l)))]);
      Some activated] /\
   by_key (licenses (snd (interleave [0; 1; 0; 1]%nat threads w))) key =
     Some (appended d2 now2 fp (touched dev now1 l))).
Proof.
  intros Hk Ha He1 He2 Ha1 Hne Hd2 Hlt Hf threads activated. subst threads activated.
  apply not_expired in He1, He2.
  assert (Hs : is_Some (find_activation dev (deviceActivations l))) by eauto.
  apply find_activation_None_iff in Hd2.
  assert (Hc : (currentActivations l >=? maxActivations l) = false).
  { rewrite Z.geb_leb. apply Z.leb_gt. lia. }
  apply by_key_Some in Hk as Hk'. destruct Hk' as [Hl Hkey].
  destruct (assign_lastValidation_loaded dev now1 l Hs) as (Tf & Tc & Tv).
  destruct (push_and_count_loaded d2 now2 fp l) as (Pf & Pc & Pv).
  pose proof (fun stored => touch_checks_version dev now1 l stored a Ha1 Hne) as Tm.
  pose proof (fun stored => push_matches d2 now2 fp l stored) as Pm. cbv zeta in Pm.
  assert (Tk : licenseKey (held (assign_lastValidation dev now1 (loaded l))) = key).
  { rewrite Tf. exact Hkey. }
  assert (Pk : licenseKey (held (increment_currentActivations
                 (push_activation (mkDeviceActivation d2 now2 now2 (or_else fp "{}"))
                                  (loaded l)))) = key).
  { rewrite Pf. exact Hkey. }
  split.
  - step_threads.
    rewrite (find_quiet w key l Hf Hk Ha), He1, Ha1. step_threads.
    rewrite (find_quiet w key l Hf Hk Ha), He2, Hd2, Hc. step_threads.
    rewrite (save_quiet _ l w Hf) by (rewrite Pk; exact Hl).
    rewrite Pv, Pc, Pk, Pf. step_threads.
    rewrite (save_quiet _ (appended d2 now2 fp l));
      [|exact Hf | rewrite Tk; apply lookup_insert_eq].
    rewrite Tm, version_moved. step_threads. split; [reflexivity|].
    apply by_key_Some. rewrite lookup_insert_eq. split; [reflexivity | exact Hkey].
  - step_threads.
    rewrite (find_quiet w key l Hf Hk Ha), He1, Ha1. step_threads.
    rewrite (find_quiet w key l Hf Hk Ha), He2, Hd2, Hc. step_threads.
    rewrite (save_quiet _ l w Hf) by (rewrite Tk; exact Hl).
    rewrite Tv, Tc, Tk, Tf. step_threads.
    rewrite (save_quiet _ (touched dev now1 l));
      [|exact Hf | rewrite Pk; apply lookup_insert_eq].
    rewrite Pm, Pk, Pf. step_threads. split; [reflexivity|].
    apply by_key_Some. rewrite lookup_insert_eq. split; [reflexivity | exact Hkey].
Qed.

Lemma the_later_save_decides_witness :
  let threads := [spawn (validate_license 3000 Demo.key "D1");
                  spawn (activate_license 3001 Demo.key "D2" None)] in
  let activated :=
    json 200 [("valid", JBool true);
              ("message", JStr "License activated successfully!");
              ("expiry_date", JDate (expiryDate Demo.shared));
              ("customer_name", JStr (customerName Demo.shared));
              ("plan_type", JStr (planType (metadata Demo.shared)));
              ("activations_used", JNum (currentActivations Demo.shared + 1));
              ("activations_total", JNum (maxActivations Demo.shared))] in
  (map answer_of (fst (interleave [0; 1; 1; 0]%nat threads (Demo.world Demo.shared []))) =
     [Some (json 500 [("valid", JBool false);
                      ("message", JStr "Server error during validation")]);
      Some activated] /\
   by_key (licenses (snd (interleave [0; 1; 1; 0]%nat threads
                            (Demo.world Demo.shared [])))) Demo.key =
     Some (appended "D2" 3001 None Demo.shared)) /\
  (map answer_of (fst (interleave [0; 1; 0; 1]%nat threads (Demo.world Demo.shared []))) =
     [Some (json 200 [("valid", JBool true);
                      ("message", JStr "License is valid");
                      ("expiry_date", JDate (expiryDate Demo.shared));
                      ("customer_name", JStr (customerName Demo.shared));
                      ("plan_type", JStr (planType (metadata Demo.shared)))]);
      Some activated] /\
   by_key (licenses (snd (interleave [0; 1; 0; 1]%nat threads
                            (Demo.world Demo.shared [])))) Demo.key =
     Some (appended "D2" 3001 None (touched "D1" 3000 Demo.shared))).
Proof.
  apply (the_later_save_decides 3000 3001 Demo.key "D1" "D2" None
           (Demo.world Demo.shared []) Demo.shared (mkDeviceActivation "D1" 2000 2000 "{}")).
  - reflexivity.
  - reflexivity.
  - simpl. lia.
  - simpl. lia.
  - reflexivity.
  - simpl. lia.
  - unfold device_ids. simpl. intros H. apply list_elem_of_singleton in H. discriminate H.
  - simpl. lia.
  - reflexivity.
Defined.
